(** * washcookies: the binarycookies codec of [binary/bincookies.py]

    A shallow embedding of the parser and serializer for Apple's
    "binary cookies" files, and the properties of the three layers
    (file, page, cookie) that the specification states.

    The module is Python 2: [str] values are byte strings, so buffers and
    the four string fields of a cookie are [list byte]; ints are unbounded
    and are modelled by [Z], positions and sizes included, with Python's
    rules for negative indices and slice bounds; exceptions are modelled by
    the error monad [result].

    The file has four parts: the codec, function by function as the module
    has it; a reference platform and sample buffers to run it on; the
    properties, layer by layer; and the concrete runs. *)

From Stdlib Require Import ZArith List Lia Bool.
From Stdlib Require Import Permutation Sorted.
From Stdlib Require Import Init.Byte.
From Stdlib Require Strings.Byte Strings.String Floats.
Import ListNotations.
Import String.StringSyntax.
Delimit Scope string_scope with string.

Local Open Scope Z_scope.

(** ** Exceptions *)

(** The module raises its own [error] class with a formatted message.  The
    messages are modelled by their kind, under the names the specification
    gives them. *)
Inductive error_kind : Type :=
| OutOfInput           (* "out of input at %d" *)
| FileMagicMismatch    (* "incorrect file magic: %r" *)
| SanityBoundExceeded  (* "counter too large: %d" *)
| IncompleteParse      (* "incomplete parse at %d != %d" *)
| PageMagicMismatch    (* "incorrect page magic number: %s" *)
| SentinelViolation    (* "incorrect page sentinel: %s" *)
| SizeMismatch.        (* "cookie size mismatch: %d != %d" *)

(** Every exception the codec can end with: its own [error], and the
    built-in ones raised by the interpreter and by [struct], [time] and
    [datetime]. *)
Inductive exn : Type :=
| error (k : error_kind)
| ValueError (msg : String.string)
| NameError (name : String.string)
| StructError
| IndexError
| OverflowError
| ZeroDivisionError
| AttributeError.
Arguments ValueError msg%_string.
Arguments NameError name%_string.

Inductive result (A : Type) : Type :=
| Ok (a : A)
| Raise (e : exn).
Arguments Ok {A} a.
Arguments Raise {A} e.

Definition bind {A B : Type} (m : result A) (k : A -> result B) : result B :=
  match m with
  | Ok a => k a
  | Raise e => Raise e
  end.

Notation "x <- m ;; k" := (bind m (fun x => k))
  (at level 61, m at next level, right associativity).
Notation "' p <- m ;; k" := (bind m (fun x => let p := x in k))
  (at level 61, p pattern, m at next level, right associativity).

(** ** Python sequences *)

Definition len {A : Type} (xs : list A) : Z := Z.of_nat (length xs).

(** A slice bound as Python normalises it against a sequence of length [n]:
    a negative bound counts from the end, and both are clipped to [0, n]. *)
Definition clip (n i : Z) : Z :=
  if i <? 0 then Z.max 0 (i + n) else Z.min i n.

(** [data[i:j]] *)
Definition slice {A : Type} (data : list A) (i j : Z) : list A :=
  let lo := clip (len data) i in
  let hi := clip (len data) j in
  firstn (Z.to_nat (hi - lo)) (skipn (Z.to_nat lo) data).

(** [data[i]]: [None] stands for IndexError. *)
Definition index {A : Type} (data : list A) (i : Z) : option A :=
  let k := if i <? 0 then i + len data else i in
  if k <? 0 then None else nth_error data (Z.to_nat k).

(** [list.sort()] on ints: the ascending rearrangement. *)
Fixpoint insert_sorted (x : Z) (xs : list Z) : list Z :=
  match xs with
  | [] => [x]
  | y :: ys => if x <=? y then x :: xs else y :: insert_sorted x ys
  end.

Definition sort (xs : list Z) : list Z := fold_right insert_sorted [] xs.

(** ** The [struct] formats for 4-byte unsigned integers *)

Definition byte_to_Z (b : byte) : Z := Z.of_N (Strings.Byte.to_N b).

Definition byte_of_Z (z : Z) : byte :=
  match Strings.Byte.of_N (Z.to_N (z mod 256)) with
  | Some b => b
  | None => x00
  end.

(** The value of a byte string read least significant byte first. *)
Fixpoint le_value (v : list byte) : Z :=
  match v with
  | [] => 0
  | b :: v' => byte_to_Z b + 256 * le_value v'
  end.

(** The [n] low bytes of [z], least significant first. *)
Fixpoint le_bytes (n : nat) (z : Z) : list byte :=
  match n with
  | O => []
  | S n' => byte_of_Z z :: le_bytes n' (z / 256)
  end.

(** [struct.unpack('<I', v)[0]] and [struct.unpack('>I', v)[0]]: the
    argument must be exactly 4 bytes long. *)
Definition unpack_lt_I (v : list byte) : result Z :=
  if (length v =? 4)%nat then Ok (le_value v) else Raise StructError.

Definition unpack_gt_I (v : list byte) : result Z :=
  if (length v =? 4)%nat then Ok (le_value (rev v)) else Raise StructError.

(** [struct.pack('<I', v)] and [struct.pack('>I', v)]: the value must fit
    32 bits. *)
Definition pack_lt_I (v : Z) : result (list byte) :=
  if (0 <=? v) && (v <=? 4294967295) then Ok (le_bytes 4 v)
  else Raise StructError.

Definition pack_gt_I (v : Z) : result (list byte) :=
  if (0 <=? v) && (v <=? 4294967295) then Ok (rev (le_bytes 4 v))
  else Raise StructError.

(** ** Doubles and datetimes

    The two timestamps of a cookie go through Python's [float], through
    [struct]'s ['<d'] format and through [time.mktime] and
    [datetime.datetime.fromtimestamp], which convert with the local time
    zone of the machine.  None of these is code of the repository: the
    codec is stated over any implementation of them. *)
Class Platform : Type := {
  (** [sys.maxint]: an integer from [-maxint - 1] to [maxint] is an [int],
      any other is a [long] *)
  maxint : Z;
  (** Python's [float], an IEEE-754 double *)
  float : Type;
  (** [datetime.datetime] *)
  datetime : Type;
  (** the conversion of an int where a double is required; [None] stands
      for OverflowError *)
  float_of_int : Z -> option float;
  (** [x - n] and [x + n] for a float [x] and an int [n] *)
  float_sub_int : float -> Z -> float;
  float_add_int : float -> Z -> float;
  (** [struct.pack('<d', x)], always 8 bytes, and
      [struct.unpack('<d', raw)[0]] on 8 bytes *)
  pack_lt_d : float -> list byte;
  unpack_lt_d : list byte -> float;
  pack_lt_d_length : forall x, length (pack_lt_d x) = 8%nat;
  (** [datetime.datetime.fromtimestamp(x)]; [None] stands for ValueError *)
  fromtimestamp : float -> option datetime;
  (** [time.mktime(dt.timetuple())]; [None] stands for OverflowError *)
  mktime_timetuple : datetime -> option float
}.

(** What a cookie holds under ['Created'] or ['Expires']: [u_dstamp] takes
    "a datetime or epoch time", that is an int, a float or a datetime, and
    [dstamp] returns a datetime.  [Int n] is the integer [n] as Python
    holds it: an [int] within the machine range, a [long] beyond it. *)
Inductive stamp `{Platform} : Type :=
| Int (n : Z)
| Float (x : float)
| Datetime (d : datetime).

(** A cookie dictionary, with the six keys [cookie] builds and [u_cookie]
    reads. *)
Record CookieRecord `{Platform} : Type := {
  Domain : list byte;
  Name : list byte;
  Path : list byte;
  Value : list byte;
  Created : stamp;
  Expires : stamp
}.

(** The outcome of a library call that raises [e] where it has no value. *)
Definition or_raise {A : Type} (e : exn) (o : option A) : result A :=
  match o with
  | Some a => Ok a
  | None => Raise e
  end.

(** ** Constants *)

(** Apple's "absolute time" epoch, 01-Jan-2001 00:00:00 UTC, relative to
    the Unix epoch, in seconds. *)
Definition mac_abs_epoch : Z := 978336000.

(** ['cook'] *)
Definition FILE_MAGIC : list byte := [x63; x6f; x6f; x6b].

Definition PAGE_MAGIC : Z := 256.

(** ** Primitive readers and writers *)

(** Return a buffer of n bytes exactly; fails if not enough are available. *)
Definition bytes (data : list byte) (pos n : Z) : result (list byte * Z) :=
  if pos + n >? len data then Raise (error OutOfInput)
  else Ok (slice data pos (pos + n), pos + n).

(** [data * c] *)
Definition times (data : list byte) (c : Z) : list byte :=
  concat (repeat data (Z.to_nat c)).

Definition u_bytes (data : list byte) (n : Z) : result (list byte) :=
  if len data =? 0 then Raise ZeroDivisionError
  else
    let c := n / len data in
    Ok (times data c ++ slice data 0 (n mod len data)).

(** Return a 4-byte unsigned integer read in network byte order. *)
Definition bsize (data : list byte) (pos : Z) : result (Z * Z) :=
  '(v, pos) <- bytes data pos 4 ;;
  n <- unpack_gt_I v ;;
  Ok (n, pos).

(** Pack an unsigned integer size in network byte order. *)
Definition u_bsize (v : Z) : result (list byte) :=
  if v <? 0 then Raise (ValueError "negative value") else pack_gt_I v.

(** Return a 4-byte unsigned integer read in little-endian order. *)
Definition lsize (data : list byte) (pos : Z) : result (Z * Z) :=
  '(v, pos) <- bytes data pos 4 ;;
  n <- unpack_lt_I v ;;
  Ok (n, pos).

(** Pack an unsigned integer size in little-endian order. *)
Definition u_lsize (v : Z) : result (list byte) :=
  if v <? 0 then Raise (ValueError "negative value") else pack_lt_I v.

(** The loop of [zstr]: [while pos < len(data) and data[pos] != '\x00'].
    Every round moves [pos] one byte closer to [len(data)], so
    [len(data) - pos] rounds are all the loop can make. *)
Fixpoint zstr_scan (rounds : nat) (data : list byte) (pos : Z) : result Z :=
  match rounds with
  | O => Ok pos
  | S rounds' =>
      if pos <? len data then
        match index data pos with
        | None => Raise IndexError
        | Some c =>
            if Strings.Byte.eqb c x00 then Ok pos
            else zstr_scan rounds' data (pos + 1)
        end
      else Ok pos
  end.

(** Return a zero-terminated string starting at pos. *)
Definition zstr (data : list byte) (pos : Z) : result (list byte) :=
  let start := pos in
  pos <- zstr_scan (Z.to_nat (len data - pos)) data pos ;;
  Ok (slice data start pos).

(** Unparse a zero-terminated string. *)
Definition u_zstr (s : list byte) : result (list byte) :=
  if existsb (Strings.Byte.eqb x00) s then Raise (ValueError "string contains NUL")
  else Ok (s ++ [x00]).

(** ** The file layer *)

(** [for i in xrange(n): vs[i], pos = bsize(data, pos)] *)
Fixpoint bsizes (n : nat) (data : list byte) (pos : Z) : result (list Z * Z) :=
  match n with
  | O => Ok ([], pos)
  | S n' =>
      '(v, pos) <- bsize data pos ;;
      '(vs, pos) <- bsizes n' data pos ;;
      Ok (v :: vs, pos)
  end.

(** Parse the cookie file header, returning a list of page lengths. *)
Definition head (data : list byte) (pos : Z) : result (list Z * Z) :=
  '(n, pos) <- bsize data pos ;;
  if n >? len data then Raise (error SanityBoundExceeded)
  else bsizes (Z.to_nat n) data pos.

(** [for i, n in enumerate(vs): vs[i] = pos, n; pos += n] *)
Fixpoint spans (vs : list Z) (pos : Z) : list (Z * Z) * Z :=
  match vs with
  | [] => ([], pos)
  | n :: vs' =>
      let '(rest, last) := spans vs' (pos + n) in
      ((pos, n) :: rest, last)
  end.

(** Parse a binarycookies file into a list of (start, length) tuples for
    the raw page data. *)
Definition cfile (data : list byte) (pos : Z)
  : result ((list (Z * Z) * list byte) * Z) :=
  '(magic, pos) <- bytes data pos 4 ;;
  if list_eq_dec Strings.Byte.byte_eq_dec magic FILE_MAGIC then
    '(vs, pos) <- head data pos ;;
    let '(vs, pos) := spans vs pos in
    '(ck, pos) <- bytes data pos 8 ;;
    if pos =? len data then Ok ((vs, ck), pos)
    else Raise (error IncompleteParse)
  else Raise (error FileMagicMismatch).

(** ** The page layer *)

(** [for i in xrange(len(xs)): xs[i], pos = lsize(data, pos)] *)
Fixpoint lsizes (n : nat) (data : list byte) (pos : Z) : result (list Z * Z) :=
  match n with
  | O => Ok ([], pos)
  | S n' =>
      '(x, pos) <- lsize data pos ;;
      '(xs, pos) <- lsizes n' data pos ;;
      Ok (x :: xs, pos)
  end.

(** Parse a page header, returning a list of cookie offsets.

    The message of the sentinel error is built from [ck], a name bound
    neither in [phead] nor at module level: evaluating it raises NameError
    before [error] is called. *)
Definition phead (data : list byte) (pos : Z) : result (list Z * Z) :=
  '(n, pos) <- lsize data pos ;;
  '(xs, pos) <- lsizes (Z.to_nat (n + 1)) data pos ;;
  match index xs (-1) with
  | None => Raise IndexError
  | Some x =>
      if x =? 0 then Ok (xs, pos) else Raise (NameError "ck")
  end.

(** [xs[-1] = v] on a list that is not empty *)
Definition set_last (xs : list Z) (v : Z) : list Z := removelast xs ++ [v].

(** [cs[i] = xs[i] + base, xs[i + 1] - xs[i]] for [i] in
    [xrange(len(xs) - 1)] *)
Definition deltas (base : Z) (xs : list Z) : list (Z * Z) :=
  map (fun i => (nth i xs 0 + base, nth (S i) xs 0 - nth i xs 0))
      (seq 0 (length xs - 1)).

(** Parse a page of cookie data of the given size, returning a list of
    (start, length) tuples for the raw cookies. *)
Definition page (data : list byte) (pos size : Z) : result (list (Z * Z) * Z) :=
  let base := pos in
  '(magic, pos) <- bsize data pos ;;
  if magic =? PAGE_MAGIC then
    '(xs, pos) <- phead data pos ;;
    let xs := set_last xs (if size =? 0 then len data else size) in
    let xs := sort xs in
    Ok (deltas base xs, pos)
  else Raise (error PageMagicMismatch).

(** ** The cookie layer *)

Section Cookie.
Context `{Platform}.

(** [struct.unpack('<d', raw)[0]]: the argument must be exactly 8 bytes
    long. *)
Definition struct_unpack_lt_d (raw : list byte) : result float :=
  if (length raw =? 8)%nat then Ok (unpack_lt_d raw) else Raise StructError.

(** Return a datestamp encoded as a floating-point epoch time in seconds. *)
Definition dstamp (data : list byte) (pos : Z) : result (datetime * Z) :=
  '(raw, pos) <- bytes data pos 8 ;;
  sec <- struct_unpack_lt_d raw ;;
  dt <- or_raise (ValueError "timestamp out of range")
          (fromtimestamp (float_add_int sec mac_abs_epoch)) ;;
  Ok (dt, pos).

(** Unparse a datetime or epoch time.

    [isinstance(dt, (int, float))] holds of an [int] and of a float.  A
    [long] is neither, so it is taken for a datetime, and [dt.timetuple()]
    raises AttributeError. *)
Definition u_dstamp (dt : stamp) : result (list byte) :=
  match dt with
  | Int n =>
      if (- maxint - 1 <=? n) && (n <=? maxint) then
        sec <- or_raise OverflowError (float_of_int (n - mac_abs_epoch)) ;;
        Ok (pack_lt_d sec)
      else Raise AttributeError
  | Float x =>
      Ok (pack_lt_d (float_sub_int x mac_abs_epoch))
  | Datetime d =>
      t <- or_raise OverflowError (mktime_timetuple d) ;;
      Ok (pack_lt_d (float_sub_int t mac_abs_epoch))
  end.

Definition cookie (data : list byte) (pos size : Z) : result CookieRecord :=
  let base := pos in
  '(n, pos) <- lsize data pos ;;
  if n =? (if size =? 0 then len data else size) then
    '(_, pos) <- bytes data pos 12 ;;
    '(urlpos, pos) <- lsize data pos ;;
    '(namepos, pos) <- lsize data pos ;;
    '(pathpos, pos) <- lsize data pos ;;
    '(valpos, pos) <- lsize data pos ;;
    '(_, pos) <- bytes data pos 8 ;;
    '(exp, pos) <- dstamp data pos ;;
    '(cre, pos) <- dstamp data pos ;;
    domain <- zstr data (urlpos + base) ;;
    name <- zstr data (namepos + base) ;;
    path <- zstr data (pathpos + base) ;;
    value <- zstr data (valpos + base) ;;
    Ok {| Domain := domain; Name := name; Path := path; Value := value;
          Created := Datetime cre; Expires := Datetime exp |}
  else Raise (error SizeMismatch).

(** Render a cookie dictionary into a binary packet. *)
Definition u_cookie (ck : CookieRecord) : result (list byte) :=
  let head := 4 + 12 + (4 * 4) + 8 + (8 * 2) in
  host <- u_zstr (Domain ck) ;;
  let p_host := head in
  name <- u_zstr (Name ck) ;;
  let p_name := p_host + len host in
  path <- u_zstr (Path ck) ;;
  let p_path := p_name + len name in
  val <- u_zstr (Value ck) ;;
  let p_val := p_path + len path in
  let size := head + len host + len name + len path + len val in
  f_size <- u_lsize size ;;
  pad12 <- u_bytes [x00] 12 ;;
  f_host <- u_lsize p_host ;;
  f_name <- u_lsize p_name ;;
  f_path <- u_lsize p_path ;;
  f_val <- u_lsize p_val ;;
  pad8 <- u_bytes [x00] 8 ;;
  f_exp <- u_dstamp (Expires ck) ;;
  f_cre <- u_dstamp (Created ck) ;;
  s_host <- u_zstr (Domain ck) ;;
  s_name <- u_zstr (Name ck) ;;
  s_path <- u_zstr (Path ck) ;;
  s_val <- u_zstr (Value ck) ;;
  Ok (concat [f_size; pad12; f_host; f_name; f_path; f_val; pad8;
              f_exp; f_cre; s_host; s_name; s_path; s_val]).

(** ** Whole files *)

(** [f] over a list, stopping at the first exception. *)
Fixpoint traverse {A B : Type} (f : A -> result B) (xs : list A) : result (list B) :=
  match xs with
  | [] => Ok []
  | x :: xs' =>
      y <- f x ;;
      ys <- traverse f xs' ;;
      Ok (y :: ys)
  end.

(** Parse a binarycookies file and return a list of cookies. *)
Definition parse_cookies (data : list byte) : result (list CookieRecord) :=
  '(pages, ck, pos) <- cfile data 0 ;;
  per_page <- traverse (fun '(pos, size) =>
                '(pg, _) <- page data pos size ;;
                traverse (fun '(p, s) => cookie data p s) pg) pages ;;
  Ok (concat per_page).

(** Parse a binarycookies file and return a list of raw page data and a
    checksum. *)
Definition parse_raw_pages (data : list byte) : result (list (list byte) * list byte) :=
  '(pages, ck, pos) <- cfile data 0 ;;
  Ok (map (fun '(s, n) => slice data s (s + n)) pages, ck).

(** Parse a binarycookies file and return a list of raw cookie data. *)
Definition parse_raw_cookies (data : list byte) : result (list (list byte)) :=
  '(pages, ck, pos) <- cfile data 0 ;;
  per_page <- traverse (fun '(pos, size) =>
                '(pg, _) <- page data pos size ;;
                Ok (map (fun '(p, s) => slice data p (p + s)) pg)) pages ;;
  Ok (concat per_page).

End Cookie.

(** ** A reference platform

    CPython 2.7 on a 64-bit machine whose time zone is UTC: floats are the
    kernel's IEEE-754 binary64 numbers, ['<d'] is their interchange
    encoding, and a datetime is kept as the POSIX second it denotes next to
    its microsecond field.  It serves to run the codec on concrete
    cookies. *)
Module Reference.

Import SpecFloat.

Definition double : Type := PrimFloat.float.

Record utc_datetime : Type := {
  seconds : Z;        (* the calendar fields, as seconds since the epoch *)
  microsecond : Z
}.

(** The 64 bits of a double: sign, 11 bits of biased exponent, 52 bits of
    fraction. *)
Definition sign_bit (s : bool) : Z := if s then 2 ^ 63 else 0.

Definition bits_of_SF (x : spec_float) : Z :=
  match x with
  | S754_zero s => sign_bit s
  | S754_infinity s => sign_bit s + 2047 * 2 ^ 52
  | S754_nan => 2047 * 2 ^ 52 + 2 ^ 51
  | S754_finite s m e =>
      sign_bit s +
      (if Zpos m <? 2 ^ 52 then Zpos m
       else (e + 1075) * 2 ^ 52 + (Zpos m - 2 ^ 52))
  end.

Definition SF_of_bits (z : Z) : spec_float :=
  let s := Z.testbit z 63 in
  let e := (z / 2 ^ 52) mod 2048 in
  let f := z mod 2 ^ 52 in
  if e =? 0 then
    match f with
    | Zpos m => S754_finite s m (-1074)
    | _ => S754_zero s
    end
  else if e =? 2047 then
    (if f =? 0 then S754_infinity s else S754_nan)
  else
    match f + 2 ^ 52 with
    | Zpos m => S754_finite s m (e - 1075)
    | _ => S754_nan
    end.

Definition bits_of_double (x : double) : Z := bits_of_SF (FloatOps.Prim2SF x).

Definition double_of_bits (z : Z) : double := FloatOps.SF2Prim (SF_of_bits z).

(** An int as the nearest double. *)
Definition double_of_Z (n : Z) : double :=
  FloatOps.SF2Prim (binary_normalize FloatOps.prec FloatOps.emax n 0 false).

(** A double cut to an int towards zero, as a C cast does; [None] when it
    is not finite. *)
Definition truncate (x : double) : option Z :=
  match FloatOps.Prim2SF x with
  | S754_zero _ => Some 0
  | S754_finite s m e =>
      let a := if 0 <=? e then Zpos m * 2 ^ e else Zpos m / 2 ^ (- e) in
      Some (if s then - a else a)
  | _ => None
  end.

Definition half : double := PrimFloat.div (double_of_Z 1) (double_of_Z 2).

(** [round_to_long] of datetimemodule.c *)
Definition round_to_long (x : double) : option Z :=
  if PrimFloat.leb PrimFloat.zero x then truncate (PrimFloat.add x half)
  else truncate (PrimFloat.sub x half).

(** [datetime.datetime.fromtimestamp]: the timestamp must fit [time_t] and
    fall in the years 1 to 9999. *)
Definition utc_fromtimestamp (x : double) : option utc_datetime :=
  match truncate x with
  | None => None
  | Some timet =>
      if (timet <? - 2 ^ 63) || (2 ^ 63 <=? timet) then None
      else
        let fraction := PrimFloat.sub x (double_of_Z timet) in
        match round_to_long (PrimFloat.mul fraction (double_of_Z 1000000)) with
        | None => None
        | Some us =>
            let '(timet, us) :=
              if us <? 0 then (timet - 1, us + 1000000) else (timet, us) in
            let '(timet, us) :=
              if us =? 1000000 then (timet + 1, 0) else (timet, us) in
            if (-62135596800 <=? timet) && (timet <=? 253402300799) then
              Some {| seconds := timet; microsecond := us |}
            else None
        end
  end.

(** [time.mktime(dt.timetuple())]: a time tuple has no field for the
    microseconds. *)
Definition utc_mktime_timetuple (d : utc_datetime) : option double :=
  Some (double_of_Z (seconds d)).

Definition utc_float_of_int (n : Z) : option double :=
  if PrimFloat.is_infinity (double_of_Z n) then None
  else Some (double_of_Z n).

Definition platform : Platform := {|
  maxint := 2 ^ 63 - 1;
  float := double;
  datetime := utc_datetime;
  float_of_int := utc_float_of_int;
  float_sub_int := fun x n => PrimFloat.sub x (double_of_Z n);
  float_add_int := fun x n => PrimFloat.add x (double_of_Z n);
  pack_lt_d := fun x => le_bytes 8 (bits_of_double x);
  unpack_lt_d := fun raw => double_of_bits (le_value raw);
  pack_lt_d_length := fun x => eq_refl;
  fromtimestamp := utc_fromtimestamp;
  mktime_timetuple := utc_mktime_timetuple
|}.

(** The value of a finite double in units of 2^-1074, the smallest
    positive double; 0 for the others. *)
Definition ulps (x : spec_float) : Z :=
  match x with
  | S754_finite s m e => cond_Zopp s (Zpos m * 2 ^ (e + 1074))
  | _ => 0
  end.

(** The zero without sign bit, or a finite double in its normal form. *)
Definition grid (x : spec_float) : Prop :=
  match x with
  | S754_zero s => s = false
  | S754_finite _ m e => bounded FloatOps.prec FloatOps.emax m e = true
  | _ => False
  end.

End Reference.

(** ** The vocabulary of the properties *)

(** The exceptions of the primitive readers and of the libraries, as
    opposed to the structural errors of the three layers. *)
Definition primitive (e : exn) : Prop :=
  match e with
  | error OutOfInput | StructError | IndexError | ValueError _ | OverflowError => True
  | _ => False
  end.

(** The pages lie one after the other: the cursor after the last one is
    the start of the first plus all the declared sizes. *)
Definition total (vs : list Z) : Z := fold_right Z.add 0 vs.

(** A table of 4-byte little-endian integers, as [lsizes] reads it. *)
Definition table (xs : list Z) : list byte := concat (map (le_bytes 4) xs).

(** A list of (start, length) ranges tiles the interval from [lo] to [hi]:
    the first starts at [lo], each next one starts where the one before
    ends, the last ends at [hi], and none is empty. *)
Fixpoint tiles (lo hi : Z) (cs : list (Z * Z)) : Prop :=
  match cs with
  | [] => lo = hi
  | (start, n) :: cs' => start = lo /\ 0 < n /\ tiles (lo + n) hi cs'
  end.

(** The header of a page that declares the record offsets [offs], in the
    order given: the marker, the count, the offsets and the zero sentinel. *)
Definition page_header (offs : list Z) : list byte :=
  rev (le_bytes 4 PAGE_MAGIC) ++ le_bytes 4 (len offs) ++ table offs ++ le_bytes 4 0.

(** A page of [size] bytes is well formed when the count and the size fit
    their 4-byte fields, the records start at distinct offsets between the
    end of the header and the end of the page, and the first record starts
    where the header ends (an empty page is its header alone). *)
Record well_formed_page (offs : list Z) (size : Z) : Prop := {
  wf_count : len offs <= 4294967295;
  wf_size : size <= 4294967295;
  wf_distinct : NoDup offs;
  wf_inside : Forall (fun o => 12 + 4 * len offs <= o < size) offs;
  wf_first : offs <> [] -> In (12 + 4 * len offs) offs;
  wf_empty : offs = [] -> size = 12
}.

(** A string field that holds no zero byte. *)
Definition nozero (s : list byte) : Prop := ~ In x00 s.

(** The bytes of [l] before its first zero byte, all of [l] if it has none. *)
Fixpoint upto0 (l : list byte) : list byte :=
  match l with
  | [] => []
  | c :: l' => if Strings.Byte.eqb c x00 then [] else c :: upto0 l'
  end.

(** The four strings of a record end inside it: from each of the four
    offsets of its header on, the record holds a zero byte. *)
Definition strings_terminated (rec : list byte) : Prop :=
  forall k off p, In k [16; 20; 24; 28] ->
    lsize rec k = Ok (off, p) -> In x00 (skipn (Z.to_nat off) rec).

(** A list of (start, length) ranges runs from [lo] to [hi] without gap or
    overlap: the first starts at [lo], each next one starts where the one
    before ends, the last ends at [hi].  Unlike [tiles], a range may be
    empty. *)
Fixpoint contiguous (lo hi : Z) (cs : list (Z * Z)) : Prop :=
  match cs with
  | [] => lo = hi
  | (start, n) :: cs' => start = lo /\ 0 <= n /\ contiguous (lo + n) hi cs'
  end.

(** The offsets at which byte strings laid one after the other start, the
    first of them at [lo]. *)
Fixpoint starts (lo : Z) (chunks : list (list byte)) : list Z :=
  match chunks with
  | [] => []
  | c :: chunks' => lo :: starts (lo + len c) chunks'
  end.

(** A page that holds the given records in order: its header, with the
    offset of each record from the start of the page, then the records. *)
Definition page_of (packets : list (list byte)) : list byte :=
  page_header (starts (12 + 4 * len packets) packets) ++ concat packets.

(** A file that holds the given pages in order: the magic, the count of
    the pages and the size of each (4 bytes, big-endian), the pages, and
    the 8 bytes [ck] that end the file. *)
Definition file_of (pages : list (list byte)) (ck : list byte) : list byte :=
  FILE_MAGIC ++ rev (le_bytes 4 (len pages))
             ++ concat (map (fun p => rev (le_bytes 4 (len p))) pages)
             ++ concat pages ++ ck.

Section CookieVocabulary.
Context `{Platform}.

(** The size [u_cookie] computes: the 56 bytes of the fixed part and the
    four strings, each with its terminator. *)
Definition encoded_size (r : CookieRecord) : Z :=
  56 + (len (Domain r) + 1) + (len (Name r) + 1)
     + (len (Path r) + 1) + (len (Value r) + 1).

(** The packet of [r], given the 8 bytes of each of its timestamps. *)
Definition packet (r : CookieRecord) (exp cre : list byte) : list byte :=
  le_bytes 4 (encoded_size r) ++
  repeat x00 12 ++
  le_bytes 4 56 ++
  le_bytes 4 (56 + (len (Domain r) + 1)) ++
  le_bytes 4 (56 + (len (Domain r) + 1) + (len (Name r) + 1)) ++
  le_bytes 4 (56 + (len (Domain r) + 1) + (len (Name r) + 1) + (len (Path r) + 1)) ++
  repeat x00 8 ++
  exp ++ cre ++
  (Domain r ++ [x00]) ++ (Name r ++ [x00]) ++ (Path r ++ [x00]) ++ (Value r ++ [x00]).

(** None of the four strings of a cookie holds a zero byte. *)
Definition nozero_fields (r : CookieRecord) : Prop :=
  nozero (Domain r) /\ nozero (Name r) /\ nozero (Path r) /\ nozero (Value r).

(** A timestamp taken through the codec: packed by [u_dstamp], read back
    by [dstamp]. *)
Definition recode (t : stamp) : result stamp :=
  b <- u_dstamp t ;;
  '(dt, _) <- dstamp b 0 ;;
  Ok (Datetime dt).

End CookieVocabulary.

(** ** Sample data

    Buffers and cookies on the reference platform, for the concrete runs
    at the end of the file. *)
Module Samples.

Definition P : Platform := Reference.platform.

Definition ascii (s : String.string) : list byte := String.list_byte_of_string s.
Arguments ascii s%_string.

Definition at_second (t : Z) : @stamp Reference.platform :=
  @Datetime Reference.platform
    {| Reference.seconds := t; Reference.microsecond := 0 |}.

(** The cookie of the specification's scenario: created at T = 10^9
    seconds, expiring an hour later. *)
Definition sample_cookie : @CookieRecord Reference.platform :=
  {| Domain := ascii "example.com"; Name := ascii "id"; Path := ascii "/";
     Value := ascii "123";
     Created := at_second 1000000000; Expires := at_second 1000003600 |}.

(** Its packet: 77 bytes. *)
Definition sample_packet : list byte :=
  [x4d; x00; x00; x00;                                  (* size 77 *)
   x00; x00; x00; x00; x00; x00; x00; x00; x00; x00; x00; x00;
   x38; x00; x00; x00;                                  (* Domain at 56 *)
   x44; x00; x00; x00;                                  (* Name at 68 *)
   x47; x00; x00; x00;                                  (* Path at 71 *)
   x49; x00; x00; x00;                                  (* Value at 73 *)
   x00; x00; x00; x00; x00; x00; x00; x00;
   x00; x00; x00; x00; xf1; xa9; x74; x41;              (* Expires *)
   x00; x00; x00; x00; x10; xa9; x74; x41;              (* Created *)
   x65; x78; x61; x6d; x70; x6c; x65; x2e; x63; x6f; x6d; x00;
   x69; x64; x00;
   x2f; x00;
   x31; x32; x33; x00].

(** The same cookie created half a second later. *)
Definition fractional_cookie : @CookieRecord Reference.platform :=
  {| Domain := ascii "example.com"; Name := ascii "id"; Path := ascii "/";
     Value := ascii "123";
     Created := @Datetime Reference.platform
                  {| Reference.seconds := 1000000000;
                     Reference.microsecond := 500000 |};
     Expires := at_second 1000003600 |}.

(** The same cookie expiring at the double 1e300. *)
Definition huge_cookie : @CookieRecord Reference.platform :=
  {| Domain := ascii "example.com"; Name := ascii "id"; Path := ascii "/";
     Value := ascii "123";
     Created := at_second 1000000000;
     Expires := @Float Reference.platform (Reference.double_of_Z (10 ^ 300)) |}.

(** Three doubles: 10^9 + 0.5, 5e-7 and 0.1. *)
Definition half_past : Reference.double :=
  PrimFloat.add (Reference.double_of_Z 1000000000) Reference.half.

Definition five_e_minus_7 : Reference.double :=
  PrimFloat.div (Reference.double_of_Z 5) (Reference.double_of_Z 10000000).

Definition tenth : Reference.double :=
  PrimFloat.div (Reference.double_of_Z 1) (Reference.double_of_Z 10).

(** A record of 63 bytes whose last string, ["d"], has no terminator,
    followed in its buffer by the two bytes ["X\0"]. *)
Definition open_record : list byte :=
  [x3f; x00; x00; x00;                                  (* size 63 *)
   x00; x00; x00; x00; x00; x00; x00; x00; x00; x00; x00; x00;
   x38; x00; x00; x00;                                  (* Domain at 56 *)
   x3a; x00; x00; x00;                                  (* Name at 58 *)
   x3c; x00; x00; x00;                                  (* Path at 60 *)
   x3e; x00; x00; x00;                                  (* Value at 62 *)
   x00; x00; x00; x00; x00; x00; x00; x00;
   x00; x00; x00; x00; xf1; xa9; x74; x41;
   x00; x00; x00; x00; x10; xa9; x74; x41;
   x61; x00; x62; x00; x63; x00; x64].

Definition open_buffer : list byte := open_record ++ [x58; x00].

(** An empty page: marker, count 0, sentinel 0. *)
Definition empty_page : list byte :=
  [x00; x00; x01; x00;  x00; x00; x00; x00;  x00; x00; x00; x00].

(** The same page with its marker written little-endian. *)
Definition le_marker_page : list byte :=
  [x00; x01; x00; x00;  x00; x00; x00; x00;  x00; x00; x00; x00].

(** An empty page whose sentinel is 1. *)
Definition bad_sentinel_page : list byte :=
  [x00; x00; x01; x00;  x00; x00; x00; x00;  x01; x00; x00; x00].

(** The header of a page of 60 bytes with two records of 20 bytes, the
    second listed first, and the page itself. *)
Definition two_record_header : list byte :=
  [x00; x00; x01; x00;  x02; x00; x00; x00;
   x28; x00; x00; x00;  x14; x00; x00; x00;  x00; x00; x00; x00].

Definition two_record_page : list byte := two_record_header ++ repeat x2e 40.

(** The file of the specification's scenario: magic, one page of 12 bytes,
    the empty page, and 8 bytes of checksum. *)
Definition sample_file : list byte :=
  FILE_MAGIC ++ [x00; x00; x00; x01] ++ [x00; x00; x00; x0c] ++ empty_page
             ++ [x01; x02; x03; x04; x05; x06; x07; x08].

(** A file of one page that holds the packet of the sample cookie, and a
    file of two pages: the packet twice in the first, an empty second. *)
Definition trailer : list byte := [x01; x02; x03; x04; x05; x06; x07; x08].

Definition cookie_file : list byte := file_of [page_of [sample_packet]] trailer.

Definition two_page_file : list byte :=
  file_of [page_of [sample_packet; sample_packet]; page_of []] trailer.

End Samples.

(** * Properties *)

(** ** The error monad *)

Lemma bind_Ok_inv {A B : Type} (m : result A) (k : A -> result B) (b : B) :
  bind m k = Ok b -> exists a, m = Ok a /\ k a = Ok b.
Proof. destruct m as [a|e]; simpl; [eauto | discriminate]. Qed.

Lemma bind_Raise_inv {A B : Type} (m : result A) (k : A -> result B) (e : exn) :
  bind m k = Raise e -> m = Raise e \/ exists a, m = Ok a /\ k a = Raise e.
Proof. destruct m as [a|e']; simpl; [eauto | intros [= ->]; auto]. Qed.

(** ** Slices and indices *)

Lemma len_nonneg {A : Type} (xs : list A) : 0 <= len xs.
Proof. unfold len; lia. Qed.

Lemma len_app {A : Type} (xs ys : list A) : len (xs ++ ys) = len xs + len ys.
Proof. unfold len; rewrite length_app; lia. Qed.

Lemma len_cons {A : Type} (x : A) (xs : list A) : len (x :: xs) = 1 + len xs.
Proof. unfold len; simpl length; lia. Qed.

Lemma slice_inside {A : Type} (data : list A) (i j : Z) :
  0 <= i -> i <= j -> j <= len data ->
  slice data i j = firstn (Z.to_nat (j - i)) (skipn (Z.to_nat i) data).
Proof.
  intros Hi Hij Hj. unfold slice, clip.
  destruct (Z.ltb_spec i 0), (Z.ltb_spec j 0); try lia.
  rewrite !Z.min_l by lia. reflexivity.
Qed.

Lemma slice_length {A : Type} (data : list A) (i j : Z) :
  0 <= i -> i <= j -> j <= len data -> len (slice data i j) = j - i.
Proof.
  intros Hi Hij Hj. rewrite slice_inside by assumption.
  unfold len in *. rewrite length_firstn, length_skipn. lia.
Qed.

Lemma slice_app_middle {A : Type} (pre v post : list A) :
  slice (pre ++ v ++ post) (len pre) (len pre + len v) = v.
Proof.
  rewrite slice_inside.
  - replace (len pre + len v - len pre) with (len v) by lia.
    unfold len. rewrite !Nat2Z.id.
    rewrite skipn_app, skipn_all, Nat.sub_diag. simpl.
    rewrite firstn_app, firstn_all, Nat.sub_diag. simpl. apply app_nil_r.
  - apply len_nonneg.
  - pose proof (len_nonneg v); lia.
  - rewrite !len_app. pose proof (len_nonneg post); lia.
Qed.

Lemma index_inside {A : Type} (data : list A) (i : Z) :
  0 <= i -> index data i = nth_error data (Z.to_nat i).
Proof.
  intros Hi. unfold index.
  destruct (Z.ltb_spec i 0); [lia|].
  destruct (Z.ltb_spec i 0); [lia|]. reflexivity.
Qed.

Lemma index_last (xs : list Z) (x : Z) : index (xs ++ [x]) (-1) = Some x.
Proof.
  unfold index. change (-1 <? 0) with true. cbv zeta iota.
  rewrite len_app. change (len [x]) with 1.
  pose proof (len_nonneg xs).
  destruct (Z.ltb_spec (-1 + (len xs + 1)) 0); [lia|].
  replace (Z.to_nat (-1 + (len xs + 1))) with (length xs) by (unfold len; lia).
  rewrite nth_error_app2 by apply Nat.le_refl.
  rewrite Nat.sub_diag. reflexivity.
Qed.

(** ** The primitive readers *)

Lemma bytes_Ok_inv (data : list byte) (pos n : Z) (v : list byte) (pos' : Z) :
  bytes data pos n = Ok (v, pos') ->
  pos + n <= len data /\ v = slice data pos (pos + n) /\ pos' = pos + n.
Proof.
  unfold bytes. destruct (Z.gtb_spec (pos + n) (len data)); [discriminate|].
  intros [= <- <-]. auto.
Qed.

Lemma bytes_Raise_inv (data : list byte) (pos n : Z) (e : exn) :
  bytes data pos n = Raise e -> e = error OutOfInput /\ len data < pos + n.
Proof.
  unfold bytes. destruct (Z.gtb_spec (pos + n) (len data)); [|discriminate].
  intros [= <-]. auto.
Qed.

Lemma bytes_inside (data : list byte) (pos n : Z) :
  pos + n <= len data -> bytes data pos n = Ok (slice data pos (pos + n), pos + n).
Proof.
  intros. unfold bytes. destruct (Z.gtb_spec (pos + n) (len data)); [lia|reflexivity].
Qed.

Lemma unpack_lt_I_Raise_inv (v : list byte) (e : exn) :
  unpack_lt_I v = Raise e -> e = StructError.
Proof. unfold unpack_lt_I. destruct (_ =? _)%nat; congruence. Qed.

Lemma unpack_gt_I_Raise_inv (v : list byte) (e : exn) :
  unpack_gt_I v = Raise e -> e = StructError.
Proof. unfold unpack_gt_I. destruct (_ =? _)%nat; congruence. Qed.

Lemma lsize_Raise_primitive (data : list byte) (pos : Z) (e : exn) :
  lsize data pos = Raise e -> primitive e.
Proof.
  unfold lsize. intros Hr.
  apply bind_Raise_inv in Hr as [Hr | ([v p] & _ & Hr)].
  - apply bytes_Raise_inv in Hr as [-> _]. exact I.
  - simpl in Hr. apply bind_Raise_inv in Hr as [Hr | (n & _ & Hr)].
    + apply unpack_lt_I_Raise_inv in Hr as ->. exact I.
    + discriminate.
Qed.

Lemma bsize_Raise_primitive (data : list byte) (pos : Z) (e : exn) :
  bsize data pos = Raise e -> primitive e.
Proof.
  unfold bsize. intros Hr.
  apply bind_Raise_inv in Hr as [Hr | ([v p] & _ & Hr)].
  - apply bytes_Raise_inv in Hr as [-> _]. exact I.
  - simpl in Hr. apply bind_Raise_inv in Hr as [Hr | (n & _ & Hr)].
    + apply unpack_gt_I_Raise_inv in Hr as ->. exact I.
    + discriminate.
Qed.

Lemma lsize_Ok_inv (data : list byte) (pos n pos' : Z) :
  lsize data pos = Ok (n, pos') ->
  pos + 4 <= len data /\ unpack_lt_I (slice data pos (pos + 4)) = Ok n /\ pos' = pos + 4.
Proof.
  unfold lsize. intros Ho.
  apply bind_Ok_inv in Ho as ([v p] & Hb & Ho). simpl in Ho.
  apply bytes_Ok_inv in Hb as (Hle & -> & ->).
  apply bind_Ok_inv in Ho as (m & Hu & [= <- <-]). auto.
Qed.

Lemma bsize_Ok_inv (data : list byte) (pos n pos' : Z) :
  bsize data pos = Ok (n, pos') ->
  pos + 4 <= len data /\ unpack_gt_I (slice data pos (pos + 4)) = Ok n /\ pos' = pos + 4.
Proof.
  unfold bsize. intros Ho.
  apply bind_Ok_inv in Ho as ([v p] & Hb & Ho). simpl in Ho.
  apply bytes_Ok_inv in Hb as (Hle & -> & ->).
  apply bind_Ok_inv in Ho as (m & Hu & [= <- <-]). auto.
Qed.

Lemma bytes_Raise_primitive (data : list byte) (pos n : Z) (e : exn) :
  bytes data pos n = Raise e -> primitive e.
Proof. intros Hr. apply bytes_Raise_inv in Hr as [-> _]. exact I. Qed.

Lemma zstr_scan_Raise_inv (rounds : nat) (data : list byte) (pos : Z) (e : exn) :
  zstr_scan rounds data pos = Raise e -> e = IndexError.
Proof.
  revert pos. induction rounds as [|rounds IH]; simpl; intros pos Hr.
  - discriminate.
  - destruct (pos <? len data); [|discriminate].
    destruct (index data pos) as [c|]; [|congruence].
    destruct (Strings.Byte.eqb c x00); [discriminate|eauto].
Qed.

Lemma zstr_Raise_primitive (data : list byte) (pos : Z) (e : exn) :
  zstr data pos = Raise e -> primitive e.
Proof.
  unfold zstr. intros Hr.
  apply bind_Raise_inv in Hr as [Hr | (p & _ & Hr)]; [|discriminate].
  apply zstr_scan_Raise_inv in Hr as ->. exact I.
Qed.

(** One step through a sequence of calls that ended with an exception:
    either the first call raised it, or it returned and the rest did. *)
Ltac raise_step H :=
  let a := fresh "a" in
  apply bind_Raise_inv in H as [H | (a & _ & H)];
  [ | try (destruct a as [? ?]); cbv beta iota zeta in H ].

Section CookieErrors.
Context `{Platform}.

Lemma dstamp_Raise_primitive (data : list byte) (pos : Z) (e : exn) :
  dstamp data pos = Raise e -> primitive e.
Proof.
  unfold dstamp. intros Hr.
  raise_step Hr; [eapply bytes_Raise_primitive; eauto|].
  raise_step Hr.
  { unfold struct_unpack_lt_d in Hr. destruct (_ =? _)%nat; [discriminate|].
    injection Hr as <-. exact I. }
  raise_step Hr; [|discriminate].
  destruct (fromtimestamp _); simpl in Hr; [discriminate|].
  injection Hr as <-. exact I.
Qed.

(** The exceptions of [cookie]: the size check raises its own error, all
    others come from the primitive readers. *)
Lemma cookie_Raise_cases (data : list byte) (pos size : Z) (e : exn) :
  cookie data pos size = Raise e ->
  primitive e \/
  (e = error SizeMismatch /\
   exists n pos', lsize data pos = Ok (n, pos') /\
                  n <> (if size =? 0 then len data else size)).
Proof.
  unfold cookie. intros Hr.
  apply bind_Raise_inv in Hr as [Hr | ([n p] & Hl & Hr)].
  { left. eapply lsize_Raise_primitive; eauto. }
  cbv beta iota zeta in Hr.
  destruct (Z.eqb_spec n (if size =? 0 then len data else size)) as [Heq|Hne].
  - left.
    repeat (raise_step Hr;
            [ solve [ eapply bytes_Raise_primitive; eauto
                    | eapply lsize_Raise_primitive; eauto
                    | eapply dstamp_Raise_primitive; eauto
                    | eapply zstr_Raise_primitive; eauto ] | ]).
    discriminate.
  - right. injection Hr as <-. eauto.
Qed.

End CookieErrors.

(** ** C7: the size check of a cookie *)

(** C7.  When [cookie] is given a nonzero expected size, as it is for every
    range a page yields, and the 4-byte size field at the start offset can
    be read, [cookie] fails with the size-mismatch error exactly when the
    little-endian value of that field differs from the expected size; when
    they are equal the failure, if any, is not a size mismatch. *)
Theorem cookie_size_mismatch_iff `{Platform}
    (data : list byte) (pos size n pos' : Z) :
  size <> 0 ->
  lsize data pos = Ok (n, pos') ->
  cookie data pos size = Raise (error SizeMismatch) <-> n <> size.
Proof.
  intros Hsize Hl. split.
  - intros Hr. apply cookie_Raise_cases in Hr as [Hp | (_ & n' & p & Hl' & Hne)].
    + destruct Hp.
    + rewrite Hl in Hl'. injection Hl' as <- <-.
      destruct (Z.eqb_spec size 0); [contradiction|assumption].
  - intros Hne. unfold cookie. rewrite Hl. simpl.
    destruct (Z.eqb_spec size 0); [contradiction|].
    destruct (Z.eqb_spec n size); [contradiction|reflexivity].
Qed.

(** ** The file layer *)

Lemma bsizes_Raise_primitive (n : nat) (data : list byte) (pos : Z) (e : exn) :
  bsizes n data pos = Raise e -> primitive e.
Proof.
  revert pos. induction n as [|n IH]; simpl; intros pos Hr; [discriminate|].
  raise_step Hr; [eapply bsize_Raise_primitive; eauto|].
  raise_step Hr; [eauto|discriminate].
Qed.

Lemma head_Raise_cases (data : list byte) (pos : Z) (e : exn) :
  head data pos = Raise e -> primitive e \/ e = error SanityBoundExceeded.
Proof.
  unfold head. intros Hr.
  raise_step Hr; [left; eapply bsize_Raise_primitive; eauto|].
  destruct (_ >? _).
  - injection Hr as <-. auto.
  - left. eapply bsizes_Raise_primitive; eauto.
Qed.

Lemma spans_end (vs : list Z) (pos : Z) : snd (spans vs pos) = pos + total vs.
Proof.
  revert pos. induction vs as [|n vs IH]; simpl; intros pos; [lia|].
  specialize (IH (pos + n)). destruct (spans vs (pos + n)) as [rest last].
  simpl in *. lia.
Qed.

Lemma spans_length (vs : list Z) (pos : Z) : length (fst (spans vs pos)) = length vs.
Proof.
  revert pos. induction vs as [|n vs IH]; simpl; intros pos; [reflexivity|].
  specialize (IH (pos + n)). destruct (spans vs (pos + n)) as [rest last].
  simpl in *. congruence.
Qed.

(** ** C8: the end of the file *)

(** C8.  Once the magic and the table of page sizes are read, the 8 bytes
    after the last declared page are taken as the checksum, and [cfile]
    fails with the incomplete-parse error exactly when the cursor after
    them is not the end of the buffer: a buffer with bytes beyond the
    checksum is rejected with that error, and one that ends there is
    accepted with the page ranges and the checksum bytes. *)
Theorem cfile_incomplete_parse_iff (data : list byte) (vs : list Z) (p0 : Z) :
  bytes data 0 4 = Ok (FILE_MAGIC, 4) ->
  head data 4 = Ok (vs, p0) ->
  p0 + total vs + 8 <= len data ->
  let cursor := p0 + total vs + 8 in
  (cfile data 0 = Raise (error IncompleteParse) <-> cursor <> len data) /\
  (cursor < len data -> cfile data 0 = Raise (error IncompleteParse)) /\
  (cursor = len data ->
   cfile data 0 =
   Ok ((fst (spans vs p0), slice data (p0 + total vs) cursor), cursor)).
Proof.
  intros Hmagic Hhead Hfit cursor.
  assert (Hrun : cfile data 0 =
                 if cursor =? len data
                 then Ok ((fst (spans vs p0), slice data (p0 + total vs) cursor), cursor)
                 else Raise (error IncompleteParse)).
  { unfold cfile. rewrite Hmagic. cbn [bind].
    destruct (list_eq_dec Strings.Byte.byte_eq_dec FILE_MAGIC FILE_MAGIC)
      as [_|Hne]; [|contradiction].
    rewrite Hhead. cbn [bind].
    pose proof (spans_end vs p0) as Hend.
    destruct (spans vs p0) as [pages pend]. simpl in Hend. subst pend.
    rewrite bytes_inside by (fold cursor; lia). reflexivity. }
  rewrite Hrun. destruct (Z.eqb_spec cursor (len data)) as [Heq|Hne].
  - split; [|split].
    + split; [discriminate|contradiction].
    + lia.
    + reflexivity.
  - split; [|split].
    + split; auto.
    + reflexivity.
    + contradiction.
Qed.

(** The incomplete-parse error has no other source in [cfile]. *)
Lemma cfile_incomplete_parse_only (data : list byte) (pos : Z) :
  cfile data pos = Raise (error IncompleteParse) ->
  exists magic p1 vs p2 ck p3,
    bytes data pos 4 = Ok (magic, p1) /\ head data p1 = Ok (vs, p2) /\
    bytes data (snd (spans vs p2)) 8 = Ok (ck, p3) /\ p3 <> len data.
Proof.
  unfold cfile. intros Hr.
  apply bind_Raise_inv in Hr as [Hr | ([magic p1] & Hm & Hr)].
  { apply bytes_Raise_inv in Hr as [[=] _]. }
  cbv beta iota zeta in Hr.
  destruct (list_eq_dec Strings.Byte.byte_eq_dec magic FILE_MAGIC); [|discriminate].
  apply bind_Raise_inv in Hr as [Hr | ([vs p2] & Hh & Hr)].
  { apply head_Raise_cases in Hr as [[]|[=]]. }
  cbv beta iota zeta in Hr.
  destruct (spans vs p2) as [pages pend] eqn:Hs.
  apply bind_Raise_inv in Hr as [Hr | ([ck p3] & Hc & Hr)].
  { apply bytes_Raise_inv in Hr as [[=] _]. }
  cbv beta iota zeta in Hr.
  destruct (Z.eqb_spec p3 (len data)); [discriminate|].
  exists magic, p1, vs, p2, ck, p3. rewrite Hs. auto.
Qed.

(** ** The page layer *)

Lemma lsizes_Raise_primitive (n : nat) (data : list byte) (pos : Z) (e : exn) :
  lsizes n data pos = Raise e -> primitive e.
Proof.
  revert pos. induction n as [|n IH]; simpl; intros pos Hr; [discriminate|].
  raise_step Hr; [eapply lsize_Raise_primitive; eauto|].
  raise_step Hr; [eauto|discriminate].
Qed.

Lemma lsizes_Ok_length (n : nat) (data : list byte) (pos : Z) (xs : list Z) (pos' : Z) :
  lsizes n data pos = Ok (xs, pos') -> length xs = n /\ pos' = pos + 4 * Z.of_nat n.
Proof.
  revert pos xs pos'. induction n as [|n IH]; simpl; intros pos xs pos' Ho.
  - injection Ho as <- <-. split; [reflexivity|lia].
  - apply bind_Ok_inv in Ho as ([x p] & Hx & Ho). cbv beta iota zeta in Ho.
    apply bind_Ok_inv in Ho as ([xs' p'] & Hxs & Ho). cbv beta iota zeta in Ho.
    injection Ho as <- <-.
    apply lsize_Ok_inv in Hx as (_ & _ & ->).
    apply IH in Hxs as [<- ->]. split; [reflexivity|lia].
Qed.

Lemma phead_Raise_cases (data : list byte) (pos : Z) (e : exn) :
  phead data pos = Raise e -> primitive e \/ e = NameError "ck".
Proof.
  unfold phead. intros Hr.
  raise_step Hr; [left; eapply lsize_Raise_primitive; eauto|].
  raise_step Hr; [left; eapply lsizes_Raise_primitive; eauto|].
  destruct (index _ _) as [x|].
  - destruct (x =? 0); [discriminate|]. injection Hr as <-. auto.
  - injection Hr as <-. left. exact I.
Qed.

(** ** C2: the page marker *)

Lemma page_Raise_cases (data : list byte) (pos size : Z) (e : exn) :
  page data pos size = Raise e ->
  primitive e \/ e = NameError "ck" \/
  (e = error PageMagicMismatch /\
   exists m pos', bsize data pos = Ok (m, pos') /\ m <> PAGE_MAGIC).
Proof.
  unfold page. intros Hr.
  apply bind_Raise_inv in Hr as [Hr | ([m p] & Hb & Hr)].
  { left. eapply bsize_Raise_primitive; eauto. }
  cbv beta iota zeta in Hr.
  destruct (Z.eqb_spec m PAGE_MAGIC) as [Heq|Hne].
  - raise_step Hr; [|discriminate].
    apply phead_Raise_cases in Hr as [Hp | ->]; auto.
  - injection Hr as <-. right; right. eauto.
Qed.

(** C2, as the code has it.  [page] reads the 4 bytes at the page start in
    network byte order, with [bsize], not little-endian: whenever they can
    be read, it fails with the page-magic error exactly when their
    big-endian value differs from 0x00000100. *)
Theorem page_magic_mismatch_iff (data : list byte) (pos size m pos' : Z) :
  bsize data pos = Ok (m, pos') ->
  page data pos size = Raise (error PageMagicMismatch) <-> m <> 256.
Proof.
  intros Hb. split.
  - intros Hr.
    apply page_Raise_cases in Hr as [Hp | [[=] | (_ & m' & p & Hb' & Hne)]].
    + destruct Hp.
    + rewrite Hb in Hb'. injection Hb' as <- <-. exact Hne.
  - intros Hne. unfold page. rewrite Hb. cbn [bind].
    destruct (Z.eqb_spec m PAGE_MAGIC); [contradiction|reflexivity].
Qed.

(** ** C3: the sentinel of the offset table *)

(** Whatever follows the marker, a page whose table of [n + 1] offsets
    ends with a nonzero entry makes [page] end with NameError: the sentinel
    error is never raised. *)
Lemma page_sentinel_NameError (data : list byte) (pos size p1 n p2 : Z)
    (xs : list Z) (x p3 : Z) :
  bsize data pos = Ok (PAGE_MAGIC, p1) ->
  lsize data p1 = Ok (n, p2) ->
  lsizes (Z.to_nat (n + 1)) data p2 = Ok (xs ++ [x], p3) ->
  x <> 0 ->
  page data pos size = Raise (NameError "ck").
Proof.
  intros Hb Hn Hxs Hx. unfold page. rewrite Hb. cbn [bind].
  change (PAGE_MAGIC =? PAGE_MAGIC) with true. cbv iota.
  unfold phead. rewrite Hn. cbn [bind]. rewrite Hxs. cbn [bind].
  rewrite index_last. destruct (Z.eqb_spec x 0); [contradiction|reflexivity].
Qed.

Lemma page_never_SentinelViolation (data : list byte) (pos size : Z) :
  page data pos size <> Raise (error SentinelViolation).
Proof.
  intros Hr. apply page_Raise_cases in Hr as [Hp | [[=] | ([=] & _)]].
  destruct Hp.
Qed.

(** ** C6: an expected size of 0 *)

Section SizeZero.
Context `{Platform}.

(** C6, as the code has it.  An expected size of 0 stands for the length
    of the whole buffer, [len(data)], wherever decoding starts: [cookie]
    and [page] called with size 0 at any offset do what they do when
    called with the buffer's length as the size. *)
Theorem size_zero_is_buffer_length (data : list byte) (pos : Z) :
  cookie data pos 0 = cookie data pos (len data) /\
  page data pos 0 = page data pos (len data).
Proof.
  split.
  - unfold cookie. change (0 =? 0) with true. cbv iota.
    destruct (Z.eqb_spec (len data) 0) as [->|_]; reflexivity.
  - unfold page. change (0 =? 0) with true. cbv iota.
    destruct (Z.eqb_spec (len data) 0) as [->|_]; reflexivity.
Qed.

End SizeZero.

(** ** Integers in 4 bytes *)

Lemma byte_to_Z_range (b : byte) : 0 <= byte_to_Z b < 256.
Proof.
  unfold byte_to_Z. pose proof (Strings.Byte.to_N_bounded b). lia.
Qed.

Lemma byte_to_of_Z (z : Z) : byte_to_Z (byte_of_Z z) = z mod 256.
Proof.
  unfold byte_to_Z, byte_of_Z.
  pose proof (Z.mod_pos_bound z 256 ltac:(lia)) as Hr.
  destruct (Strings.Byte.of_N (Z.to_N (z mod 256))) as [b|] eqn:Hb.
  - apply Strings.Byte.to_of_N in Hb. rewrite Hb. lia.
  - apply Strings.Byte.of_N_None_iff in Hb. lia.
Qed.

Lemma byte_of_to_Z (b : byte) : byte_of_Z (byte_to_Z b) = b.
Proof.
  unfold byte_of_Z. pose proof (byte_to_Z_range b) as Hr.
  rewrite Z.mod_small by lia. unfold byte_to_Z. rewrite N2Z.id.
  rewrite Strings.Byte.of_to_N. reflexivity.
Qed.

Lemma length_le_bytes (n : nat) (z : Z) : length (le_bytes n z) = n.
Proof. revert z. induction n; simpl; intros; [|rewrite IHn]; reflexivity. Qed.

Lemma len_le_bytes (n : nat) (z : Z) : len (le_bytes n z) = Z.of_nat n.
Proof. unfold len. rewrite length_le_bytes. reflexivity. Qed.

Lemma le_value_le_bytes (n : nat) (z : Z) :
  le_value (le_bytes n z) = z mod 256 ^ Z.of_nat n.
Proof.
  revert z. induction n as [|n IH]; intros z.
  - simpl. rewrite Z.mod_1_r. reflexivity.
  - cbn [le_bytes le_value]. rewrite IH, byte_to_of_Z.
    rewrite Nat2Z.inj_succ, Z.pow_succ_r by lia.
    rewrite Z.rem_mul_r by lia. reflexivity.
Qed.

Lemma le_value_le_bytes_4 (z : Z) :
  0 <= z <= 4294967295 -> le_value (le_bytes 4 z) = z.
Proof.
  intros Hz. rewrite le_value_le_bytes. apply Z.mod_small.
  change (256 ^ Z.of_nat 4) with 4294967296. lia.
Qed.

Lemma lsize_at (pre post : list byte) (z : Z) :
  0 <= z <= 4294967295 ->
  lsize (pre ++ le_bytes 4 z ++ post) (len pre) = Ok (z, len pre + 4).
Proof.
  intros Hz. unfold lsize.
  rewrite bytes_inside
    by (rewrite !len_app, len_le_bytes; pose proof (len_nonneg post); lia).
  cbn [bind].
  change 4 with (len (le_bytes 4 z)) at 1. rewrite slice_app_middle.
  unfold unpack_lt_I. rewrite length_le_bytes. cbn [Nat.eqb bind].
  rewrite le_value_le_bytes_4 by assumption. reflexivity.
Qed.

Lemma bsize_at (pre post : list byte) (z : Z) :
  0 <= z <= 4294967295 ->
  bsize (pre ++ rev (le_bytes 4 z) ++ post) (len pre) = Ok (z, len pre + 4).
Proof.
  intros Hz. unfold bsize.
  assert (Hl : len (rev (le_bytes 4 z)) = 4)
    by (unfold len; rewrite length_rev, length_le_bytes; reflexivity).
  rewrite bytes_inside by (rewrite !len_app, Hl; pose proof (len_nonneg post); lia).
  cbn [bind].
  rewrite <- Hl at 1. rewrite slice_app_middle.
  unfold unpack_gt_I. rewrite length_rev, length_le_bytes. cbn [Nat.eqb bind].
  rewrite rev_involutive, le_value_le_bytes_4 by assumption. reflexivity.
Qed.

Lemma len_table (xs : list Z) : len (table xs) = 4 * len xs.
Proof.
  unfold table. induction xs as [|x xs IH]; [reflexivity|].
  cbn [map concat]. rewrite len_app, len_le_bytes, IH, len_cons. lia.
Qed.

Lemma lsizes_at (pre post : list byte) (xs : list Z) :
  Forall (fun x => 0 <= x <= 4294967295) xs ->
  lsizes (length xs) (pre ++ table xs ++ post) (len pre)
  = Ok (xs, len pre + 4 * len xs).
Proof.
  intros Hxs. revert pre. induction Hxs as [|x xs Hx Hxs IH]; intros pre.
  - cbn [length lsizes]. f_equal. f_equal. change (len []) with 0. lia.
  - cbn [length lsizes]. unfold table. cbn [map concat]. fold (table xs).
    rewrite <- app_assoc. rewrite lsize_at by assumption. cbn [bind].
    specialize (IH (pre ++ le_bytes 4 x)).
    rewrite len_app, len_le_bytes in IH. rewrite <- !app_assoc in IH.
    change (Z.of_nat 4) with 4 in IH. rewrite IH. cbn [bind].
    rewrite len_cons. f_equal. f_equal. lia.
Qed.

(** ** Sorting *)

Lemma insert_sorted_perm (x : Z) (xs : list Z) :
  Permutation (insert_sorted x xs) (x :: xs).
Proof.
  induction xs as [|y ys IH]; simpl; [reflexivity|].
  destruct (x <=? y); [reflexivity|].
  rewrite IH. apply perm_swap.
Qed.

Lemma sort_perm (xs : list Z) : Permutation (sort xs) xs.
Proof.
  induction xs as [|x xs IH]; simpl; [reflexivity|].
  rewrite insert_sorted_perm. auto.
Qed.

Lemma insert_sorted_sorted (x : Z) (xs : list Z) :
  StronglySorted Z.le xs -> StronglySorted Z.le (insert_sorted x xs).
Proof.
  induction 1 as [|y ys Hs IH Hall]; simpl.
  - repeat constructor.
  - destruct (Z.leb_spec x y) as [Hle|Hgt].
    + constructor; [constructor; assumption|].
      constructor; [assumption|].
      eapply Forall_impl; [|exact Hall]. intros; lia.
    + constructor; [assumption|].
      eapply Permutation_Forall; [symmetry; apply insert_sorted_perm|].
      constructor; [lia|assumption].
Qed.

Lemma sort_sorted (xs : list Z) : StronglySorted Z.le (sort xs).
Proof.
  induction xs as [|x xs IH]; simpl; [constructor|].
  apply insert_sorted_sorted, IH.
Qed.

(** An ascending list has one arrangement only. *)
Lemma sorted_perm_unique (xs ys : list Z) :
  StronglySorted Z.le xs -> StronglySorted Z.le ys -> Permutation xs ys -> xs = ys.
Proof.
  intros Hxs. revert ys. induction Hxs as [|x xs Hxs IH Hx]; intros ys Hys Hp.
  - apply Permutation_nil in Hp. subst; reflexivity.
  - destruct Hys as [|y ys Hys Hy].
    + apply Permutation_sym, Permutation_nil in Hp. discriminate.
    + assert (x = y) as ->.
      { assert (Hin1 : In x (y :: ys)) by (eapply Permutation_in; [exact Hp|left; reflexivity]).
        assert (Hin2 : In y (x :: xs))
          by (eapply Permutation_in; [symmetry; exact Hp|left; reflexivity]).
        rewrite Forall_forall in Hx, Hy.
        destruct Hin1 as [->|Hin1]; [reflexivity|].
        destruct Hin2 as [->|Hin2]; [reflexivity|].
        specialize (Hx _ Hin2). specialize (Hy _ Hin1). lia. }
      f_equal. apply IH; [assumption|].
      eapply Permutation_cons_inv; eauto.
Qed.

Lemma sort_perm_eq (xs ys : list Z) : Permutation xs ys -> sort xs = sort ys.
Proof.
  intros Hp. apply sorted_perm_unique; try apply sort_sorted.
  rewrite !sort_perm. exact Hp.
Qed.

Lemma sorted_NoDup_strict (xs : list Z) :
  StronglySorted Z.le xs -> NoDup xs -> StronglySorted Z.lt xs.
Proof.
  induction 1 as [|x xs Hs IH Hall]; intros Hnd; [constructor|].
  inversion Hnd as [|? ? Hnotin Hnd']; subst.
  constructor; [auto|].
  rewrite Forall_forall in *. intros y Hy.
  specialize (Hall y Hy). assert (x <> y) by (intros ->; contradiction). lia.
Qed.

Lemma sorted_head_least (x : Z) (xs : list Z) (y : Z) :
  StronglySorted Z.le (x :: xs) -> In y (x :: xs) -> x <= y.
Proof.
  intros Hs Hin. inversion Hs as [|? ? _ Hall]; subst.
  destruct Hin as [->|Hin]; [lia|].
  rewrite Forall_forall in Hall. auto.
Qed.

Lemma last_default {A : Type} (xs : list A) (d d' : A) :
  xs <> [] -> last xs d = last xs d'.
Proof.
  induction xs as [|x xs IH]; [contradiction|]. intros _.
  destruct xs as [|x' xs']; [reflexivity|].
  change (last (x' :: xs') d = last (x' :: xs') d'). apply IH. discriminate.
Qed.

Lemma sorted_last_greatest (xs : list Z) (d y : Z) :
  StronglySorted Z.le xs -> In y xs -> y <= last xs d.
Proof.
  intros Hs. revert y. induction Hs as [|x xs Hs IH Hall]; intros y Hin.
  - contradiction.
  - destruct xs as [|x' xs'].
    + destruct Hin as [->|[]]. simpl. lia.
    + change (last (x :: x' :: xs') d) with (last (x' :: xs') d).
      destruct Hin as [<-|Hin]; [|auto].
      rewrite Forall_forall in Hall.
      specialize (Hall x' (or_introl eq_refl)).
      specialize (IH x' (or_introl eq_refl)). lia.
Qed.

Lemma last_In (xs : list Z) (d : Z) : xs <> [] -> In (last xs d) xs.
Proof.
  induction xs as [|x xs IH]; [contradiction|]. intros _.
  destruct xs as [|x' xs']; [left; reflexivity|].
  right. apply IH. discriminate.
Qed.

(** ** Ranges from sorted offsets *)

Lemma deltas_one (base x : Z) : deltas base [x] = [].
Proof. reflexivity. Qed.

Lemma deltas_cons (base x y : Z) (xs : list Z) :
  deltas base (x :: y :: xs) = (x + base, y - x) :: deltas base (y :: xs).
Proof.
  unfold deltas. cbn [length Nat.sub]. rewrite Nat.sub_0_r.
  cbn [seq map nth]. f_equal.
  rewrite <- seq_shift, map_map.
  apply map_ext_in. intros i _. reflexivity.
Qed.

Lemma deltas_length (base : Z) (xs : list Z) :
  length (deltas base xs) = (length xs - 1)%nat.
Proof. unfold deltas. rewrite length_map, length_seq. reflexivity. Qed.

Lemma deltas_tiles (base x : Z) (xs : list Z) :
  StronglySorted Z.lt (x :: xs) ->
  tiles (base + x) (base + last (x :: xs) x) (deltas base (x :: xs)).
Proof.
  revert x. induction xs as [|y ys IH]; intros x Hs.
  - simpl. reflexivity.
  - rewrite deltas_cons. cbn [tiles].
    inversion Hs as [|? ? Hs' Hall]; subst.
    inversion Hall as [|? ? Hxy _]; subst.
    split; [lia|]. split; [lia|].
    replace (base + x + (y - x)) with (base + y) by lia.
    change (last (x :: y :: ys) x) with (last (y :: ys) x).
    rewrite (last_default (y :: ys) x y) by discriminate.
    apply IH. assumption.
Qed.

(** ** C5: the ranges of a page *)

Lemma table_app (xs ys : list Z) : table (xs ++ ys) = table xs ++ table ys.
Proof. unfold table. rewrite map_app, concat_app. reflexivity. Qed.

Lemma set_last_snoc (xs : list Z) (x v : Z) : set_last (xs ++ [x]) v = xs ++ [v].
Proof. unfold set_last. rewrite removelast_last. reflexivity. Qed.

(** What [page] returns on a header followed by anything. *)
Lemma page_at (pre rest : list byte) (offs : list Z) (size : Z) :
  len offs <= 4294967295 ->
  Forall (fun o => 0 <= o <= 4294967295) offs ->
  let data := pre ++ page_header offs ++ rest in
  page data (len pre) size =
  Ok (deltas (len pre) (sort (offs ++ [if size =? 0 then len data else size])),
      len pre + (12 + 4 * len offs)).
Proof.
  intros Hcount Hoffs data. subst data. unfold page, page_header.
  pose proof (len_nonneg offs) as Hk.
  rewrite <- !app_assoc.
  rewrite bsize_at by (unfold PAGE_MAGIC; lia). cbn [bind].
  change (PAGE_MAGIC =? PAGE_MAGIC) with true. cbv iota.
  set (magic := rev (le_bytes 4 PAGE_MAGIC)).
  assert (Hm : len (pre ++ magic) = len pre + 4).
  { rewrite len_app. unfold magic, len at 2.
    rewrite length_rev, length_le_bytes. reflexivity. }
  unfold phead.
  rewrite (app_assoc pre magic), <- Hm.
  rewrite lsize_at by lia. cbn [bind].
  set (count := le_bytes 4 (len offs)).
  assert (Hc : len ((pre ++ magic) ++ count) = len (pre ++ magic) + 4).
  { rewrite len_app. unfold count. rewrite len_le_bytes. reflexivity. }
  rewrite (app_assoc (pre ++ magic) count), <- Hc.
  change (le_bytes 4 0) with (table [0]).
  rewrite (app_assoc (table offs)), <- table_app.
  replace (Z.to_nat (len offs + 1)) with (length (offs ++ [0]))
    by (rewrite length_app; unfold len; simpl; lia).
  rewrite lsizes_at
    by (apply Forall_app; split; [assumption|repeat constructor; lia]).
  cbn [bind]. rewrite index_last. change (0 =? 0) with true. cbv iota.
  cbn [bind]. rewrite set_last_snoc.
  f_equal. f_equal. rewrite Hc, Hm, len_app. change (len [0]) with 1. lia.
Qed.

Lemma sorted_snoc (xs : list Z) (v : Z) :
  StronglySorted Z.le xs -> Forall (fun x => x <= v) xs ->
  StronglySorted Z.le (xs ++ [v]).
Proof.
  induction 1 as [|x xs Hs IH Hall]; intros Hv; cbn [app].
  - repeat constructor.
  - inversion Hv; subst. constructor; [auto|].
    apply Forall_app. split; [assumption|repeat constructor; assumption].
Qed.

(** Sorting leaves an entry that is the greatest at the end. *)
Lemma sort_snoc_greatest (xs : list Z) (v : Z) :
  Forall (fun x => x <= v) xs -> sort (xs ++ [v]) = sort xs ++ [v].
Proof.
  intros Hv. apply sorted_perm_unique.
  - apply sort_sorted.
  - apply sorted_snoc; [apply sort_sorted|].
    eapply Permutation_Forall; [symmetry; apply sort_perm|exact Hv].
  - etransitivity; [apply sort_perm|].
    apply Permutation_app_tail. symmetry. apply sort_perm.
Qed.

Lemma deltas_nth (base : Z) (xs : list Z) (i : nat) :
  (S i < length xs)%nat ->
  nth i (deltas base xs) (0, 0) = (nth i xs 0 + base, nth (S i) xs 0 - nth i xs 0).
Proof.
  intros Hi. unfold deltas.
  set (f := fun i => (nth i xs 0 + base, nth (S i) xs 0 - nth i xs 0)).
  rewrite (nth_indep _ (0, 0) (f 0%nat)) by (rewrite length_map, length_seq; lia).
  rewrite map_nth, seq_nth by lia. reflexivity.
Qed.

(** C5.  For every well-formed page declaring [k] records, at any place in
    a buffer and with the record offsets in any order in its header, [page]
    returns exactly [k] ranges, derived from the declared offsets sorted
    ascending: range [i] starts at the [i]-th smallest offset, anchored at
    the page base, and its length is the delta to the next offset, for the
    last one to the size of the page.  So the ranges tile the interval from
    the end of the page header to the end of the page, each starting where
    the one before ends, and they are the same ranges for every reordering
    of the offsets in the header. *)
Theorem page_ranges_partition (pre rest : list byte) (offs : list Z) (size : Z) :
  well_formed_page offs size ->
  let base := len pre in
  let header_end := 12 + 4 * len offs in
  exists cs xs,
    page (pre ++ page_header offs ++ rest) base size = Ok (cs, base + header_end) /\
    len cs = len offs /\
    Permutation xs offs /\ StronglySorted Z.lt xs /\
    (forall i, (i < length offs)%nat ->
       nth i cs (0, 0)
       = (base + nth i xs 0, nth (S i) (xs ++ [size]) 0 - nth i xs 0)) /\
    tiles (base + header_end) (base + size) cs /\
    forall offs', Permutation offs offs' ->
      page (pre ++ page_header offs' ++ rest) base size = Ok (cs, base + header_end).
Proof.
  intros [Hcount Hsize Hdistinct Hinside Hfirst Hempty] base header_end.
  pose proof (len_nonneg offs) as Hk.
  assert (Hrange : Forall (fun o => 0 <= o <= 4294967295) offs).
  { eapply Forall_impl; [|exact Hinside]. cbv beta. intros; lia. }
  assert (Hsize0 : size <> 0).
  { destruct offs as [|o offs]; [rewrite Hempty by reflexivity; lia|].
    inversion Hinside; subst. lia. }
  assert (Hcase : (if size =? 0
                   then len (pre ++ page_header offs ++ rest) else size) = size)
    by (destruct (Z.eqb_spec size 0); [contradiction|reflexivity]).
  set (ys := sort (offs ++ [size])).
  assert (Hys : ys = sort offs ++ [size]).
  { apply sort_snoc_greatest. eapply Forall_impl; [|exact Hinside].
    cbv beta. intros; lia. }
  assert (Hslen : length (sort offs) = length offs)
    by (apply Permutation_length, sort_perm).
  exists (deltas base ys), (sort offs).
  split; [|split; [|split; [|split; [|split; [|split]]]]].
  - unfold base, header_end. rewrite page_at, Hcase by assumption. reflexivity.
  - unfold len. rewrite deltas_length. unfold ys.
    rewrite (Permutation_length (sort_perm _)), length_app. simpl. lia.
  - apply sort_perm.
  - apply sorted_NoDup_strict; [apply sort_sorted|].
    eapply Permutation_NoDup; [symmetry; apply sort_perm|assumption].
  - intros i Hi. rewrite deltas_nth by (rewrite Hys, length_app; simpl; lia).
    rewrite <- Hys. f_equal; [|f_equal].
    + rewrite Hys, app_nth1 by lia. lia.
    + rewrite Hys, app_nth1 by lia. reflexivity.
  - assert (Hperm : Permutation ys (offs ++ [size])) by apply sort_perm.
    assert (Hsorted : StronglySorted Z.le ys) by apply sort_sorted.
    assert (Hnodup : NoDup ys).
    { eapply Permutation_NoDup; [symmetry; exact Hperm|].
      apply NoDup_app; [assumption|repeat constructor; simpl; tauto|].
      intros o Ho [<-|[]]. rewrite Forall_forall in Hinside.
      specialize (Hinside _ Ho). lia. }
    assert (Hlow : forall y, In y ys -> header_end <= y <= size).
    { intros y Hy. eapply Permutation_in in Hy; [|exact Hperm].
      apply in_app_or in Hy as [Hy|[<-|[]]].
      - rewrite Forall_forall in Hinside. specialize (Hinside _ Hy).
        unfold header_end. lia.
      - destruct offs as [|o offs].
        + rewrite Hempty by reflexivity. unfold header_end. simpl. lia.
        + inversion Hinside; subst. unfold header_end. lia. }
    assert (Hhas_lo : In header_end ys).
    { eapply Permutation_in; [symmetry; exact Hperm|]. apply in_or_app.
      destruct offs as [|o offs].
      - right. left. rewrite Hempty by reflexivity. reflexivity.
      - left. apply Hfirst. discriminate. }
    assert (Hhas_hi : In size ys).
    { eapply Permutation_in; [symmetry; exact Hperm|].
      apply in_or_app. right. left. reflexivity. }
    clear Hys.
    destruct ys as [|y ys'] eqn:Hys; [contradiction|].
    assert (y = header_end) as ->.
    { pose proof (sorted_head_least _ _ _ Hsorted Hhas_lo).
      specialize (Hlow y (or_introl eq_refl)). lia. }
    assert (Hlast : last (header_end :: ys') header_end = size).
    { pose proof (sorted_last_greatest _ header_end _ Hsorted Hhas_hi).
      assert (Hin : In (last (header_end :: ys') header_end) (header_end :: ys'))
        by (apply last_In; discriminate).
      specialize (Hlow _ Hin). lia. }
    rewrite <- Hlast at 1.
    apply deltas_tiles, sorted_NoDup_strict; assumption.
  - intros offs' Hp.
    assert (Hlen : len offs' = len offs)
      by (unfold len; rewrite (Permutation_length Hp); reflexivity).
    unfold base, header_end. rewrite <- Hlen.
    rewrite page_at.
    + destruct (Z.eqb_spec size 0); [contradiction|].
      unfold ys. f_equal. f_equal. f_equal. apply sort_perm_eq.
      apply Permutation_app_tail. symmetry. exact Hp.
    + lia.
    + eapply Permutation_Forall; eauto.
Qed.

(** ** Zero-terminated strings *)

Lemma byte_eqb_eq (a b : byte) : Strings.Byte.eqb a b = true <-> a = b.
Proof.
  split; [apply Strings.Byte.byte_dec_bl | apply Strings.Byte.byte_dec_lb].
Qed.

Lemma byte_eqb_neq (a b : byte) : Strings.Byte.eqb a b = false <-> a <> b.
Proof.
  split.
  - intros Hf Heq. apply byte_eqb_eq in Heq. congruence.
  - intros Hne. destruct (Strings.Byte.eqb a b) eqn:He; [|reflexivity].
    apply byte_eqb_eq in He. contradiction.
Qed.

Lemma u_zstr_Ok (s : list byte) : nozero s -> u_zstr s = Ok (s ++ [x00]).
Proof.
  intros Hs. unfold u_zstr.
  destruct (existsb (Strings.Byte.eqb x00) s) eqn:He; [|reflexivity].
  apply existsb_exists in He as (b & Hin & Hb).
  apply byte_eqb_eq in Hb. subst b. contradiction.
Qed.

Lemma u_zstr_Ok_inv (s v : list byte) :
  u_zstr s = Ok v -> nozero s /\ v = s ++ [x00].
Proof.
  unfold u_zstr. destruct (existsb (Strings.Byte.eqb x00) s) eqn:He; [discriminate|].
  intros [= <-]. split; [|reflexivity].
  intros Hin. assert (Ht : existsb (Strings.Byte.eqb x00) s = true).
  { apply existsb_exists. exists x00. split; [assumption|]. apply byte_eqb_eq. reflexivity. }
  congruence.
Qed.

Lemma zstr_scan_at (rounds : nat) (pre s post : list byte) :
  nozero s -> (length s < rounds)%nat ->
  zstr_scan rounds (pre ++ s ++ x00 :: post) (len pre) = Ok (len pre + len s).
Proof.
  revert rounds pre. induction s as [|b s IH]; intros rounds pre Hs Hr.
  - destruct rounds as [|rounds]; [simpl in Hr; lia|]. cbn [zstr_scan app].
    pose proof (len_nonneg pre). pose proof (len_nonneg post).
    destruct (Z.ltb_spec (len pre) (len (pre ++ x00 :: post))) as [_|Hge];
      [|rewrite len_app, len_cons in Hge; lia].
    rewrite index_inside by assumption.
    replace (Z.to_nat (len pre)) with (length pre) by (unfold len; lia).
    rewrite nth_error_app2, Nat.sub_diag by apply Nat.le_refl.
    cbn [nth_error]. rewrite (proj2 (byte_eqb_eq x00 x00) eq_refl).
    change (len []) with 0. f_equal. lia.
  - destruct rounds as [|rounds]; [simpl in Hr; lia|]. cbn [zstr_scan].
    pose proof (len_nonneg pre). pose proof (len_nonneg post). pose proof (len_nonneg s).
    destruct (Z.ltb_spec (len pre) (len (pre ++ (b :: s) ++ x00 :: post))) as [_|Hge];
      [|rewrite !len_app, !len_cons in Hge; lia].
    rewrite index_inside by assumption.
    replace (Z.to_nat (len pre)) with (length pre) by (unfold len; lia).
    rewrite nth_error_app2, Nat.sub_diag by apply Nat.le_refl.
    cbn [nth_error app].
    assert (Hb : Strings.Byte.eqb b x00 = false).
    { apply byte_eqb_neq. intros ->. apply Hs. left. reflexivity. }
    rewrite Hb.
    specialize (IH rounds (pre ++ [b])).
    rewrite len_app in IH. change (len [b]) with 1 in IH.
    rewrite <- app_assoc in IH. cbn [app] in IH.
    rewrite IH.
    + rewrite len_cons. f_equal. lia.
    + intros Hin. apply Hs. right. assumption.
    + simpl in Hr. lia.
Qed.

Lemma zstr_at (pre s post : list byte) :
  nozero s -> zstr (pre ++ s ++ x00 :: post) (len pre) = Ok s.
Proof.
  intros Hs. unfold zstr. rewrite zstr_scan_at; [|assumption|].
  - cbn [bind]. f_equal. apply (slice_app_middle pre s (x00 :: post)).
  - unfold len. rewrite !length_app. cbn [length]. lia.
Qed.

(** ** The packet of a cookie *)

Lemma u_lsize_Ok (v : Z) : 0 <= v <= 4294967295 -> u_lsize v = Ok (le_bytes 4 v).
Proof.
  intros Hv. unfold u_lsize, pack_lt_I.
  destruct (Z.ltb_spec v 0); [lia|].
  destruct (Z.leb_spec 0 v); [|lia].
  destruct (Z.leb_spec v 4294967295); [|lia]. reflexivity.
Qed.

Lemma u_lsize_Ok_inv (v : Z) (b : list byte) :
  u_lsize v = Ok b -> 0 <= v <= 4294967295 /\ b = le_bytes 4 v.
Proof.
  unfold u_lsize, pack_lt_I.
  destruct (Z.ltb_spec v 0); [discriminate|].
  destruct (Z.leb_spec 0 v); [|discriminate].
  destruct (Z.leb_spec v 4294967295); [|discriminate].
  intros [= <-]. split; [lia|reflexivity].
Qed.

Section Packet.
Context `{Platform}.

Lemma u_dstamp_length (t : stamp) (b : list byte) :
  u_dstamp t = Ok b -> length b = 8%nat.
Proof.
  destruct t as [n|x|d]; simpl.
  - destruct (_ && _); [|discriminate].
    destruct (float_of_int _); simpl; [|discriminate].
    intros [= <-]. apply pack_lt_d_length.
  - intros [= <-]. apply pack_lt_d_length.
  - destruct (mktime_timetuple _); simpl; [|discriminate].
    intros [= <-]. apply pack_lt_d_length.
Qed.

Lemma len_snoc (s : list byte) : len (s ++ [x00]) = len s + 1.
Proof. rewrite len_app. reflexivity. Qed.

Lemma u_cookie_Ok (r : CookieRecord) (exp cre : list byte) :
  nozero_fields r ->
  encoded_size r <= 4294967295 ->
  u_dstamp (Expires r) = Ok exp ->
  u_dstamp (Created r) = Ok cre ->
  u_cookie r = Ok (packet r exp cre).
Proof.
  intros (Hd & Hn & Hp & Hv) Hsize Hexp Hcre.
  unfold encoded_size in Hsize.
  pose proof (len_nonneg (Domain r)). pose proof (len_nonneg (Name r)).
  pose proof (len_nonneg (Path r)). pose proof (len_nonneg (Value r)).
  unfold u_cookie.
  rewrite !u_zstr_Ok by assumption. cbn [bind].
  rewrite !len_snoc.
  change (4 + 12 + 4 * 4 + 8 + 8 * 2) with 56.
  rewrite !u_lsize_Ok by lia. cbn [bind].
  change (u_bytes [x00] 12) with (Ok (repeat x00 12)).
  change (u_bytes [x00] 8) with (Ok (repeat x00 8)). cbn [bind].
  rewrite Hexp, Hcre. cbn [bind].
  unfold packet, encoded_size. cbn [concat]. rewrite app_nil_r. reflexivity.
Qed.

Lemma u_cookie_Ok_inv (r : CookieRecord) (pkt : list byte) :
  u_cookie r = Ok pkt ->
  nozero_fields r /\ encoded_size r <= 4294967295 /\
  exists exp cre,
    u_dstamp (Expires r) = Ok exp /\ u_dstamp (Created r) = Ok cre /\
    pkt = packet r exp cre.
Proof.
  intros Hu. pose proof Hu as Hu'. unfold u_cookie in Hu'.
  apply bind_Ok_inv in Hu' as (host & Hhost & Hu').
  apply bind_Ok_inv in Hu' as (name & Hname & Hu').
  apply bind_Ok_inv in Hu' as (path & Hpath & Hu').
  apply bind_Ok_inv in Hu' as (val & Hval & Hu').
  apply u_zstr_Ok_inv in Hhost as [Hd ->]. apply u_zstr_Ok_inv in Hname as [Hn ->].
  apply u_zstr_Ok_inv in Hpath as [Hp ->]. apply u_zstr_Ok_inv in Hval as [Hv ->].
  apply bind_Ok_inv in Hu' as (f_size & Hsize & Hu').
  apply u_lsize_Ok_inv in Hsize as [Hsize _].
  rewrite !len_snoc in Hsize.
  do 6 (apply bind_Ok_inv in Hu' as (? & _ & Hu')).
  apply bind_Ok_inv in Hu' as (exp & Hexp & Hu').
  apply bind_Ok_inv in Hu' as (cre & Hcre & _).
  assert (Hfields : nozero_fields r) by (unfold nozero_fields; auto).
  assert (Hfit : encoded_size r <= 4294967295) by (unfold encoded_size; lia).
  split; [assumption|]. split; [assumption|].
  exists exp, cre. split; [assumption|]. split; [assumption|].
  rewrite (u_cookie_Ok r exp cre) in Hu by assumption. congruence.
Qed.

Lemma len_repeat (b : byte) (n : nat) : len (repeat b n) = Z.of_nat n.
Proof. unfold len. rewrite repeat_length. reflexivity. Qed.

Lemma len_packet (r : CookieRecord) (exp cre : list byte) :
  length exp = 8%nat -> length cre = 8%nat ->
  len (packet r exp cre) = encoded_size r.
Proof.
  intros He Hc. unfold packet, encoded_size.
  rewrite !len_app, !len_le_bytes, !len_repeat.
  unfold len at 1 2. rewrite He, Hc. change (len [x00]) with 1. lia.
Qed.

End Packet.

(** ** Reading a field inside a buffer *)

Lemma bytes_in (data pre v post : list byte) (off n off' : Z) :
  data = pre ++ v ++ post -> len pre = off -> len v = n -> off' = off + n ->
  bytes data off n = Ok (v, off').
Proof.
  intros -> <- <- ->. rewrite bytes_inside.
  - rewrite slice_app_middle. reflexivity.
  - rewrite !len_app. pose proof (len_nonneg post). lia.
Qed.

Lemma lsize_in (data pre post : list byte) (z off off' : Z) :
  data = pre ++ le_bytes 4 z ++ post -> len pre = off -> off' = off + 4 ->
  0 <= z <= 4294967295 ->
  lsize data off = Ok (z, off').
Proof. intros -> <- -> Hz. apply lsize_at. assumption. Qed.

Lemma zstr_in (data pre s post : list byte) (off : Z) :
  data = pre ++ s ++ x00 :: post -> len pre = off -> nozero s ->
  zstr data off = Ok s.
Proof. intros -> <- Hs. apply zstr_at. assumption. Qed.

(** The side conditions of the three lemmas above, for a buffer given as a
    concatenation of its fields. *)
Ltac field_side Hdata :=
  solve [ exact Hdata
        | rewrite <- ?app_assoc; exact Hdata
        | reflexivity
        | assumption
        | rewrite ?len_app; change (len [x00]) with 1; lia ].

Section Decode.
Context `{Platform}.

Lemma dstamp_in (data pre b post : list byte) (off off' : Z) :
  data = pre ++ b ++ post -> len pre = off -> length b = 8%nat -> off' = off + 8 ->
  dstamp data off = ('(dt, _) <- dstamp b 0 ;; Ok (dt, off')).
Proof.
  intros Hdata Hpre Hb ->.
  assert (Hlen : len b = 8) by (unfold len; rewrite Hb; reflexivity).
  unfold dstamp.
  rewrite (bytes_in data pre b post off 8 (off + 8)) by auto.
  rewrite (bytes_in b [] b [] 0 8 8)
    by (auto; rewrite app_nil_r; reflexivity).
  cbn [bind].
  destruct (struct_unpack_lt_d b) as [sec|e]; cbn [bind]; [|reflexivity].
  destruct (or_raise _ _) as [dt|e]; reflexivity.
Qed.

(** Decoding a packet: the four strings come back as they are, each
    timestamp as [dstamp] reads its 8 bytes. *)
Lemma cookie_packet (r : CookieRecord) (exp cre : list byte) :
  nozero_fields r ->
  encoded_size r <= 4294967295 ->
  length exp = 8%nat -> length cre = 8%nat ->
  cookie (packet r exp cre) 0 0 =
  ('(e, _) <- dstamp exp 0 ;;
   '(c, _) <- dstamp cre 0 ;;
   Ok {| Domain := Domain r; Name := Name r; Path := Path r; Value := Value r;
         Created := Datetime c; Expires := Datetime e |}).
Proof.
  intros (Hd & Hn & Hp & Hv) Hsize Hexp Hcre.
  pose proof (len_packet r exp cre Hexp Hcre) as Hlen.
  assert (Hlexp : len exp = 8) by (unfold len; rewrite Hexp; reflexivity).
  assert (Hlcre : len cre = 8) by (unfold len; rewrite Hcre; reflexivity).
  unfold encoded_size in Hsize.
  pose proof (len_nonneg (Domain r)). pose proof (len_nonneg (Name r)).
  pose proof (len_nonneg (Path r)). pose proof (len_nonneg (Value r)).
  set (pkt := packet r exp cre) in *.
  assert (Hpkt : pkt = packet r exp cre) by reflexivity.
  unfold packet in Hpkt.
  set (f_size := le_bytes 4 (encoded_size r)) in Hpkt.
  set (pad12 := repeat x00 12) in Hpkt.
  set (f_host := le_bytes 4 56) in Hpkt.
  set (f_name := le_bytes 4 (56 + (len (Domain r) + 1))) in Hpkt.
  set (f_path := le_bytes 4 (56 + (len (Domain r) + 1) + (len (Name r) + 1))) in Hpkt.
  set (f_val := le_bytes 4 (56 + (len (Domain r) + 1) + (len (Name r) + 1)
                               + (len (Path r) + 1))) in Hpkt.
  set (pad8 := repeat x00 8) in Hpkt.
  rewrite <- !app_assoc in Hpkt.
  assert (L0 : len f_size = 4) by apply len_le_bytes.
  assert (L1 : len pad12 = 12) by apply len_repeat.
  assert (L2 : len f_host = 4) by apply len_le_bytes.
  assert (L3 : len f_name = 4) by apply len_le_bytes.
  assert (L4 : len f_path = 4) by apply len_le_bytes.
  assert (L5 : len f_val = 4) by apply len_le_bytes.
  assert (L6 : len pad8 = 8) by apply len_repeat.
  unfold cookie.
  (* the size field and the size check *)
  rewrite (lsize_in pkt [] _ (encoded_size r) 0 4 Hpkt)
    by (try reflexivity; unfold encoded_size; lia).
  cbn [bind]. change (0 =? 0) with true. cbv iota.
  rewrite Hlen, Z.eqb_refl.
  (* the padding and the four offsets *)
  rewrite (bytes_in pkt f_size pad12 _ 4 12 16 Hpkt) by (auto; lia).
  cbn [bind].
  rewrite (lsize_in pkt (f_size ++ pad12) _ 56 16 20)
    by field_side Hpkt.
  cbn [bind].
  rewrite (lsize_in pkt (f_size ++ pad12 ++ f_host) _ _ 20 24)
    by field_side Hpkt.
  cbn [bind].
  rewrite (lsize_in pkt (f_size ++ pad12 ++ f_host ++ f_name) _ _ 24 28)
    by field_side Hpkt.
  cbn [bind].
  rewrite (lsize_in pkt (f_size ++ pad12 ++ f_host ++ f_name ++ f_path) _ _ 28 32)
    by field_side Hpkt.
  cbn [bind].
  rewrite (bytes_in pkt (f_size ++ pad12 ++ f_host ++ f_name ++ f_path ++ f_val)
             pad8 _ 32 8 40)
    by field_side Hpkt.
  cbn [bind].
  (* the two timestamps *)
  rewrite (dstamp_in pkt
             (f_size ++ pad12 ++ f_host ++ f_name ++ f_path ++ f_val ++ pad8)
             exp _ 40 48)
    by field_side Hpkt.
  destruct (dstamp exp 0) as [[e pe]|err]; cbn [bind]; [|reflexivity].
  rewrite (dstamp_in pkt
             (f_size ++ pad12 ++ f_host ++ f_name ++ f_path ++ f_val ++ pad8 ++ exp)
             cre _ 48 56)
    by field_side Hpkt.
  destruct (dstamp cre 0) as [[c pc]|err]; cbn [bind]; [|reflexivity].
  (* the four strings *)
  rewrite (zstr_in pkt
             (f_size ++ pad12 ++ f_host ++ f_name ++ f_path ++ f_val ++ pad8
                     ++ exp ++ cre)
             (Domain r) _ (56 + 0))
    by field_side Hpkt.
  cbn [bind].
  rewrite (zstr_in pkt
             (f_size ++ pad12 ++ f_host ++ f_name ++ f_path ++ f_val ++ pad8
                     ++ exp ++ cre ++ Domain r ++ [x00])
             (Name r) _ (56 + (len (Domain r) + 1) + 0))
    by field_side Hpkt.
  cbn [bind].
  rewrite (zstr_in pkt
             (f_size ++ pad12 ++ f_host ++ f_name ++ f_path ++ f_val ++ pad8
                     ++ exp ++ cre ++ (Domain r ++ [x00]) ++ Name r ++ [x00])
             (Path r) _ (56 + (len (Domain r) + 1) + (len (Name r) + 1) + 0))
    by field_side Hpkt.
  cbn [bind].
  rewrite (zstr_in pkt
             (f_size ++ pad12 ++ f_host ++ f_name ++ f_path ++ f_val ++ pad8
                     ++ exp ++ cre ++ (Domain r ++ [x00]) ++ (Name r ++ [x00])
                     ++ Path r ++ [x00])
             (Value r) []
             (56 + (len (Domain r) + 1) + (len (Name r) + 1) + (len (Path r) + 1) + 0))
    by field_side Hpkt.
  reflexivity.
Qed.

End Decode.

(** ** C10 and C1: encoding a cookie and decoding it again *)

Section RoundTrip.
Context `{Platform}.

(** C10.  For every cookie whose four string fields hold no zero byte, the
    packet [u_cookie] produces is as long as its leading little-endian size
    field says, namely 56 plus the four string lengths, each counted with
    its terminator; and [u_cookie] does produce a packet whenever that size
    fits the 4-byte field and both timestamps can be packed. *)
Theorem u_cookie_size_field (r : CookieRecord) :
  nozero_fields r ->
  let size := 56 + (len (Domain r) + 1) + (len (Name r) + 1)
                 + (len (Path r) + 1) + (len (Value r) + 1) in
  (forall pkt, u_cookie r = Ok pkt ->
     len pkt = size /\ lsize pkt 0 = Ok (size, 4)) /\
  (size <= 4294967295 ->
   (exists exp, u_dstamp (Expires r) = Ok exp) ->
   (exists cre, u_dstamp (Created r) = Ok cre) ->
   exists pkt, u_cookie r = Ok pkt).
Proof.
  intros Hfields size. split.
  - intros pkt Hu.
    apply u_cookie_Ok_inv in Hu as (_ & Hfit & exp & cre & Hexp & Hcre & ->).
    split.
    + apply len_packet; eapply u_dstamp_length; eauto.
    + unfold packet. apply (lsize_at [] _ (encoded_size r)).
      unfold encoded_size in *.
      pose proof (len_nonneg (Domain r)). pose proof (len_nonneg (Name r)).
      pose proof (len_nonneg (Path r)). pose proof (len_nonneg (Value r)). lia.
  - intros Hfit [exp Hexp] [cre Hcre].
    exists (packet r exp cre). apply u_cookie_Ok; assumption.
Qed.

Lemma recode_Ok_inv (t e : stamp) :
  recode t = Ok e ->
  exists b dt p, u_dstamp t = Ok b /\ dstamp b 0 = Ok (dt, p) /\ e = Datetime dt.
Proof.
  unfold recode. intros Hr.
  apply bind_Ok_inv in Hr as (b & Hb & Hr).
  apply bind_Ok_inv in Hr as ([dt p] & Hd & Hr).
  injection Hr as <-. eauto 6.
Qed.

(** What [recode] is once the bytes of the timestamp are known. *)
Lemma recode_packed (t : stamp) (b : list byte) :
  u_dstamp t = Ok b ->
  recode t = ('(dt, _) <- dstamp b 0 ;; Ok (Datetime dt)).
Proof. intros Hb. unfold recode. rewrite Hb. reflexivity. Qed.

(** C1, as the code has it.  For every cookie whose four string fields
    hold no zero byte and whose packet fits the 4-byte size field,
    [u_cookie] returns a packet exactly when [u_dstamp] packs both
    timestamps.  What [cookie], at start 0 with size 0, makes of such a
    packet depends on [dstamp] alone: the exception of [dstamp] where it
    rejects the bytes of [Expires] or, after them, those of [Created];
    otherwise the four strings as they were, with the two datetimes that
    [dstamp] reads.  The decoded record is the cookie itself exactly when
    each of its two timestamps comes back from [dstamp] after [u_dstamp]
    as it went in. *)
Theorem cookie_u_cookie (r : CookieRecord) :
  nozero_fields r ->
  encoded_size r <= 4294967295 ->
  ((exists pkt, u_cookie r = Ok pkt) <->
   (exists exp, u_dstamp (Expires r) = Ok exp) /\
   (exists cre, u_dstamp (Created r) = Ok cre)) /\
  forall pkt, u_cookie r = Ok pkt ->
    exists exp cre,
      u_dstamp (Expires r) = Ok exp /\ u_dstamp (Created r) = Ok cre /\
      cookie pkt 0 0 =
        ('(e, _) <- dstamp exp 0 ;;
         '(c, _) <- dstamp cre 0 ;;
         Ok {| Domain := Domain r; Name := Name r; Path := Path r;
               Value := Value r; Created := Datetime c; Expires := Datetime e |}) /\
      (cookie pkt 0 0 = Ok r <->
       recode (Expires r) = Ok (Expires r) /\ recode (Created r) = Ok (Created r)).
Proof.
  intros Hfields Hfit. split.
  - split.
    + intros [pkt Hu].
      apply u_cookie_Ok_inv in Hu as (_ & _ & exp & cre & Hexp & Hcre & _). eauto.
    + intros [[exp Hexp] [cre Hcre]]. exists (packet r exp cre).
      apply u_cookie_Ok; assumption.
  - intros pkt Hu.
    apply u_cookie_Ok_inv in Hu as (_ & _ & exp & cre & Hexp & Hcre & ->).
    exists exp, cre. split; [assumption|]. split; [assumption|].
    assert (Hrun : cookie (packet r exp cre) 0 0 =
                   ('(e, _) <- dstamp exp 0 ;;
                    '(c, _) <- dstamp cre 0 ;;
                    Ok {| Domain := Domain r; Name := Name r; Path := Path r;
                          Value := Value r; Created := Datetime c;
                          Expires := Datetime e |}))
      by (apply cookie_packet; try assumption; eapply u_dstamp_length; eassumption).
    split; [exact Hrun|].
    rewrite Hrun, (recode_packed _ _ Hexp), (recode_packed _ _ Hcre).
    destruct (dstamp exp 0) as [[e pe]|err]; cbn [bind];
      [|split; [discriminate|intros [Habs _]; discriminate]].
    destruct (dstamp cre 0) as [[c pc]|err]; cbn [bind];
      [|split; [discriminate|intros [_ Habs]; discriminate]].
    split.
    + intros Hr. injection Hr as Hr. rewrite <- Hr. cbn [Expires Created]. auto.
    + intros [He Hc]. injection He as He. injection Hc as Hc.
      rewrite He, Hc. destruct r; reflexivity.
Qed.

End RoundTrip.

(** ** What [zstr] returns *)

Lemma upto0_prefix (l : list byte) : firstn (length (upto0 l)) l = upto0 l.
Proof.
  induction l as [|c l IH]; [reflexivity|]. simpl.
  destruct (Strings.Byte.eqb c x00); [reflexivity|]. simpl. rewrite IH. reflexivity.
Qed.

Lemma upto0_length (l : list byte) : (length (upto0 l) <= length l)%nat.
Proof.
  induction l as [|c l IH]; [apply Nat.le_refl|]. simpl.
  destruct (Strings.Byte.eqb c x00); simpl; lia.
Qed.

Lemma upto0_app (l post : list byte) : In x00 l -> upto0 (l ++ post) = upto0 l.
Proof.
  induction l as [|c l IH]; [contradiction|]. intros Hin. simpl.
  destruct (Strings.Byte.eqb c x00) eqn:Hc; [reflexivity|].
  f_equal. apply IH. destruct Hin as [->|Hin]; [|assumption].
  apply byte_eqb_neq in Hc. contradiction.
Qed.

Lemma skipn_nth_error {A : Type} (l : list A) (n : nat) (c : A) :
  nth_error l n = Some c -> skipn n l = c :: skipn (S n) l.
Proof.
  revert l. induction n as [|n IH]; intros [|x l] Hn; try discriminate.
  - injection Hn as ->. reflexivity.
  - simpl in Hn. apply IH in Hn. exact Hn.
Qed.

(** The loop of [zstr] stops at the first zero byte at or after [pos], or
    at the end of the buffer: the rounds it is given are enough. *)
Lemma zstr_scan_spec (rounds : nat) (data : list byte) (pos : Z) :
  0 <= pos -> len data - pos <= Z.of_nat rounds ->
  zstr_scan rounds data pos
  = Ok (pos + len (upto0 (skipn (Z.to_nat pos) data))).
Proof.
  revert pos. induction rounds as [|rounds IH]; intros pos Hpos Hr.
  - cbn [zstr_scan]. rewrite skipn_all2 by (unfold len in Hr; lia).
    change (len (upto0 [])) with 0. f_equal. lia.
  - cbn [zstr_scan]. destruct (Z.ltb_spec pos (len data)) as [Hlt|Hge].
    + rewrite index_inside by assumption.
      destruct (nth_error data (Z.to_nat pos)) as [c|] eqn:Hc.
      * rewrite (skipn_nth_error _ _ _ Hc). cbn [upto0].
        destruct (Strings.Byte.eqb c x00).
        -- change (len []) with 0. f_equal. lia.
        -- rewrite IH by lia. rewrite len_cons.
           replace (Z.to_nat (pos + 1)) with (S (Z.to_nat pos)) by lia.
           f_equal. lia.
      * apply nth_error_None in Hc. unfold len in Hlt. lia.
    + rewrite skipn_all2 by (unfold len in Hge; lia).
      change (len (upto0 [])) with 0. f_equal. lia.
Qed.

Lemma zstr_spec (data : list byte) (pos : Z) :
  0 <= pos -> zstr data pos = Ok (upto0 (skipn (Z.to_nat pos) data)).
Proof.
  intros Hpos. unfold zstr. rewrite zstr_scan_spec by lia. cbn [bind]. f_equal.
  set (rest := skipn (Z.to_nat pos) data).
  pose proof (upto0_length rest) as Hle. pose proof (upto0_prefix rest) as Hpre.
  destruct (Z.le_gt_cases pos (len data)) as [Hin|Hout].
  - rewrite slice_inside.
    + replace (pos + len (upto0 rest) - pos) with (len (upto0 rest)) by lia.
      unfold len. rewrite Nat2Z.id. exact Hpre.
    + assumption.
    + pose proof (len_nonneg (upto0 rest)). lia.
    + pose proof (length_skipn (Z.to_nat pos) data) as Hs. fold rest in Hs.
      unfold len in *. lia.
  - assert (Hrest : rest = []) by (apply skipn_all2; unfold len in Hout; lia).
    rewrite Hrest. cbn [upto0]. change (len []) with 0.
    unfold slice, clip. pose proof (len_nonneg data).
    destruct (Z.ltb_spec pos 0); [lia|]. destruct (Z.ltb_spec (pos + 0) 0); [lia|].
    rewrite !Z.min_r by lia. rewrite Z.sub_diag. reflexivity.
Qed.

(** ** C9: a record inside its buffer and on its own *)

Lemma slice_shift {A : Type} (pre rec post : list A) (p q : Z) :
  0 <= p -> p <= q -> q <= len rec ->
  slice (pre ++ rec ++ post) (len pre + p) (len pre + q) = slice rec p q.
Proof.
  intros Hp Hpq Hq. pose proof (len_nonneg pre). pose proof (len_nonneg post).
  rewrite !slice_inside by (rewrite ?len_app; lia).
  replace (len pre + q - (len pre + p)) with (q - p) by lia.
  replace (Z.to_nat (len pre + p)) with (length pre + Z.to_nat p)%nat
    by (unfold len; lia).
  rewrite skipn_app, skipn_all2 by lia.
  replace (length pre + Z.to_nat p - length pre)%nat with (Z.to_nat p) by lia.
  rewrite skipn_app. cbn [app].
  replace (Z.to_nat p - length rec)%nat with 0%nat by (unfold len in Hq; lia).
  cbn [skipn]. rewrite firstn_app, length_skipn.
  replace (Z.to_nat (q - p) - (length rec - Z.to_nat p))%nat with 0%nat
    by (unfold len in Hq; lia).
  cbn [firstn]. apply app_nil_r.
Qed.

Lemma slice_decompose {A : Type} (data : list A) (i j : Z) :
  0 <= i -> i <= j -> j <= len data ->
  data = firstn (Z.to_nat i) data ++ slice data i j ++ skipn (Z.to_nat j) data /\
  len (firstn (Z.to_nat i) data) = i.
Proof.
  intros Hi Hij Hj. split.
  - rewrite slice_inside by assumption.
    rewrite <- (firstn_skipn (Z.to_nat i) data) at 1. f_equal.
    rewrite <- (firstn_skipn (Z.to_nat (j - i)) (skipn (Z.to_nat i) data)) at 1.
    f_equal. rewrite skipn_skipn. f_equal. lia.
  - unfold len in *. rewrite length_firstn. lia.
Qed.

Lemma bytes_shift (pre rec post : list byte) (p q n pos pos' : Z) :
  0 <= p -> 0 <= n -> q = p + n -> q <= len rec ->
  pos = len pre + p -> pos' = len pre + q ->
  bytes rec p n = Ok (slice rec p q, q) /\
  bytes (pre ++ rec ++ post) pos n = Ok (slice rec p q, pos').
Proof.
  intros Hp Hn -> Hq -> ->. pose proof (len_nonneg post). split.
  - apply bytes_inside. assumption.
  - rewrite bytes_inside by (rewrite !len_app; lia).
    replace (len pre + p + n) with (len pre + (p + n)) by lia.
    rewrite slice_shift by lia. reflexivity.
Qed.

Lemma lsize_shift (pre rec post : list byte) (p q pos pos' : Z) :
  0 <= p -> q = p + 4 -> q <= len rec ->
  pos = len pre + p -> pos' = len pre + q ->
  exists n, lsize rec p = Ok (n, q) /\ lsize (pre ++ rec ++ post) pos = Ok (n, pos').
Proof.
  intros Hp Hq Hle Hpos Hpos'.
  destruct (bytes_shift pre rec post p q 4 pos pos') as [Hb1 Hb2]; try assumption; [lia|].
  unfold lsize. rewrite Hb1, Hb2. cbn [bind].
  assert (Hl : length (slice rec p q) = 4%nat).
  { pose proof (slice_length rec p q Hp ltac:(lia) Hle) as Hs. unfold len in Hs. lia. }
  unfold unpack_lt_I. rewrite Hl. cbn [Nat.eqb bind]. eauto.
Qed.

Lemma lsize_nonneg (data : list byte) (pos n pos' : Z) :
  lsize data pos = Ok (n, pos') -> 0 <= n.
Proof.
  intros Hl. apply lsize_Ok_inv in Hl as (_ & Hu & _).
  unfold unpack_lt_I in Hu. destruct (_ =? _)%nat; [|discriminate].
  injection Hu as <-. generalize (slice data pos (pos + 4)).
  induction l as [|b l IH]; cbn [le_value]; [lia|].
  pose proof (byte_to_Z_range b). lia.
Qed.

Lemma zstr_shift (pre rec post : list byte) (off : Z) :
  0 <= off -> In x00 (skipn (Z.to_nat off) rec) ->
  zstr (pre ++ rec ++ post) (off + len pre) = zstr rec off.
Proof.
  intros Hoff Hin. pose proof (len_nonneg pre).
  rewrite !zstr_spec by lia. f_equal.
  replace (Z.to_nat (off + len pre)) with (length pre + Z.to_nat off)%nat
    by (unfold len; lia).
  rewrite skipn_app, skipn_all2 by lia.
  replace (length pre + Z.to_nat off - length pre)%nat with (Z.to_nat off) by lia.
  cbn [app]. rewrite skipn_app. apply upto0_app. assumption.
Qed.

Section InPlace.
Context `{Platform}.

Lemma dstamp_shift (pre rec post : list byte) (p q pos pos' : Z) :
  0 <= p -> q = p + 8 -> q <= len rec ->
  pos = len pre + p -> pos' = len pre + q ->
  dstamp (pre ++ rec ++ post) pos = ('(dt, _) <- dstamp rec p ;; Ok (dt, pos')).
Proof.
  intros Hp Hq Hle Hpos Hpos'.
  destruct (bytes_shift pre rec post p q 8 pos pos') as [Hb1 Hb2]; try assumption; [lia|].
  unfold dstamp. rewrite Hb1, Hb2. cbn [bind].
  destruct (struct_unpack_lt_d _) as [sec|e]; cbn [bind]; [|reflexivity].
  destruct (or_raise _ _) as [dt|e]; reflexivity.
Qed.

Lemma dstamp_Ok_pos (data : list byte) (pos : Z) (dt : datetime) (pos' : Z) :
  dstamp data pos = Ok (dt, pos') -> pos' = pos + 8.
Proof.
  unfold dstamp. intros Hd.
  apply bind_Ok_inv in Hd as ([raw p] & Hb & Hd). cbv beta iota zeta in Hd.
  apply bytes_Ok_inv in Hb as (_ & _ & ->).
  apply bind_Ok_inv in Hd as (sec & _ & Hd).
  apply bind_Ok_inv in Hd as (d & _ & Hd). congruence.
Qed.

Lemma cookie_shift (pre rec post : list byte) :
  56 <= len rec -> strings_terminated rec ->
  cookie (pre ++ rec ++ post) (len pre) (len rec) = cookie rec 0 0.
Proof.
  intros Hlen Hterm. set (base := len pre). set (data := pre ++ rec ++ post).
  destruct (lsize_shift pre rec post 0 4 base (base + 4))
    as (n & Hn & Hn'); try (subst base; lia).
  destruct (bytes_shift pre rec post 4 16 12 (base + 4) (base + 16))
    as (Hp1 & Hp1'); try (subst base; lia).
  destruct (lsize_shift pre rec post 16 20 (base + 16) (base + 20))
    as (o1 & Ho1 & Ho1'); try (subst base; lia).
  destruct (lsize_shift pre rec post 20 24 (base + 20) (base + 24))
    as (o2 & Ho2 & Ho2'); try (subst base; lia).
  destruct (lsize_shift pre rec post 24 28 (base + 24) (base + 28))
    as (o3 & Ho3 & Ho3'); try (subst base; lia).
  destruct (lsize_shift pre rec post 28 32 (base + 28) (base + 32))
    as (o4 & Ho4 & Ho4'); try (subst base; lia).
  destruct (bytes_shift pre rec post 32 40 8 (base + 32) (base + 40))
    as (Hp2 & Hp2'); try (subst base; lia).
  pose proof (dstamp_shift pre rec post 40 48 (base + 40) (base + 48)
                ltac:(lia) ltac:(lia) ltac:(lia) ltac:(subst base; lia)
                ltac:(subst base; lia)) as He.
  pose proof (dstamp_shift pre rec post 48 56 (base + 48) (base + 56)
                ltac:(lia) ltac:(lia) ltac:(lia) ltac:(subst base; lia)
                ltac:(subst base; lia)) as Hc.
  fold data in Hn', Hp1', Ho1', Ho2', Ho3', Ho4', Hp2', He, Hc.
  unfold cookie. rewrite Hn, Hn'. cbn [bind].
  change (0 =? 0) with true. cbv iota.
  destruct (Z.eqb_spec (len rec) 0) as [H0|_]; [lia|].
  destruct (n =? len rec); [|reflexivity].
  rewrite Hp1, Hp1'. cbn [bind]. rewrite Ho1, Ho1'. cbn [bind].
  rewrite Ho2, Ho2'. cbn [bind]. rewrite Ho3, Ho3'. cbn [bind].
  rewrite Ho4, Ho4'. cbn [bind]. rewrite Hp2, Hp2'. cbn [bind].
  rewrite He.
  destruct (dstamp rec 40) as [[e pe]|err] eqn:Hde; cbn [bind]; [|reflexivity].
  apply dstamp_Ok_pos in Hde. subst pe. change (40 + 8) with 48.
  rewrite Hc.
  destruct (dstamp rec 48) as [[c pc]|err] eqn:Hdc; cbn [bind]; [|reflexivity].
  rewrite !Z.add_0_r. unfold data, base.
  rewrite !zstr_shift; try reflexivity;
    first [ eapply lsize_nonneg; eassumption
          | eapply Hterm; [|eassumption]; simpl; tauto ].
Qed.

(** C9, as the code has it.  [zstr] reads up to a zero byte or to the end
    of the buffer it is given, so a record decoded in place can take in
    bytes that follow it.  For every buffer and every range inside it that
    is at least as long as the 56 bytes of the fixed part and holds the
    terminator of each of its four strings, decoding in place and decoding
    the extracted slice on its own end alike: with the same cookie, or with
    the same exception. *)
Theorem cookie_in_place_eq_slice (data : list byte) (start size : Z) :
  0 <= start -> 56 <= size -> start + size <= len data ->
  strings_terminated (slice data start (start + size)) ->
  cookie data start size = cookie (slice data start (start + size)) 0 0.
Proof.
  intros Hstart Hsize Hfit Hterm.
  destruct (slice_decompose data start (start + size)) as [Hdata Hpre]; try lia.
  pose proof (slice_length data start (start + size) Hstart ltac:(lia) Hfit) as Hrec.
  replace (start + size - start) with size in Hrec by lia.
  pose proof (cookie_shift (firstn (Z.to_nat start) data)
                (slice data start (start + size))
                (skipn (Z.to_nat (start + size)) data)
                ltac:(lia) Hterm) as Hshift.
  rewrite Hpre, Hrec, <- Hdata in Hshift. exact Hshift.
Qed.

End InPlace.

(** ** C4: timestamps on the reference platform *)

Module ReferenceFacts.
Import SpecFloat Reference.

Lemma digits2_pos_bounds (m : positive) :
  2 ^ (Zpos (digits2_pos m) - 1) <= Zpos m < 2 ^ Zpos (digits2_pos m).
Proof.
  induction m as [m IH|m IH|]; cbn [digits2_pos].
  - rewrite Pos2Z.inj_succ.
    replace (Z.succ (Zpos (digits2_pos m)) - 1) with (Z.succ (Zpos (digits2_pos m) - 1)) by lia.
    rewrite !Z.pow_succ_r by lia. lia.
  - rewrite Pos2Z.inj_succ.
    replace (Z.succ (Zpos (digits2_pos m)) - 1) with (Z.succ (Zpos (digits2_pos m) - 1)) by lia.
    rewrite !Z.pow_succ_r by lia. lia.
  - simpl. lia.
Qed.

(** The three fields of a word of 64 bits. *)
Lemma fields_of_word (s : bool) (e f : Z) :
  0 <= e < 2048 -> 0 <= f < 2 ^ 52 ->
  let z := sign_bit s + e * 2 ^ 52 + f in
  Z.testbit z 63 = s /\ (z / 2 ^ 52) mod 2048 = e /\ z mod 2 ^ 52 = f.
Proof.
  intros He Hf z.
  assert (Hz : z = f + 2 ^ 52 * (e + 2048 * (if s then 1 else 0))).
  { unfold z, sign_bit. destruct s; change (2 ^ 63) with (2 ^ 52 * 2048); lia. }
  assert (Hdiv : z / 2 ^ 52 = e + 2048 * (if s then 1 else 0)).
  { rewrite Hz. symmetry. apply (Z.div_unique _ _ _ f); lia. }
  split; [|split].
  - rewrite Z.testbit_odd, Z.shiftr_div_pow2 by lia.
    change (2 ^ 63) with (2 ^ 52 * 2048).
    rewrite <- Z.div_div, Hdiv by lia.
    replace ((e + 2048 * (if s then 1 else 0)) / 2048) with (if s then 1 else 0).
    + destruct s; reflexivity.
    + apply (Z.div_unique _ _ _ e); lia.
  - rewrite Hdiv. symmetry. apply (Z.mod_unique _ _ (if s then 1 else 0)); lia.
  - rewrite Hz. symmetry. apply (Z.mod_unique _ _ (e + 2048 * (if s then 1 else 0))); lia.
Qed.

Lemma SF_of_bits_of_SF (x : spec_float) :
  valid_binary FloatOps.prec FloatOps.emax x = true -> SF_of_bits (bits_of_SF x) = x.
Proof.
  destruct x as [s|s| |s m e]; intros Hv.
  - destruct s; reflexivity.
  - destruct s; reflexivity.
  - reflexivity.
  - cbn [valid_binary] in Hv. unfold bounded, canonical_mantissa in Hv.
    apply andb_prop in Hv as [Hc He].
    apply Z.eqb_eq in Hc. apply Z.leb_le in He.
    unfold fexp, emin, FloatOps.prec, FloatOps.emax in *.
    pose proof (digits2_pos_bounds m) as [Hlo Hhi].
    set (d := Zpos (digits2_pos m)) in *.
    assert (Hd : 0 < d) by (unfold d; lia).
    cbn [bits_of_SF]. destruct (Z.ltb_spec (Zpos m) (2 ^ 52)) as [Hsub|Hnorm].
    + (* subnormal *)
      assert (d <= 52).
      { destruct (Z.le_gt_cases d 52); [assumption|].
        assert (2 ^ 52 <= 2 ^ (d - 1)) by (apply Z.pow_le_mono_r; lia). lia. }
      assert (e = -1074) by lia. subst e.
      destruct (fields_of_word s 0 (Zpos m)) as (Hs & Hex & Hfr); [lia|lia|].
      rewrite Z.mul_0_l, Z.add_0_r in Hs, Hex, Hfr.
      unfold SF_of_bits. rewrite Hs, Hex, Hfr. reflexivity.
    + (* normal *)
      assert (53 <= d).
      { destruct (Z.le_gt_cases 53 d); [assumption|].
        assert (2 ^ d <= 2 ^ 52) by (apply Z.pow_le_mono_r; lia). lia. }
      assert (d = 53) by lia.
      assert (Zpos m < 2 ^ 53) by (replace 53 with d by assumption; exact Hhi).
      assert (-1074 <= e) by lia.
      destruct (fields_of_word s (e + 1075) (Zpos m - 2 ^ 52)) as (Hs & Hex & Hfr);
        [lia|change (2 ^ 53) with (2 ^ 52 + 2 ^ 52) in *; lia|].
      rewrite <- (Z.add_assoc (sign_bit s)) in Hs, Hex, Hfr.
      unfold SF_of_bits. rewrite Hs, Hex, Hfr.
      destruct (Z.eqb_spec (e + 1075) 0); [lia|].
      destruct (Z.eqb_spec (e + 1075) 2047); [lia|].
      replace (Zpos m - 2 ^ 52 + 2 ^ 52) with (Zpos m) by lia.
      replace (e + 1075 - 1075) with e by lia. reflexivity.
Qed.

Lemma bits_of_SF_range (x : spec_float) :
  valid_binary FloatOps.prec FloatOps.emax x = true -> 0 <= bits_of_SF x < 2 ^ 64.
Proof.
  destruct x as [s|s| |s m e]; intros Hv.
  - destruct s; simpl; lia.
  - destruct s; simpl; lia.
  - simpl; lia.
  - cbn [valid_binary] in Hv. unfold bounded, canonical_mantissa in Hv.
    apply andb_prop in Hv as [Hc He].
    apply Z.eqb_eq in Hc. apply Z.leb_le in He.
    unfold fexp, emin, FloatOps.prec, FloatOps.emax in *.
    pose proof (digits2_pos_bounds m) as [Hlo Hhi].
    set (d := Zpos (digits2_pos m)) in *.
    cbn [bits_of_SF]. destruct (Z.ltb_spec (Zpos m) (2 ^ 52)) as [Hsub|Hnorm].
    + destruct s; unfold sign_bit; lia.
    + assert (53 <= d).
      { destruct (Z.le_gt_cases 53 d); [assumption|].
        assert (2 ^ d <= 2 ^ 52) by (apply Z.pow_le_mono_r; lia). lia. }
      assert (d = 53) by lia.
      assert (Zpos m < 2 ^ 53) by (replace 53 with d by assumption; exact Hhi).
      change (2 ^ 53) with (2 ^ 52 + 2 ^ 52) in *.
      change (2 ^ 64) with (2 ^ 63 + 2048 * 2 ^ 52).
      destruct s; unfold sign_bit; nia.
Qed.

(** ['<d'] loses nothing: unpacking the 8 bytes of a double gives the
    double back. *)
Lemma unpack_pack_lt_d (x : double) :
  @unpack_lt_d platform (@pack_lt_d platform x) = x.
Proof.
  cbn [unpack_lt_d pack_lt_d platform]. unfold bits_of_double, double_of_bits.
  pose proof (FloatAxioms.Prim2SF_valid x) as Hv.
  rewrite le_value_le_bytes.
  rewrite Z.mod_small by (apply bits_of_SF_range; exact Hv).
  rewrite SF_of_bits_of_SF by exact Hv.
  apply FloatAxioms.SF2Prim_Prim2SF.
Qed.

(** Decoding the 8 bytes [u_dstamp] makes of a double [t] is
    [datetime.fromtimestamp] of [(t - 978336000) + 978336000], one
    subtraction and one addition of doubles, the packing in between losing
    nothing. *)
Lemma dstamp_u_dstamp_sum (t : double) :
  (b <- @u_dstamp platform (@Float platform t) ;; @dstamp platform b 0) =
  (dt <- or_raise (ValueError "timestamp out of range")
           (utc_fromtimestamp
              (PrimFloat.add (PrimFloat.sub t (double_of_Z mac_abs_epoch))
                             (double_of_Z mac_abs_epoch))) ;;
   Ok (dt, 8)).
Proof.
  cbn [u_dstamp bind]. unfold dstamp.
  set (b := @pack_lt_d platform (@float_sub_int platform t mac_abs_epoch)).
  assert (Hb : length b = 8%nat) by apply pack_lt_d_length.
  rewrite (bytes_in b [] b [] 0 8 8)
    by first [ reflexivity | rewrite app_nil_r; reflexivity
             | unfold len; rewrite Hb; reflexivity ].
  cbn [bind]. unfold struct_unpack_lt_d. rewrite Hb. cbn [Nat.eqb bind].
  unfold b. rewrite unpack_pack_lt_d. reflexivity.
Qed.

(** *** Sums and differences of doubles that round nothing *)

(** Digits *)
Lemma digits2_pos_unique (m : positive) (d : Z) :
  2 ^ (d - 1) <= Zpos m < 2 ^ d -> Zpos (digits2_pos m) = d.
Proof.
  intros [Hlo Hhi]. pose proof (digits2_pos_bounds m) as [Blo Bhi].
  set (k := Zpos (digits2_pos m)) in *.
  assert (Hk : 0 < k) by (unfold k; lia).
  destruct (Z.lt_trichotomy k d) as [Hlt|[Heq|Hgt]]; [|assumption|].
  - assert (2 ^ k <= 2 ^ (d - 1)) by (apply Z.pow_le_mono_r; lia). lia.
  - assert (0 <= d).
    { destruct (Z.lt_ge_cases d 0) as [Hneg|]; [|assumption].
      rewrite (Z.pow_neg_r 2 d) in Hhi by assumption. lia. }
    assert (2 ^ d <= 2 ^ (k - 1)) by (apply Z.pow_le_mono_r; lia). lia.
Qed.

Lemma digits2_pos_shift (m : positive) (k : Z) (m' : positive) :
  0 <= k -> Zpos m' = Zpos m * 2 ^ k ->
  Zpos (digits2_pos m') = Zpos (digits2_pos m) + k.
Proof.
  intros Hk Hm'. apply digits2_pos_unique.
  pose proof (digits2_pos_bounds m) as [Blo Bhi].
  set (d := Zpos (digits2_pos m)) in *. assert (0 < d) by (unfold d; lia).
  replace (d + k - 1) with (d - 1 + k) by lia.
  rewrite !Z.pow_add_r by lia. rewrite Hm'.
  assert (0 < 2 ^ k) by (apply Z.pow_pos_nonneg; lia). nia.
Qed.

(** Shifts *)
Lemma iter_xO (m : positive) (p : positive) :
  Zpos (Pos.iter xO m p) = Zpos m * 2 ^ Zpos p.
Proof.
  induction p as [|p IH] using Pos.peano_ind.
  - simpl. lia.
  - rewrite Pos.iter_succ, Pos2Z.inj_succ, Z.pow_succ_r by lia.
    rewrite Pos2Z.inj_xO, IH. lia.
Qed.

Lemma shl_align_le (mx : positive) (ex ex' : Z) :
  ex' <= ex ->
  exists m', shl_align mx ex ex' = (m', ex') /\ Zpos m' = Zpos mx * 2 ^ (ex - ex').
Proof.
  intros Hle. unfold shl_align.
  destruct (ex' - ex) as [|d|d] eqn:Hd; try lia.
  - assert (ex' = ex) by lia. subst. exists mx. rewrite Z.sub_diag. split; [reflexivity|lia].
  - exists (Pos.iter xO mx d). split; [reflexivity|].
    rewrite iter_xO. f_equal. f_equal. lia.
Qed.

Lemma shl_align_ge (mx : positive) (ex ex' : Z) :
  ex <= ex' -> shl_align mx ex ex' = (mx, ex).
Proof.
  intros Hle. unfold shl_align.
  destruct (ex' - ex) as [|d|d] eqn:Hd; try lia; reflexivity.
Qed.

Lemma iter_pos_nat {A : Type} (f : A -> A) (p : positive) (x : A) :
  iter_pos f p x = Nat.iter (Pos.to_nat p) f x.
Proof.
  revert x. induction p as [p IH|p IH|]; intros x; cbn [iter_pos].
  - rewrite !IH, Pos2Nat.inj_xI.
    replace (S (2 * Pos.to_nat p)) with (Pos.to_nat p + (Pos.to_nat p + 1))%nat by lia.
    rewrite !Nat.iter_add. reflexivity.
  - rewrite !IH, Pos2Nat.inj_xO.
    replace (2 * Pos.to_nat p)%nat with (Pos.to_nat p + Pos.to_nat p)%nat by lia.
    rewrite Nat.iter_add. reflexivity.
  - reflexivity.
Qed.

Lemma shr_1_exact (k : nat) (m m' : positive) :
  Zpos m = Zpos m' * 2 ^ Z.of_nat k ->
  Nat.iter k shr_1 {| shr_m := Zpos m; shr_r := false; shr_s := false |}
  = {| shr_m := Zpos m'; shr_r := false; shr_s := false |}.
Proof.
  revert m. induction k as [|k IH]; intros m Hm.
  - simpl in Hm. assert (m = m') by lia. subst. reflexivity.
  - rewrite Nat.iter_succ_r.
    rewrite Nat2Z.inj_succ, Z.pow_succ_r in Hm by lia.
    destruct m as [q|q|]; try lia.
    cbn [shr_1 orb]. apply IH. lia.
Qed.

Lemma shr_exact (m m' : positive) (e n : Z) :
  0 <= n -> Zpos m = Zpos m' * 2 ^ n ->
  shr {| shr_m := Zpos m; shr_r := false; shr_s := false |} e n
  = ({| shr_m := Zpos m'; shr_r := false; shr_s := false |}, e + n).
Proof.
  intros Hn Hm. unfold shr. destruct n as [|p|p]; try lia.
  - simpl in Hm. assert (m = m') by lia. subst. rewrite Z.add_0_r. reflexivity.
  - rewrite iter_pos_nat. f_equal. apply shr_1_exact.
    rewrite positive_nat_Z. assumption.
Qed.


(** A float that is valid *)
Lemma bounded_inv (m : positive) (e : Z) :
  bounded FloatOps.prec FloatOps.emax m e = true ->
  fexp FloatOps.prec FloatOps.emax (Zpos (digits2_pos m) + e) = e /\ e <= 971 /\ -1074 <= e.
Proof.
  unfold bounded, canonical_mantissa. intros H.
  apply andb_prop in H as [Hc He].
  apply Z.eqb_eq in Hc. apply Z.leb_le in He.
  change (FloatOps.emax - FloatOps.prec) with 971 in He.
  split; [assumption|]. split; [assumption|].
  unfold fexp in Hc. change (SpecFloat.emin FloatOps.prec FloatOps.emax) with (-1074) in Hc. lia.
Qed.

(** Normalising a number that is a float gives that float. *)
Lemma binary_round_exact (s : bool) (M : positive) (e : Z) (m' : positive) (e' : Z) :
  bounded FloatOps.prec FloatOps.emax m' e' = true ->
  -1074 <= e ->
  Zpos M * 2 ^ (e + 1074) = Zpos m' * 2 ^ (e' + 1074) ->
  binary_round FloatOps.prec FloatOps.emax s M e = S754_finite s m' e'.
Proof.
  intros Hb He Hval. apply bounded_inv in Hb as (Hc & Hmax & Hmin).
  pose proof (digits2_pos_bounds M) as HM. pose proof (digits2_pos_bounds m') as Hm'.
  set (d := Zpos (digits2_pos M)) in *. set (d' := Zpos (digits2_pos m')) in *.
  assert (Hdpos : 0 < d) by (unfold d; lia).
  assert (Hd'pos : 0 < d') by (unfold d'; lia).
  assert (Hdig : d + e = d' + e').
  { (* both sides have the same number of binary digits *)
    assert (H1 : exists X, Zpos X = Zpos M * 2 ^ (e + 1074)).
    { exists (Z.to_pos (Zpos M * 2 ^ (e + 1074))). rewrite Z2Pos.id; [reflexivity|].
      assert (0 < 2 ^ (e + 1074)) by (apply Z.pow_pos_nonneg; lia). nia. }
    destruct H1 as [X HX].
    pose proof (digits2_pos_shift M (e + 1074) X ltac:(lia) HX) as D1.
    rewrite Hval in HX.
    pose proof (digits2_pos_shift m' (e' + 1074) X ltac:(lia) HX) as D2.
    fold d in D1. fold d' in D2. lia. }
  unfold binary_round. fold d. rewrite Hdig, Hc.
  destruct (Z.le_gt_cases e' e) as [Hle|Hgt].
  - (* the mantissa is shifted left, or kept *)
    destruct (shl_align_le M e e' Hle) as (mz & -> & Hmz).
    assert (mz = m').
    { assert (Hp : 2 ^ (e + 1074) = 2 ^ (e - e') * 2 ^ (e' + 1074)).
      { rewrite <- Z.pow_add_r by lia. f_equal. lia. }
      rewrite Hp in Hval.
      assert (0 < 2 ^ (e' + 1074)) by (apply Z.pow_pos_nonneg; lia).
      assert (Zpos mz = Zpos m') by nia. congruence. }
    subst mz.
    unfold binary_round_aux, shr_fexp. cbn [Zdigits2 shr_record_of_loc].
    fold d'. rewrite Hc, Z.sub_diag. cbn [shr shr_m loc_of_shr_record round_nearest_even].
    cbn [Zdigits2 shr_record_of_loc]. fold d'. rewrite Hc, Z.sub_diag.
    cbn [shr shr_m].
    destruct (Z.leb_spec e' (FloatOps.emax - FloatOps.prec)) as [|Hbad]; [reflexivity|].
    change (FloatOps.emax - FloatOps.prec) with 971 in Hbad. lia.
  - (* the mantissa is shifted right, and loses only zeros *)
    rewrite shl_align_ge by lia.
    assert (HMm : Zpos M = Zpos m' * 2 ^ (e' - e)).
    { assert (Hp : 2 ^ (e' + 1074) = 2 ^ (e' - e) * 2 ^ (e + 1074)).
      { rewrite <- Z.pow_add_r by lia. f_equal. lia. }
      rewrite Hp in Hval.
      assert (0 < 2 ^ (e + 1074)) by (apply Z.pow_pos_nonneg; lia). nia. }
    unfold binary_round_aux, shr_fexp. cbn [Zdigits2 shr_record_of_loc].
    fold d. rewrite Hdig, Hc.
    rewrite (shr_exact M m' e (e' - e)) by (lia || assumption).
    cbn [shr_m loc_of_shr_record round_nearest_even].
    cbn [Zdigits2 shr_record_of_loc]. fold d'.
    replace (e + (e' - e)) with e' by lia.
    rewrite Hc, Z.sub_diag. cbn [shr shr_m].
    destruct (Z.leb_spec e' (FloatOps.emax - FloatOps.prec)) as [|Hbad]; [reflexivity|].
    change (FloatOps.emax - FloatOps.prec) with 971 in Hbad. lia.
Qed.


Lemma pow2_pos (k : Z) : 0 <= k -> 0 < 2 ^ k.
Proof. intros. apply Z.pow_pos_nonneg; lia. Qed.

Lemma ulps_finite_nonzero (s : bool) (m : positive) (e : Z) :
  -1074 <= e -> ulps (S754_finite s m e) <> 0 /\
  (0 < ulps (S754_finite s m e) <-> s = false).
Proof.
  intros He. cbn [ulps]. pose proof (pow2_pos (e + 1074) ltac:(lia)).
  destruct s; cbn [cond_Zopp]; split; try split; try nia; try discriminate; auto.
Qed.

Lemma binary_round_self (s : bool) (m : positive) (e : Z) :
  bounded FloatOps.prec FloatOps.emax m e = true -> binary_round FloatOps.prec FloatOps.emax s m e = S754_finite s m e.
Proof.
  intros Hb. apply binary_round_exact; [assumption| |reflexivity].
  apply bounded_inv in Hb. lia.
Qed.

(** A value has one normal form. *)
Lemma grid_inj (x z : spec_float) : grid x -> grid z -> ulps x = ulps z -> x = z.
Proof.
  destruct x as [sx| | |sx mx ex], z as [sz| | |sz mz ez]; cbn [grid]; try contradiction.
  - intros -> -> _. reflexivity.
  - intros _ Hz Hu. pose proof (bounded_inv _ _ Hz) as (_ & _ & Hmin).
    destruct (ulps_finite_nonzero sz mz ez Hmin) as [Hne _]. cbn [ulps] in Hu, Hne. lia.
  - intros Hx _ Hu. pose proof (bounded_inv _ _ Hx) as (_ & _ & Hmin).
    destruct (ulps_finite_nonzero sx mx ex Hmin) as [Hne _]. cbn [ulps] in Hu, Hne. lia.
  - intros Hx Hz Hu.
    pose proof (bounded_inv _ _ Hx) as (_ & _ & Hminx).
    pose proof (bounded_inv _ _ Hz) as (_ & _ & Hminz).
    pose proof (pow2_pos (ex + 1074) ltac:(lia)). pose proof (pow2_pos (ez + 1074) ltac:(lia)).
    cbn [ulps] in Hu.
    assert (sx = sz) by (destruct sx, sz; cbn [cond_Zopp] in Hu; try reflexivity; nia).
    subst sz.
    assert (Hv : Zpos mx * 2 ^ (ex + 1074) = Zpos mz * 2 ^ (ez + 1074))
      by (destruct sx; cbn [cond_Zopp] in Hu; lia).
    pose proof (binary_round_exact sx mx ex mz ez Hz Hminx Hv) as H1.
    rewrite (binary_round_self sx mx ex Hx) in H1. exact H1.
Qed.

(** The sum and the difference of two doubles, where they are doubles. *)
Lemma binary_normalize_exact (S : Z) (e : Z) (z : spec_float) :
  grid z -> -1074 <= e -> ulps z = S * 2 ^ (e + 1074) ->
  binary_normalize FloatOps.prec FloatOps.emax S e false = z.
Proof.
  intros Hz He Hu. pose proof (pow2_pos (e + 1074) ltac:(lia)) as Hp.
  destruct z as [sz| | |sz mz ez]; cbn [grid] in Hz; try contradiction.
  - subst sz. cbn [ulps] in Hu. assert (S = 0) by nia. subst. reflexivity.
  - pose proof (bounded_inv _ _ Hz) as (_ & _ & Hmin).
    pose proof (pow2_pos (ez + 1074) ltac:(lia)) as Hpz.
    cbn [ulps] in Hu.
    destruct S as [|M|M]; cbn [binary_normalize].
    + destruct sz; cbn [cond_Zopp] in Hu; nia.
    + destruct sz; cbn [cond_Zopp] in Hu; [nia|].
      apply binary_round_exact; [assumption|assumption|symmetry; exact Hu].
    + destruct sz; cbn [cond_Zopp] in Hu; [|nia].
      apply binary_round_exact; [assumption|assumption|].
      change (Zneg M) with (- Zpos M) in Hu.
      rewrite Z.mul_opp_l in Hu. apply Z.opp_inj in Hu. symmetry. exact Hu.
Qed.

Lemma aligned (s : bool) (m : positive) (e ez : Z) :
  -1074 <= ez -> ez <= e ->
  cond_Zopp s (Zpos (fst (shl_align m e ez))) * 2 ^ (ez + 1074)
  = ulps (S754_finite s m e).
Proof.
  intros Hmin Hle. destruct (shl_align_le m e ez Hle) as (m' & -> & Hm').
  cbn [fst ulps]. rewrite Hm'.
  replace (e + 1074) with ((e - ez) + (ez + 1074)) by lia.
  rewrite (Z.pow_add_r 2 (e - ez) (ez + 1074)) by lia.
  destruct s; cbn [cond_Zopp]; lia.
Qed.

Lemma SFadd_exact (x y z : spec_float) :
  grid x -> grid y -> grid z -> ulps z = ulps x + ulps y ->
  SFadd FloatOps.prec FloatOps.emax x y = z.
Proof.
  intros Hx Hy Hz Hu.
  destruct x as [sx| | |sx mx ex]; cbn [grid] in Hx; try contradiction;
    destruct y as [sy| | |sy my ey]; cbn [grid] in Hy; try contradiction.
  - subst. cbn [SFadd]. symmetry. apply grid_inj; [exact Hz|reflexivity|exact Hu].
  - subst. cbn [SFadd]. symmetry. apply grid_inj; [exact Hz|exact Hy|exact Hu].
  - subst. cbn [SFadd]. symmetry. apply grid_inj; [exact Hz|exact Hx|].
    rewrite Hu. cbn [ulps]. lia.
  - pose proof (bounded_inv _ _ Hx) as (_ & _ & Hminx).
    pose proof (bounded_inv _ _ Hy) as (_ & _ & Hminy).
    cbn [SFadd]. apply binary_normalize_exact; [assumption|lia|].
    rewrite Hu, Z.mul_add_distr_r, !aligned by lia. reflexivity.
Qed.

Lemma SFsub_exact (x y z : spec_float) :
  grid x -> grid y -> grid z -> ulps z = ulps x - ulps y ->
  SFsub FloatOps.prec FloatOps.emax x y = z.
Proof.
  intros Hx Hy Hz Hu.
  destruct x as [sx| | |sx mx ex]; cbn [grid] in Hx; try contradiction;
    destruct y as [sy| | |sy my ey]; cbn [grid] in Hy; try contradiction.
  - subst. cbn [SFsub]. symmetry. apply grid_inj; [exact Hz|reflexivity|exact Hu].
  - subst. cbn [SFsub]. symmetry. apply grid_inj; [exact Hz|exact Hy|].
    rewrite Hu. cbn [ulps]. destruct sy; cbn [negb cond_Zopp]; lia.
  - subst. cbn [SFsub]. symmetry. apply grid_inj; [exact Hz|exact Hx|].
    rewrite Hu. cbn [ulps]. lia.
  - pose proof (bounded_inv _ _ Hx) as (_ & _ & Hminx).
    pose proof (bounded_inv _ _ Hy) as (_ & _ & Hminy).
    cbn [SFsub]. apply binary_normalize_exact; [assumption|lia|].
    rewrite Hu, Z.mul_sub_distr_r, !aligned by lia. reflexivity.
Qed.

(** Every number of at most 53 binary digits, times a power of 2 in range, is a double. *)
Lemma representable (A j : Z) :
  0 < A < 2 ^ 53 -> 0 <= j <= 2045 ->
  exists m e, bounded FloatOps.prec FloatOps.emax m e = true /\ Zpos m * 2 ^ (e + 1074) = A * 2 ^ j.
Proof.
  intros HA Hj.
  destruct A as [|a|a]; try lia.
  pose proof (digits2_pos_bounds a) as Ha. set (d := Zpos (digits2_pos a)) in *.
  assert (Hd : 0 < d <= 53).
  { split; [unfold d; lia|].
    destruct (Z.le_gt_cases d 53) as [|Hgt]; [assumption|].
    assert (2 ^ 53 <= 2 ^ (d - 1)) by (apply Z.pow_le_mono_r; lia). lia. }
  destruct (Z.le_gt_cases (d + j) 53) as [Hsmall|Hbig].
  - (* at most 53 digits: the exponent is the least one *)
    pose proof (pow2_pos j ltac:(lia)).
    exists (Z.to_pos (Zpos a * 2 ^ j)), (-1074).
    assert (Hm : Zpos (Z.to_pos (Zpos a * 2 ^ j)) = Zpos a * 2 ^ j)
      by (rewrite Z2Pos.id; nia).
    split.
    + unfold bounded, canonical_mantissa.
      rewrite (digits2_pos_shift a j _ ltac:(lia) Hm). fold d.
      unfold fexp. change (SpecFloat.emin FloatOps.prec FloatOps.emax) with (-1074).
      change FloatOps.prec with 53. change (FloatOps.emax - 53) with 971.
      apply andb_true_intro. split; [apply Z.eqb_eq|apply Z.leb_le]; lia.
    + rewrite Hm. change (-1074 + 1074) with 0. lia.
  - (* more: the mantissa has 53 digits *)
    set (s := d + j - 53). assert (Hs : 0 < s <= j) by (unfold s; lia).
    pose proof (pow2_pos (j - s) ltac:(lia)).
    exists (Z.to_pos (Zpos a * 2 ^ (j - s))), (s - 1074).
    assert (Hm : Zpos (Z.to_pos (Zpos a * 2 ^ (j - s))) = Zpos a * 2 ^ (j - s))
      by (rewrite Z2Pos.id; nia).
    split.
    + unfold bounded, canonical_mantissa.
      rewrite (digits2_pos_shift a (j - s) _ ltac:(lia) Hm). fold d.
      unfold fexp. change (SpecFloat.emin FloatOps.prec FloatOps.emax) with (-1074).
      change FloatOps.prec with 53. change (FloatOps.emax - 53) with 971.
      apply andb_true_intro. split; [apply Z.eqb_eq|apply Z.leb_le]; lia.
    + rewrite Hm. replace (s - 1074 + 1074) with s by lia.
      rewrite <- Z.mul_assoc, <- Z.pow_add_r by lia. f_equal. f_equal. lia.
Qed.

(** The double of a value on the grid. *)
Lemma grid_exists (X : Z) (A j : Z) :
  Z.abs X = A * 2 ^ j -> 0 <= A < 2 ^ 53 -> 0 <= j <= 2045 ->
  exists z, grid z /\ ulps z = X.
Proof.
  intros HX HA Hj. pose proof (pow2_pos j ltac:(lia)).
  destruct (Z.eq_dec A 0) as [->|Hne].
  - exists (S754_zero false). split; [reflexivity|]. cbn [ulps]. lia.
  - destruct (representable A j ltac:(lia) Hj) as (m & e & Hb & Hv).
    exists (S754_finite (X <? 0) m e). split; [exact Hb|].
    cbn [ulps]. rewrite Hv, <- HX.
    destruct (Z.ltb_spec X 0); cbn [cond_Zopp]; lia.
Qed.


Lemma grid_valid (z : spec_float) : grid z -> valid_binary FloatOps.prec FloatOps.emax z = true.
Proof. destruct z; cbn [grid valid_binary]; auto; contradiction. Qed.

Lemma Prim2SF_grid (x : double) :
  (exists s m e, FloatOps.Prim2SF x = S754_finite s m e) \/
  FloatOps.Prim2SF x = S754_zero false ->
  grid (FloatOps.Prim2SF x).
Proof.
  pose proof (FloatAxioms.Prim2SF_valid x) as Hv.
  intros [(s & m & e & H)|H]; rewrite H in *; [exact Hv|reflexivity].
Qed.

(** The double of an int of at most 53 binary digits is that int. *)
Lemma double_of_Z_grid (n : Z) :
  Z.abs n < 2 ^ 53 ->
  grid (FloatOps.Prim2SF (double_of_Z n)) /\
  ulps (FloatOps.Prim2SF (double_of_Z n)) = n * 2 ^ 1074.
Proof.
  intros Hn.
  destruct (grid_exists (n * 2 ^ 1074) (Z.abs n) 1074) as (z & Hz & Hu);
    [rewrite Z.abs_mul; f_equal|lia|lia|].
  unfold double_of_Z.
  rewrite (binary_normalize_exact n 0 z Hz ltac:(lia) Hu).
  rewrite FloatAxioms.Prim2SF_SF2Prim by (apply grid_valid; exact Hz).
  auto.
Qed.

Lemma truncate_grid (x : double) (n : Z) :
  grid (FloatOps.Prim2SF x) -> ulps (FloatOps.Prim2SF x) = n * 2 ^ 1074 ->
  truncate x = Some n.
Proof.
  unfold truncate. destruct (FloatOps.Prim2SF x) as [s| | |s m e]; cbn [grid ulps];
    try contradiction.
  - intros _ Hu. f_equal. lia.
  - intros Hb Hu. pose proof (bounded_inv _ _ Hb) as (_ & _ & Hmin). f_equal.
    assert (Hv : Zpos m * 2 ^ (e + 1074) = Z.abs n * 2 ^ 1074 /\ s = (n <? 0)).
    { pose proof (pow2_pos (e + 1074) ltac:(lia)) as HQ.
      pose proof (pow2_pos 1074 ltac:(clear; lia)) as HP.
      remember (2 ^ 1074) as P eqn:EP. remember (2 ^ (e + 1074)) as Q eqn:EQ.
      clear EP EQ.
      destruct s; cbn [cond_Zopp] in Hu; destruct (Z.ltb_spec n 0); split;
        try reflexivity; nia. }
    destruct Hv as [Hv ->].
    assert (Ha : (if 0 <=? e then Zpos m * 2 ^ e else Zpos m / 2 ^ (- e)) = Z.abs n).
    { clear Hu Hb. pose proof (pow2_pos 1074 ltac:(clear; lia)) as HP.
      destruct (Z.leb_spec 0 e) as [He|He].
      - rewrite (Z.pow_add_r 2 e 1074 He ltac:(clear; lia)) in Hv.
        remember (2 ^ 1074) as P eqn:EP. clear EP.
        apply (Z.mul_reg_r _ _ P); [lia|]. rewrite <- Hv. ring.
      - pose proof (pow2_pos (e + 1074) ltac:(lia)) as HQ.
        pose proof (pow2_pos (- e) ltac:(lia)) as HR.
        assert (Hsplit : 2 ^ 1074 = 2 ^ (- e) * 2 ^ (e + 1074)).
        { rewrite <- Z.pow_add_r by lia. f_equal. lia. }
        rewrite Hsplit in Hv. clear Hsplit HP.
        assert (Hm : Zpos m = Z.abs n * 2 ^ (- e)).
        { apply (Z.mul_reg_r _ _ (2 ^ (e + 1074))); [lia|]. rewrite Hv. ring. }
        rewrite Hm. apply Z.div_mul. lia. }
    rewrite Ha. destruct (Z.ltb_spec n 0); lia.
Qed.


(** Ints of at most 53 binary digits: their doubles add and subtract
    without rounding. *)
Lemma double_of_Z_sub (a b : Z) :
  Z.abs a < 2 ^ 53 -> Z.abs b < 2 ^ 53 -> Z.abs (a - b) < 2 ^ 53 ->
  PrimFloat.sub (double_of_Z a) (double_of_Z b) = double_of_Z (a - b).
Proof.
  intros Ha Hb Hc.
  destruct (double_of_Z_grid a Ha) as [Ga Ua]. destruct (double_of_Z_grid b Hb) as [Gb Ub].
  destruct (double_of_Z_grid (a - b) Hc) as [Gc Uc].
  apply FloatAxioms.Prim2SF_inj. rewrite FloatAxioms.sub_spec.
  apply SFsub_exact; try assumption. rewrite Ua, Ub, Uc. ring.
Qed.

Lemma double_of_Z_add (a b : Z) :
  Z.abs a < 2 ^ 53 -> Z.abs b < 2 ^ 53 -> Z.abs (a + b) < 2 ^ 53 ->
  PrimFloat.add (double_of_Z a) (double_of_Z b) = double_of_Z (a + b).
Proof.
  intros Ha Hb Hc.
  destruct (double_of_Z_grid a Ha) as [Ga Ua]. destruct (double_of_Z_grid b Hb) as [Gb Ub].
  destruct (double_of_Z_grid (a + b) Hc) as [Gc Uc].
  apply FloatAxioms.Prim2SF_inj. rewrite FloatAxioms.add_spec.
  apply SFadd_exact; try assumption. rewrite Ua, Ub, Uc. ring.
Qed.

(** [fromtimestamp] on a whole number of seconds. *)
Lemma utc_fromtimestamp_whole (n : Z) :
  -62135596800 <= n <= 253402300799 ->
  utc_fromtimestamp (double_of_Z n) = Some {| seconds := n; microsecond := 0 |}.
Proof.
  intros Hn. assert (Habs : Z.abs n < 2 ^ 53) by lia.
  destruct (double_of_Z_grid n Habs) as [Gn Un].
  unfold utc_fromtimestamp. rewrite (truncate_grid _ n Gn Un).
  destruct (Z.ltb_spec n (- 2 ^ 63)); [lia|].
  destruct (Z.leb_spec (2 ^ 63) n); [lia|]. cbn [orb].
  rewrite double_of_Z_sub by (rewrite ?Z.sub_diag; lia). rewrite Z.sub_diag.
  assert (Hus : round_to_long (PrimFloat.mul (double_of_Z 0) (double_of_Z 1000000))
                = Some 0) by (vm_compute; reflexivity).
  rewrite Hus. cbn [Z.ltb Z.eqb Z.compare].
  destruct (Z.leb_spec (-62135596800) n); [|lia].
  destruct (Z.leb_spec n 253402300799); [|lia]. reflexivity.
Qed.

(** The doubles from the constant up to the end of the year 9999. *)
Lemma in_range_inv (t : double) :
  PrimFloat.leb (double_of_Z mac_abs_epoch) t = true ->
  PrimFloat.leb t (double_of_Z 253402300800) = true ->
  exists m k,
    FloatOps.Prim2SF t = S754_finite false m (k - 23) /\
    bounded FloatOps.prec FloatOps.emax m (k - 23) = true /\
    0 <= k <= 8 /\ 2 ^ 52 <= Zpos m < 2 ^ 53 /\
    3821625 * 2 ^ 31 <= Zpos m * 2 ^ k.
Proof.
  rewrite !FloatAxioms.leb_spec.
  assert (HE : FloatOps.Prim2SF (double_of_Z mac_abs_epoch)
               = S754_finite false 8206877196288000 (-23)) by (vm_compute; reflexivity).
  assert (HU : FloatOps.Prim2SF (double_of_Z 253402300800)
               = S754_finite false 8303486592614400 (-15)) by (vm_compute; reflexivity).
  rewrite HE, HU. clear HE HU.
  pose proof (FloatAxioms.Prim2SF_valid t) as Hv.
  unfold SFleb.
  destruct (FloatOps.Prim2SF t) as [s|s| |s m e]; cbn [SFcompare]; intros Hlo Hhi;
    try discriminate.
  - destruct s; discriminate.
  - destruct s; [discriminate|]. cbn [valid_binary] in Hv.
    pose proof (bounded_inv _ _ Hv) as (Hc & _ & _).
    assert (He : -23 <= e <= -15).
    { destruct (Z.compare_spec (-23) e); destruct (Z.compare_spec e (-15));
        try discriminate; lia. }
    pose proof (digits2_pos_bounds m) as Hd.
    assert (Hdig : Zpos (digits2_pos m) = 53).
    { unfold fexp in Hc. change (SpecFloat.emin FloatOps.prec FloatOps.emax) with (-1074) in Hc.
      change FloatOps.prec with 53 in Hc. lia. }
    rewrite Hdig in Hd. change (2 ^ (53 - 1)) with (2 ^ 52) in Hd.
    exists m, (e + 23). replace (e + 23 - 23) with e by lia.
    split; [reflexivity|]. split; [assumption|]. split; [lia|]. split; [assumption|].
    destruct (Z.compare_spec (-23) e) as [Heq|Hlt|Hgt]; try discriminate.
    + subst e. change (-23 + 23) with 0. change (2 ^ 0) with 1.
      fold (Pos.compare 8206877196288000 m) in Hlo.
      destruct (Pos.compare_spec 8206877196288000 m); try discriminate; lia.
    + assert (2 ^ 1 <= 2 ^ (e + 23)) by (apply Z.pow_le_mono_r; lia).
      change (2 ^ 1) with 2 in *. change (2 ^ 52) with 4503599627370496 in Hd.
      change (3821625 * 2 ^ 31) with 8206877196288000. nia.
Qed.


(** From the constant on, subtracting it and adding it again rounds
    nothing. *)
Lemma sub_add_epoch (t : double) :
  PrimFloat.leb (double_of_Z mac_abs_epoch) t = true ->
  PrimFloat.leb t (double_of_Z 253402300800) = true ->
  PrimFloat.add (PrimFloat.sub t (double_of_Z mac_abs_epoch))
                (double_of_Z mac_abs_epoch) = t.
Proof.
  intros Hlo Hhi.
  destruct (in_range_inv t Hlo Hhi) as (m & k & Ht & Hb & Hk & Hm & Hge).
  destruct (double_of_Z_grid mac_abs_epoch ltac:(unfold mac_abs_epoch; lia)) as [Gy Uy].
  set (y := FloatOps.Prim2SF (double_of_Z mac_abs_epoch)) in *.
  set (x := S754_finite false m (k - 23)).
  assert (Gx : grid x) by exact Hb.
  (* the powers of 2 at work *)
  pose proof (pow2_pos 1051 ltac:(clear; lia)) as HP.
  pose proof (pow2_pos k ltac:(lia)) as HK.
  pose proof (pow2_pos (31 - k) ltac:(lia)) as HL.
  assert (E1 : 2 ^ (k - 23 + 1074) = 2 ^ k * 2 ^ 1051).
  { rewrite <- Z.pow_add_r by lia. f_equal. lia. }
  assert (E2 : 2 ^ 1074 = 8388608 * 2 ^ 1051).
  { change 8388608 with (2 ^ 23). rewrite <- Z.pow_add_r by lia. reflexivity. }
  assert (E3 : 2 ^ (k + 1051) = 2 ^ k * 2 ^ 1051) by (apply Z.pow_add_r; lia).
  assert (E4 : 2 ^ (31 - k) * 2 ^ k = 2147483648).
  { rewrite <- Z.pow_add_r by lia. replace (31 - k + k) with 31 by lia. reflexivity. }
  assert (E5 : 2 ^ 31 = 2147483648) by reflexivity.
  assert (E6 : 2 ^ k <= 256).
  { change 256 with (2 ^ 8). apply Z.pow_le_mono_r; lia. }
  assert (Ux : ulps x = Zpos m * 2 ^ k * 2 ^ 1051).
  { unfold x. cbn [ulps cond_Zopp]. rewrite E1. ring. }
  unfold mac_abs_epoch in Uy. rewrite E2 in Uy. rewrite E5 in Hge.
  change (2 ^ 52) with 4503599627370496 in Hm.
  change (2 ^ 53) with 9007199254740992 in Hm.
  remember (2 ^ 1051) as P eqn:EP. remember (2 ^ k) as K eqn:EK.
  remember (2 ^ (31 - k)) as L eqn:EL.
  destruct (grid_exists (ulps x - ulps y) (Zpos m - 3821625 * L) (k + 1051))
    as (z & Gz & Uz).
  { rewrite Ux, Uy, E3.
    rewrite Z.abs_eq by nia.
    replace ((Zpos m - 3821625 * L) * (K * P))
      with (Zpos m * K * P - 3821625 * (L * K) * P) by ring.
    rewrite E4. ring. }
  { change (2 ^ 53) with 9007199254740992. nia. }
  { lia. }
  apply FloatAxioms.Prim2SF_inj.
  rewrite FloatAxioms.add_spec, FloatAxioms.sub_spec. fold y. rewrite Ht. fold x.
  unfold FloatAxioms.SF64add, FloatAxioms.SF64sub.
  rewrite (SFsub_exact x y z Gx Gy Gz Uz).
  apply SFadd_exact; try assumption. lia.
Qed.

(** A whole number of seconds in the years 1 to 9999, as a double. *)
Lemma dstamp_u_dstamp_whole (n : Z) :
  -62135596800 <= n <= 253402300799 ->
  (b <- @u_dstamp platform (@Float platform (double_of_Z n)) ;;
   @dstamp platform b 0)
  = Ok ({| seconds := n; microsecond := 0 |}, 8).
Proof.
  intros Hn. rewrite dstamp_u_dstamp_sum.
  rewrite double_of_Z_sub by (unfold mac_abs_epoch; lia).
  rewrite double_of_Z_add by (unfold mac_abs_epoch; lia).
  replace (n - mac_abs_epoch + mac_abs_epoch) with n by lia.
  rewrite utc_fromtimestamp_whole by assumption. reflexivity.
Qed.

(** C4, as the code has it.  [dstamp] returns a datetime, the one
    [datetime.fromtimestamp] makes of [(t - 978336000) + 978336000].  For
    every double [t] from the constant 978336000 up to the end of the year
    9999 the subtraction and the addition round nothing, so that sum is [t]
    itself and decoding the 8 bytes of [t] is [datetime.fromtimestamp(t)],
    with nothing lost on the way.  For every whole number of seconds in the
    years 1 to 9999, before the constant as well, it is the datetime at that
    second, with no microseconds. *)
Theorem dstamp_u_dstamp :
  (forall t : double,
     PrimFloat.leb (double_of_Z mac_abs_epoch) t = true ->
     PrimFloat.leb t (double_of_Z 253402300800) = true ->
     PrimFloat.add (PrimFloat.sub t (double_of_Z mac_abs_epoch))
                   (double_of_Z mac_abs_epoch) = t /\
     (b <- @u_dstamp platform (@Float platform t) ;; @dstamp platform b 0)
     = (dt <- or_raise (ValueError "timestamp out of range") (utc_fromtimestamp t) ;;
        Ok (dt, 8))) /\
  (forall n : Z,
     -62135596800 <= n <= 253402300799 ->
     (b <- @u_dstamp platform (@Float platform (double_of_Z n)) ;;
      @dstamp platform b 0)
     = Ok ({| seconds := n; microsecond := 0 |}, 8)).
Proof.
  split.
  - intros t Hlo Hhi. pose proof (sub_add_epoch t Hlo Hhi) as Hsum.
    split; [exact Hsum|]. rewrite dstamp_u_dstamp_sum, Hsum. reflexivity.
  - exact dstamp_u_dstamp_whole.
Qed.



End ReferenceFacts.

(** * Further properties

    What the readers and writers of [bincookies.py] do beyond the claims
    above: the primitives, then the three layers, then whole files. *)

(** ** The primitive readers and writers *)

(** X1.  From a position and with a count that are not negative, [bytes]
    returns exactly [n] bytes, those that follow [pos], and moves the
    cursor by [n]; it fails, with the out-of-input error, exactly when
    fewer than [n] bytes are left. *)
Theorem bytes_exact (data : list byte) (pos n : Z) :
  0 <= pos -> 0 <= n ->
  (pos + n <= len data ->
   exists v, bytes data pos n = Ok (v, pos + n) /\ len v = n /\
             v = firstn (Z.to_nat n) (skipn (Z.to_nat pos) data)) /\
  (len data < pos + n -> bytes data pos n = Raise (error OutOfInput)).
Proof.
  intros Hpos Hn. split.
  - intros Hfit. exists (slice data pos (pos + n)).
    split; [apply bytes_inside; assumption|]. split.
    + rewrite slice_length by lia. lia.
    + rewrite slice_inside by lia. f_equal. f_equal. lia.
  - intros Hout. unfold bytes.
    destruct (Z.gtb_spec (pos + n) (len data)); [reflexivity|lia].
Qed.

Lemma le_value_range (v : list byte) : 0 <= le_value v < 256 ^ len v.
Proof.
  induction v as [|b v IH]; [simpl; lia|].
  cbn [le_value]. rewrite len_cons.
  pose proof (byte_to_Z_range b). pose proof (len_nonneg v).
  replace (1 + len v) with (Z.succ (len v)) by lia.
  rewrite Z.pow_succ_r by lia. lia.
Qed.

Lemma unpack_I_range (v : list byte) (n : Z) :
  unpack_lt_I v = Ok n \/ unpack_gt_I v = Ok n -> 0 <= n <= 4294967295.
Proof.
  unfold unpack_lt_I, unpack_gt_I. intros [Hu|Hu];
    destruct (Nat.eqb_spec (length v) 4) as [Hl|]; try discriminate;
    injection Hu as <-.
  - pose proof (le_value_range v) as Hr. unfold len in Hr. rewrite Hl in Hr.
    change (256 ^ Z.of_nat 4) with 4294967296 in Hr. lia.
  - pose proof (le_value_range (rev v)) as Hr. unfold len in Hr.
    rewrite length_rev, Hl in Hr.
    change (256 ^ Z.of_nat 4) with 4294967296 in Hr. lia.
Qed.

Lemma bsize_range (data : list byte) (pos n pos' : Z) :
  bsize data pos = Ok (n, pos') -> 0 <= n <= 4294967295.
Proof.
  intros Hb. apply bsize_Ok_inv in Hb as (_ & Hu & _).
  eapply unpack_I_range. right. exact Hu.
Qed.

Lemma lsize_range (data : list byte) (pos n pos' : Z) :
  lsize data pos = Ok (n, pos') -> 0 <= n <= 4294967295.
Proof.
  intros Hb. apply lsize_Ok_inv in Hb as (_ & Hu & _).
  eapply unpack_I_range. left. exact Hu.
Qed.

(** From a position that is not negative the 4 bytes are there or the
    input is out: [struct.unpack] is given 4 bytes and rejects nothing. *)
Lemma lsize_Raise_nonneg (data : list byte) (pos : Z) (e : exn) :
  0 <= pos -> lsize data pos = Raise e -> e = error OutOfInput.
Proof.
  intros Hpos Hr. unfold lsize in Hr.
  apply bind_Raise_inv in Hr as [Hr | ([v p] & Hb & Hr)].
  - apply bytes_Raise_inv in Hr as [-> _]. reflexivity.
  - apply bytes_Ok_inv in Hb as (Hfit & -> & ->). cbv beta iota zeta in Hr.
    pose proof (slice_length data pos (pos + 4) Hpos ltac:(lia) Hfit) as Hl.
    unfold unpack_lt_I in Hr.
    replace (length (slice data pos (pos + 4))) with 4%nat in Hr
      by (unfold len in Hl; lia).
    discriminate.
Qed.

Lemma bsize_Raise_nonneg (data : list byte) (pos : Z) (e : exn) :
  0 <= pos -> bsize data pos = Raise e -> e = error OutOfInput.
Proof.
  intros Hpos Hr. unfold bsize in Hr.
  apply bind_Raise_inv in Hr as [Hr | ([v p] & Hb & Hr)].
  - apply bytes_Raise_inv in Hr as [-> _]. reflexivity.
  - apply bytes_Ok_inv in Hb as (Hfit & -> & ->). cbv beta iota zeta in Hr.
    pose proof (slice_length data pos (pos + 4) Hpos ltac:(lia) Hfit) as Hl.
    unfold unpack_gt_I in Hr.
    replace (length (slice data pos (pos + 4))) with 4%nat in Hr
      by (unfold len in Hl; lia).
    discriminate.
Qed.

(** X2.  A value from 0 to 0xFFFFFFFF written by [u_lsize] takes 4 bytes,
    and [lsize] reads it back, and moves the cursor by 4, wherever the 4
    bytes lie in a buffer. *)
Theorem lsize_u_lsize (pre post : list byte) (v : Z) :
  0 <= v <= 4294967295 ->
  exists b, u_lsize v = Ok b /\ len b = 4 /\
            lsize (pre ++ b ++ post) (len pre) = Ok (v, len pre + 4).
Proof.
  intros Hv. exists (le_bytes 4 v).
  split; [apply u_lsize_Ok; assumption|].
  split; [apply len_le_bytes|]. apply lsize_at. assumption.
Qed.

(** X3.  The same for the big-endian pair: a value from 0 to 0xFFFFFFFF
    written by [u_bsize] takes 4 bytes, and [bsize] reads it back wherever
    the 4 bytes lie in a buffer. *)
Theorem bsize_u_bsize (pre post : list byte) (v : Z) :
  0 <= v <= 4294967295 ->
  exists b, u_bsize v = Ok b /\ len b = 4 /\
            bsize (pre ++ b ++ post) (len pre) = Ok (v, len pre + 4).
Proof.
  intros Hv. exists (rev (le_bytes 4 v)). split; [|split].
  - unfold u_bsize, pack_gt_I.
    destruct (Z.ltb_spec v 0); [lia|].
    destruct (Z.leb_spec 0 v); [|lia].
    destruct (Z.leb_spec v 4294967295); [|lia]. reflexivity.
  - unfold len. rewrite length_rev, length_le_bytes. reflexivity.
  - apply bsize_at. assumption.
Qed.

(** X4.  On the same 4 bytes [lsize] and [bsize] read the two byte orders:
    [lsize] takes the first byte as the lowest, [bsize] the first byte as
    the highest; both values lie between 0 and 0xFFFFFFFF. *)
Theorem size_byte_order (pre post : list byte) (b0 b1 b2 b3 : byte) :
  let data := pre ++ [b0; b1; b2; b3] ++ post in
  let little := byte_to_Z b0 + 256 * byte_to_Z b1 + 65536 * byte_to_Z b2
                + 16777216 * byte_to_Z b3 in
  let big := byte_to_Z b3 + 256 * byte_to_Z b2 + 65536 * byte_to_Z b1
             + 16777216 * byte_to_Z b0 in
  lsize data (len pre) = Ok (little, len pre + 4) /\
  bsize data (len pre) = Ok (big, len pre + 4) /\
  0 <= little <= 4294967295 /\ 0 <= big <= 4294967295.
Proof.
  intros data little big.
  pose proof (byte_to_Z_range b0). pose proof (byte_to_Z_range b1).
  pose proof (byte_to_Z_range b2). pose proof (byte_to_Z_range b3).
  assert (Hb : bytes data (len pre) 4 = Ok ([b0; b1; b2; b3], len pre + 4)).
  { apply (bytes_in data pre [b0; b1; b2; b3] post); reflexivity. }
  split; [|split; [|split]].
  - unfold lsize. rewrite Hb. cbn [bind]. unfold unpack_lt_I.
    cbn [length Nat.eqb bind le_value]. f_equal. f_equal. unfold little. lia.
  - unfold bsize. rewrite Hb. cbn [bind]. unfold unpack_gt_I.
    cbn [length Nat.eqb bind rev app le_value]. f_equal. f_equal. unfold big. lia.
  - unfold little. lia.
  - unfold big. lia.
Qed.

Lemma upto0_nozero (l : list byte) : nozero (upto0 l).
Proof.
  unfold nozero. induction l as [|c l IH]; simpl; [tauto|].
  destruct (Strings.Byte.eqb c x00) eqn:Hc; [simpl; tauto|].
  intros [Heq|Hin]; [|auto]. apply byte_eqb_neq in Hc. congruence.
Qed.

Lemma upto0_split (l : list byte) :
  exists rest, l = upto0 l ++ rest /\ (rest = [] \/ exists rest', rest = x00 :: rest').
Proof.
  induction l as [|c l (rest & Hl & Hrest)]; [exists []; auto|].
  simpl. destruct (Strings.Byte.eqb c x00) eqn:Hc.
  - apply byte_eqb_eq in Hc. subst c. exists (x00 :: l). split; [reflexivity|eauto].
  - exists rest. split; [simpl; congruence|assumption].
Qed.

(** X5.  From a position that is not negative [zstr] raises nothing: it
    returns the bytes from [pos] up to the first zero byte, or up to the
    end of the buffer if no zero byte follows; the string it returns holds
    no zero byte, and it is empty when [pos] is at or past the end. *)
Theorem zstr_result (data : list byte) (pos : Z) :
  0 <= pos ->
  exists s rest,
    zstr data pos = Ok s /\ nozero s /\
    skipn (Z.to_nat pos) data = s ++ rest /\
    (rest = [] \/ exists rest', rest = x00 :: rest') /\
    (len data <= pos -> s = []).
Proof.
  intros Hpos. destruct (upto0_split (skipn (Z.to_nat pos) data)) as (rest & Hl & Hrest).
  exists (upto0 (skipn (Z.to_nat pos) data)), rest.
  split; [apply zstr_spec; assumption|]. split; [apply upto0_nozero|].
  split; [assumption|]. split; [assumption|].
  intros Hend. rewrite skipn_all2 by (unfold len in Hend; lia). reflexivity.
Qed.

Lemma u_zstr_NUL (s : list byte) :
  In x00 s -> u_zstr s = Raise (ValueError "string contains NUL").
Proof.
  intros Hin. unfold u_zstr.
  assert (Ht : existsb (Strings.Byte.eqb x00) s = true).
  { apply existsb_exists. exists x00. split; [assumption|].
    apply byte_eqb_eq. reflexivity. }
  rewrite Ht. reflexivity.
Qed.

(** X6.  A string without zero byte written by [u_zstr] is read back by
    [zstr] wherever its bytes lie in a buffer, whatever follows them. *)
Theorem zstr_u_zstr (pre post s : list byte) :
  nozero s ->
  exists b, u_zstr s = Ok b /\ zstr (pre ++ b ++ post) (len pre) = Ok s.
Proof.
  intros Hs. exists (s ++ [x00]). split; [apply u_zstr_Ok; assumption|].
  rewrite <- app_assoc. apply zstr_at. assumption.
Qed.

Lemma times_length (data : list byte) (c : Z) :
  0 <= c -> len (times data c) = c * len data.
Proof.
  intros Hc. unfold times.
  rewrite <- (Z2Nat.id c) at 2 by assumption.
  generalize (Z.to_nat c). intros k. induction k as [|k IH].
  - reflexivity.
  - cbn [repeat concat]. rewrite len_app, IH. lia.
Qed.

Lemma nth_error_times (data : list byte) (k : nat) (i : nat) :
  (i < k * length data)%nat ->
  nth_error (concat (repeat data k)) i = nth_error data (i mod length data).
Proof.
  revert i. induction k as [|k IH]; intros i Hi; [simpl in Hi; lia|].
  cbn [repeat concat].
  assert (Hd : (0 < length data)%nat) by (destruct data; simpl in *; lia).
  destruct (Nat.lt_ge_cases i (length data)) as [Hlt|Hge].
  - rewrite nth_error_app1 by assumption. rewrite Nat.mod_small by assumption.
    reflexivity.
  - rewrite nth_error_app2 by assumption. rewrite IH by (simpl in Hi; lia).
    f_equal.
    replace i with ((i - length data) + 1 * length data)%nat at 2 by lia.
    rewrite Nat.Div0.mod_add. reflexivity.
Qed.

(** X7.  [u_bytes] fills [n] bytes with [data] repeated: byte [i] of the
    result is byte [i mod len(data)] of [data].  With empty [data] the
    division by its length raises ZeroDivisionError. *)
Theorem u_bytes_cycle (data : list byte) (n : Z) :
  (data = [] -> u_bytes data n = Raise ZeroDivisionError) /\
  (data <> [] -> 0 <= n ->
   exists b, u_bytes data n = Ok b /\ len b = n /\
     forall i, 0 <= i < n ->
       nth_error b (Z.to_nat i) = nth_error data (Z.to_nat (i mod len data))).
Proof.
  split.
  - intros ->. reflexivity.
  - intros Hne Hn.
    assert (Hd : 0 < len data).
    { destruct data; [contradiction|].
      rewrite len_cons. pose proof (len_nonneg data). lia. }
    unfold u_bytes. destruct (Z.eqb_spec (len data) 0); [lia|].
    pose proof (Z.mod_pos_bound n (len data) Hd) as Hm.
    pose proof (Z.div_pos n (len data) Hn Hd) as Hq.
    pose proof (Z.div_mod n (len data) ltac:(lia)) as Hdm.
    set (q := n / len data) in *. set (r := n mod len data) in *.
    eexists. split; [reflexivity|].
    assert (Hs : slice data 0 r = firstn (Z.to_nat r) data).
    { rewrite slice_inside by lia. rewrite Z.sub_0_r. reflexivity. }
    assert (Hlen_t : len (times data q) = q * len data)
      by (apply times_length; assumption).
    split.
    + rewrite len_app, Hlen_t. rewrite slice_length by lia. lia.
    + intros i Hi.
      destruct (Z.lt_ge_cases i (q * len data)) as [Hlt|Hge].
      * rewrite nth_error_app1 by (unfold len in *; lia).
        unfold times. rewrite nth_error_times by (unfold len in *; nia).
        f_equal. unfold len. rewrite Z2Nat.inj_mod by lia. rewrite Nat2Z.id.
        reflexivity.
      * rewrite nth_error_app2 by (unfold len in *; lia).
        rewrite Hs.
        assert (Hrem : i mod len data = i - q * len data).
        { symmetry. apply (Z.mod_unique _ _ q); lia. }
        rewrite Hrem.
        replace (Z.to_nat i - length (times data q))%nat
          with (Z.to_nat (i - q * len data)) by (unfold len in *; lia).
        rewrite nth_error_firstn.
        destruct (Nat.ltb_spec (Z.to_nat (i - q * len data)) (Z.to_nat r));
          [reflexivity|lia].
Qed.

(** ** More of the file layer *)

Lemma bsizes_Ok_inv (k : nat) (data : list byte) (pos : Z) (vs : list Z) (pos' : Z) :
  bsizes k data pos = Ok (vs, pos') ->
  length vs = k /\ pos' = pos + 4 * Z.of_nat k /\
  Forall (fun v => 0 <= v <= 4294967295) vs /\ (k <> 0%nat -> pos' <= len data).
Proof.
  revert pos vs pos'. induction k as [|k IH]; simpl; intros pos vs pos' Ho.
  - injection Ho as <- <-. repeat split; [lia|constructor|congruence].
  - apply bind_Ok_inv in Ho as ([v p] & Hv & Ho). cbv beta iota zeta in Ho.
    apply bind_Ok_inv in Ho as ([vs' p'] & Hvs & Ho). cbv beta iota zeta in Ho.
    injection Ho as <- <-.
    pose proof (bsize_range _ _ _ _ Hv) as Hr.
    apply bsize_Ok_inv in Hv as (Hfit & _ & ->).
    apply IH in Hvs as (<- & -> & Hall & Hend).
    repeat split; [lia|constructor; assumption|].
    intros _. destruct (length vs') eqn:Hk; [lia|]. apply Hend. congruence.
Qed.

Lemma bsizes_Raise_nonneg (k : nat) (data : list byte) (pos : Z) (e : exn) :
  0 <= pos -> bsizes k data pos = Raise e -> e = error OutOfInput.
Proof.
  revert pos. induction k as [|k IH]; simpl; intros pos Hpos Hr; [discriminate|].
  apply bind_Raise_inv in Hr as [Hr | ([v p] & Hv & Hr)].
  - eapply bsize_Raise_nonneg; eauto.
  - cbv beta iota zeta in Hr. apply bsize_Ok_inv in Hv as (_ & _ & ->).
    apply bind_Raise_inv in Hr as [Hr | ([vs p'] & _ & Hr)]; [|discriminate].
    apply (IH (pos + 4)); [lia|assumption].
Qed.

Lemma head_Ok_inv (data : list byte) (pos : Z) (vs : list Z) (pos' : Z) :
  head data pos = Ok (vs, pos') ->
  bsize data pos = Ok (len vs, pos + 4) /\
  len vs <= len data /\ pos' = pos + 4 + 4 * len vs /\ pos' <= len data /\
  Forall (fun v => 0 <= v <= 4294967295) vs.
Proof.
  unfold head. intros Ho.
  apply bind_Ok_inv in Ho as ([n p] & Hb & Ho). cbv beta iota zeta in Ho.
  pose proof (bsize_range _ _ _ _ Hb) as Hn.
  pose proof Hb as Hb'. apply bsize_Ok_inv in Hb' as (Hfit & _ & ->).
  destruct (Z.gtb_spec n (len data)); [discriminate|].
  apply bsizes_Ok_inv in Ho as (Hl & -> & Hall & Hend).
  rewrite Z2Nat.id in * by lia.
  assert (Hlen : len vs = n) by (unfold len; lia).
  rewrite Hlen. split; [assumption|]. split; [lia|]. split; [lia|].
  split; [|assumption].
  destruct (Z.eq_dec n 0) as [->|Hne]; [lia|]. apply Hend. lia.
Qed.

(** X8.  [head] reads the count of pages, then as many sizes.  A count
    above the length of the buffer is refused with the sanity-bound error
    before any size is read; when [head] returns, it has read exactly
    [count] sizes, each between 0 and 0xFFFFFFFF, from [4 + 4 * count]
    bytes that all lie in the buffer. *)
Theorem head_result (data : list byte) (pos n p : Z) :
  bsize data pos = Ok (n, p) ->
  (len data < n -> head data pos = Raise (error SanityBoundExceeded)) /\
  (forall vs pos', head data pos = Ok (vs, pos') ->
     n <= len data /\ len vs = n /\ pos' = pos + 4 + 4 * n /\ pos' <= len data /\
     Forall (fun v => 0 <= v <= 4294967295) vs).
Proof.
  intros Hb. split.
  - intros Hbig. unfold head. rewrite Hb. cbn [bind].
    destruct (Z.gtb_spec n (len data)); [reflexivity|lia].
  - intros vs pos' Ho.
    apply head_Ok_inv in Ho as (Hb' & Hle & -> & Hfit & Hall).
    rewrite Hb in Hb'. injection Hb' as -> _.
    repeat split; try assumption; lia.
Qed.

Lemma spans_contiguous (vs : list Z) (pos : Z) :
  Forall (fun v => 0 <= v) vs ->
  contiguous pos (pos + total vs) (fst (spans vs pos)).
Proof.
  intros Hvs. revert pos. induction Hvs as [|v vs Hv Hvs IH]; intros pos.
  - simpl. lia.
  - cbn [spans total fold_right]. specialize (IH (pos + v)).
    destruct (spans vs (pos + v)) as [rest last]. cbn [fst contiguous] in *.
    split; [reflexivity|]. split; [assumption|].
    fold (total vs). replace (pos + (v + total vs)) with (pos + v + total vs) by lia.
    exact IH.
Qed.

Lemma contiguous_le (lo hi : Z) (cs : list (Z * Z)) : contiguous lo hi cs -> lo <= hi.
Proof.
  revert lo. induction cs as [|[s n] cs IH]; simpl; intros lo H; [lia|].
  destruct H as (_ & Hn & H). apply IH in H. lia.
Qed.

Lemma contiguous_inside (lo hi : Z) (cs : list (Z * Z)) :
  contiguous lo hi cs ->
  Forall (fun '(s, n) => lo <= s /\ 0 <= n /\ s + n <= hi) cs.
Proof.
  revert lo. induction cs as [|[s n] cs IH]; simpl; intros lo H; [constructor|].
  destruct H as (-> & Hn & H). pose proof (contiguous_le _ _ _ H).
  constructor; [lia|].
  eapply Forall_impl; [|apply (IH _ H)]. intros [s' n']. lia.
Qed.

Lemma slice_app_slice {A : Type} (data : list A) (i j k : Z) :
  0 <= i -> i <= j -> j <= k -> k <= len data ->
  slice data i j ++ slice data j k = slice data i k.
Proof.
  intros Hi Hij Hjk Hk. rewrite !slice_inside by lia.
  rewrite <- (firstn_skipn (Z.to_nat (j - i))
                (firstn (Z.to_nat (k - i)) (skipn (Z.to_nat i) data))).
  rewrite firstn_firstn.
  replace (Nat.min (Z.to_nat (j - i)) (Z.to_nat (k - i))) with (Z.to_nat (j - i))
    by lia.
  f_equal. rewrite skipn_firstn_comm, skipn_skipn. f_equal; [lia|f_equal; lia].
Qed.

Lemma slices_concat (data : list byte) (lo hi : Z) (cs : list (Z * Z)) :
  contiguous lo hi cs -> 0 <= lo -> hi <= len data ->
  concat (map (fun '(s, n) => slice data s (s + n)) cs) = slice data lo hi.
Proof.
  revert lo. induction cs as [|[s n] cs IH]; simpl; intros lo H Hlo Hhi.
  - subst. rewrite slice_inside by lia. rewrite Z.sub_diag. reflexivity.
  - destruct H as (-> & Hn & H). pose proof (contiguous_le _ _ _ H).
    rewrite (IH (lo + n)) by (assumption || lia).
    apply slice_app_slice; lia.
Qed.

Lemma cfile_Ok_inv (data : list byte) (pos : Z) (pages : list (Z * Z))
    (ck : list byte) (pos' : Z) :
  0 <= pos ->
  cfile data pos = Ok ((pages, ck), pos') ->
  slice data pos (pos + 4) = FILE_MAGIC /\
  bsize data (pos + 4) = Ok (len pages, pos + 8) /\
  contiguous (pos + 8 + 4 * len pages) (len data - 8) pages /\
  ck = slice data (len data - 8) (len data) /\
  pos' = len data.
Proof.
  intros Hpos Hc. unfold cfile in Hc.
  apply bind_Ok_inv in Hc as ([magic p1] & Hm & Hc). cbv beta iota zeta in Hc.
  apply bytes_Ok_inv in Hm as (Hfit1 & -> & ->).
  destruct (list_eq_dec Strings.Byte.byte_eq_dec _ FILE_MAGIC) as [Hmagic|];
    [|discriminate].
  apply bind_Ok_inv in Hc as ([vs p2] & Hh & Hc). cbv beta iota zeta in Hc.
  apply head_Ok_inv in Hh as (Hn & Hnle & -> & Hp2 & Hall).
  pose proof (spans_end vs (pos + 4 + 4 + 4 * len vs)) as Hend.
  pose proof (spans_length vs (pos + 4 + 4 + 4 * len vs)) as Hsl.
  assert (Hcont : contiguous (pos + 4 + 4 + 4 * len vs)
                    (pos + 4 + 4 + 4 * len vs + total vs)
                    (fst (spans vs (pos + 4 + 4 + 4 * len vs)))).
  { apply spans_contiguous. eapply Forall_impl; [|exact Hall]. cbv beta. intros; lia. }
  destruct (spans vs (pos + 4 + 4 + 4 * len vs)) as [pgs pend]. cbn [fst snd] in *.
  apply bind_Ok_inv in Hc as ([ck' p3] & Hck & Hc). cbv beta iota zeta in Hc.
  apply bytes_Ok_inv in Hck as (Hfit3 & -> & ->).
  destruct (Z.eqb_spec (pend + 8) (len data)) as [Heq|]; [|discriminate].
  injection Hc as <- <- <-.
  assert (Hpl : len pgs = len vs) by (unfold len; lia).
  assert (Hpend : pend = len data - 8) by lia.
  split; [assumption|]. split; [|split; [|split]].
  - rewrite Hpl. replace (pos + 8) with (pos + 4 + 4) by lia. assumption.
  - rewrite Hpl, <- Hpend, Hend.
    replace (pos + 8 + 4 * len vs) with (pos + 4 + 4 + 4 * len vs) by lia.
    exact Hcont.
  - rewrite Hpend. f_equal. lia.
  - assumption.
Qed.

(** X9.  When [cfile] returns, the buffer is a file: the magic at [pos],
    the count of pages after it, and after the table of sizes the pages
    themselves, one range for each, in order, without gap or overlap, each
    inside the buffer, up to the last 8 bytes, which are returned as the
    checksum; the cursor is at the end of the buffer. *)
Theorem cfile_result (data : list byte) (pos : Z) (pages : list (Z * Z))
    (ck : list byte) (pos' : Z) :
  0 <= pos ->
  cfile data pos = Ok ((pages, ck), pos') ->
  slice data pos (pos + 4) = FILE_MAGIC /\
  bsize data (pos + 4) = Ok (len pages, pos + 8) /\
  contiguous (pos + 8 + 4 * len pages) (len data - 8) pages /\
  Forall (fun '(s, n) => pos + 8 + 4 * len pages <= s /\ 0 <= n /\
                         s + n <= len data - 8) pages /\
  ck = slice data (len data - 8) (len data) /\ len ck = 8 /\
  pos' = len data.
Proof.
  intros Hpos Hc.
  apply cfile_Ok_inv in Hc as (Hmagic & Hcount & Hcont & Hck & Hend); [|assumption].
  pose proof (contiguous_le _ _ _ Hcont). pose proof (len_nonneg pages).
  repeat split; try assumption.
  - apply contiguous_inside. assumption.
  - rewrite Hck, slice_length by lia. lia.
Qed.

Lemma cfile_Raise_nonneg (data : list byte) (pos : Z) (e : exn) :
  0 <= pos -> cfile data pos = Raise e ->
  e = error OutOfInput \/ e = error FileMagicMismatch \/
  e = error SanityBoundExceeded \/ e = error IncompleteParse.
Proof.
  intros Hpos Hr. unfold cfile in Hr.
  apply bind_Raise_inv in Hr as [Hr | ([magic p1] & Hm & Hr)].
  { apply bytes_Raise_inv in Hr as [-> _]. auto. }
  cbv beta iota zeta in Hr. apply bytes_Ok_inv in Hm as (_ & _ & ->).
  destruct (list_eq_dec Strings.Byte.byte_eq_dec magic FILE_MAGIC);
    [|injection Hr as <-; auto].
  apply bind_Raise_inv in Hr as [Hr | ([vs p2] & Hh & Hr)].
  { unfold head in Hr.
    apply bind_Raise_inv in Hr as [Hr | ([n q] & Hn & Hr)].
    - apply bsize_Raise_nonneg in Hr as ->; [auto|lia].
    - cbv beta iota zeta in Hr. apply bsize_Ok_inv in Hn as (_ & _ & ->).
      destruct (n >? len data); [injection Hr as <-; auto|].
      apply bsizes_Raise_nonneg in Hr as ->; [auto|lia]. }
  cbv beta iota zeta in Hr. destruct (spans vs p2) as [pages pend].
  apply bind_Raise_inv in Hr as [Hr | ([ck p3] & _ & Hr)].
  { apply bytes_Raise_inv in Hr as [-> _]. auto. }
  cbv beta iota zeta in Hr. destruct (p3 =? len data); [discriminate|].
  injection Hr as <-. auto.
Qed.

(** X10.  [parse_raw_pages] loses nothing of a file it accepts: the file is
    its magic, the count and the sizes of the pages, the raw pages in the
    order returned, and the 8 bytes returned as the checksum; the count in
    the header is the number of pages returned. *)
Theorem parse_raw_pages_reassemble (data : list byte) (raws : list (list byte))
    (ck : list byte) :
  parse_raw_pages data = Ok (raws, ck) ->
  data = FILE_MAGIC ++ slice data 4 (8 + 4 * len raws) ++ concat raws ++ ck /\
  bsize data 4 = Ok (len raws, 8) /\ len ck = 8.
Proof.
  unfold parse_raw_pages. intros Hp.
  apply bind_Ok_inv in Hp as ([[pages ck'] p] & Hc & Hp). cbv beta iota zeta in Hp.
  injection Hp as <- <-.
  apply cfile_Ok_inv in Hc as (Hmagic & Hcount & Hcont & Hck & _); [|lia].
  change (0 + 4) with 4 in *. change (0 + 8) with 8 in *.
  assert (Hlen : len (map (fun '(s, n) => slice data s (s + n)) pages) = len pages)
    by (unfold len; rewrite length_map; reflexivity).
  rewrite Hlen.
  pose proof (len_nonneg pages). pose proof (contiguous_le _ _ _ Hcont).
  split; [|split; [assumption|rewrite Hck, slice_length by lia; lia]].
  rewrite (slices_concat data _ _ pages Hcont) by lia.
  rewrite Hck, <- Hmagic.
  rewrite (slice_app_slice data (8 + 4 * len pages)) by lia.
  rewrite (slice_app_slice data 4) by lia.
  rewrite (slice_app_slice data 0) by lia.
  rewrite slice_inside by lia. rewrite Z.sub_0_r. unfold len. rewrite Nat2Z.id.
  cbn [Z.to_nat skipn]. symmetry. apply firstn_all.
Qed.

(** ** More of the page layer *)

Lemma lsizes_Ok_inv (k : nat) (data : list byte) (pos : Z) (vs : list Z) (pos' : Z) :
  lsizes k data pos = Ok (vs, pos') ->
  length vs = k /\ pos' = pos + 4 * Z.of_nat k /\
  Forall (fun v => 0 <= v <= 4294967295) vs /\ (k <> 0%nat -> pos' <= len data).
Proof.
  revert pos vs pos'. induction k as [|k IH]; simpl; intros pos vs pos' Ho.
  - injection Ho as <- <-. repeat split; [lia|constructor|congruence].
  - apply bind_Ok_inv in Ho as ([v p] & Hv & Ho). cbv beta iota zeta in Ho.
    apply bind_Ok_inv in Ho as ([vs' p'] & Hvs & Ho). cbv beta iota zeta in Ho.
    injection Ho as <- <-.
    pose proof (lsize_range _ _ _ _ Hv) as Hr.
    apply lsize_Ok_inv in Hv as (Hfit & _ & ->).
    apply IH in Hvs as (<- & -> & Hall & Hend).
    repeat split; [lia|constructor; assumption|].
    intros _. destruct (length vs') eqn:Hk; [lia|]. apply Hend. congruence.
Qed.

Lemma lsizes_Raise_nonneg (k : nat) (data : list byte) (pos : Z) (e : exn) :
  0 <= pos -> lsizes k data pos = Raise e -> e = error OutOfInput.
Proof.
  revert pos. induction k as [|k IH]; simpl; intros pos Hpos Hr; [discriminate|].
  apply bind_Raise_inv in Hr as [Hr | ([v p] & Hv & Hr)].
  - eapply lsize_Raise_nonneg; eauto.
  - cbv beta iota zeta in Hr. apply lsize_Ok_inv in Hv as (_ & _ & ->).
    apply bind_Raise_inv in Hr as [Hr | ([vs p'] & _ & Hr)]; [|discriminate].
    apply (IH (pos + 4)); [lia|assumption].
Qed.

Lemma index_last_Some (xs : list Z) :
  xs <> [] -> exists x, index xs (-1) = Some x.
Proof.
  intros Hne. destruct (exists_last Hne) as (ys & y & ->).
  exists y. apply index_last.
Qed.

Lemma deltas_contiguous (base x : Z) (xs : list Z) :
  StronglySorted Z.le (x :: xs) ->
  contiguous (x + base) (last (x :: xs) x + base) (deltas base (x :: xs)).
Proof.
  revert x. induction xs as [|y ys IH]; intros x Hs.
  - simpl. reflexivity.
  - rewrite deltas_cons. cbn [contiguous].
    inversion Hs as [|? ? Hs' Hall]; subst.
    inversion Hall as [|? ? Hxy _]; subst.
    split; [reflexivity|]. split; [lia|].
    replace (x + base + (y - x)) with (y + base) by lia.
    change (last (x :: y :: ys) x) with (last (y :: ys) x).
    rewrite (last_default (y :: ys) x y) by discriminate.
    apply IH. assumption.
Qed.

(** What [page] has read when it returns: the marker, the count [n], [n]
    offsets and the zero that follows them; the ranges come from the
    offsets and the size, sorted. *)
Lemma page_Ok_inv (data : list byte) (pos size : Z) (cs : list (Z * Z)) (pos' : Z) :
  page data pos size = Ok (cs, pos') ->
  exists n offs,
    bsize data pos = Ok (PAGE_MAGIC, pos + 4) /\
    lsize data (pos + 4) = Ok (n, pos + 8) /\
    len offs = n /\
    Forall (fun o => 0 <= o <= 4294967295) offs /\
    pos' = pos + 12 + 4 * n /\ pos' <= len data /\
    cs = deltas pos (sort (offs ++ [if size =? 0 then len data else size])).
Proof.
  unfold page. intros Hp.
  apply bind_Ok_inv in Hp as ([magic p1] & Hm & Hp). cbv beta iota zeta in Hp.
  destruct (Z.eqb_spec magic PAGE_MAGIC) as [->|]; [|discriminate].
  apply bind_Ok_inv in Hp as ([xs p2] & Hh & Hp). cbv beta iota zeta in Hp.
  injection Hp as <- <-.
  pose proof Hm as Hm'. apply bsize_Ok_inv in Hm' as (_ & _ & ->).
  unfold phead in Hh.
  apply bind_Ok_inv in Hh as ([n p3] & Hn & Hh). cbv beta iota zeta in Hh.
  pose proof (lsize_range _ _ _ _ Hn) as Hnr.
  pose proof Hn as Hn'. apply lsize_Ok_inv in Hn' as (_ & _ & ->).
  apply bind_Ok_inv in Hh as ([ys p4] & Hys & Hh). cbv beta iota zeta in Hh.
  destruct (index ys (-1)) as [y|]; [|discriminate].
  destruct (Z.eqb_spec y 0); [|discriminate]. injection Hh as <- <-.
  apply lsizes_Ok_inv in Hys as (Hlen & -> & Hall & Hfit).
  specialize (Hfit ltac:(lia)). rewrite Z2Nat.id in Hfit by lia.
  assert (Hys_ne : ys <> []) by (intros ->; simpl in Hlen; lia).
  destruct (exists_last Hys_ne) as (front & z & ->).
  rewrite set_last_snoc.
  exists n, front.
  rewrite length_app in Hlen. simpl in Hlen.
  apply Forall_app in Hall as [Hfront _].
  repeat split; try assumption.
  - replace (pos + 8) with (pos + 4 + 4) by lia. assumption.
  - unfold len. lia.
  - lia.
  - lia.
Qed.

(** X11.  When [page] returns, whatever the offsets in the header are, it
    has read the marker, the count [n] and [n + 1] entries, all inside the
    buffer, and it returns exactly [n] ranges that follow one another
    without gap or overlap, none of negative length. *)
Theorem page_result (data : list byte) (pos size : Z) (cs : list (Z * Z)) (pos' : Z) :
  page data pos size = Ok (cs, pos') ->
  exists n lo hi,
    bsize data pos = Ok (PAGE_MAGIC, pos + 4) /\
    lsize data (pos + 4) = Ok (n, pos + 8) /\
    len cs = n /\ pos' = pos + 12 + 4 * n /\ pos' <= len data /\
    contiguous (pos + lo) (pos + hi) cs.
Proof.
  intros Hp.
  apply page_Ok_inv in Hp as (n & offs & Hm & Hn & Hlen & Hall & Hpos' & Hfit & ->).
  set (stop := if size =? 0 then len data else size).
  set (zs := sort (offs ++ [stop])).
  assert (Hperm : Permutation zs (offs ++ [stop])) by apply sort_perm.
  assert (Hsorted : StronglySorted Z.le zs) by apply sort_sorted.
  assert (Hzl : length zs = S (length offs)).
  { rewrite (Permutation_length Hperm), length_app. simpl. lia. }
  destruct zs as [|z0 zs'] eqn:Hzs; [discriminate|].
  exists n, z0, (last (z0 :: zs') z0).
  repeat split; try assumption.
  - unfold len in *. rewrite deltas_length, Hzl. lia.
  - pose proof (deltas_contiguous pos z0 zs' Hsorted) as Hc.
    rewrite (Z.add_comm pos z0), (Z.add_comm pos (last (z0 :: zs') z0)).
    exact Hc.
Qed.

Lemma deltas_In (base : Z) (xs : list Z) (s n : Z) :
  In (s, n) (deltas base xs) -> exists x, In x xs /\ s = x + base.
Proof.
  unfold deltas. intros Hin. apply in_map_iff in Hin as (i & Heq & Hi).
  apply in_seq in Hi. injection Heq as <- _.
  exists (nth i xs 0). split; [|reflexivity]. apply nth_In. lia.
Qed.

(** The ranges of a page of a size that is not negative start at or after
    the page. *)
Lemma page_Ok_starts (data : list byte) (pos size : Z) (cs : list (Z * Z)) (pos' : Z) :
  0 <= size -> page data pos size = Ok (cs, pos') ->
  Forall (fun '(s, n) => pos <= s) cs.
Proof.
  intros Hsize Hp.
  apply page_Ok_inv in Hp as (n & offs & _ & _ & _ & Hall & _ & _ & ->).
  apply Forall_forall. intros [s k] Hin.
  apply deltas_In in Hin as (x & Hx & ->).
  apply (Permutation_in _ (sort_perm _)) in Hx.
  apply in_app_or in Hx as [Hx|[<-|[]]].
  - rewrite Forall_forall in Hall. specialize (Hall _ Hx). lia.
  - pose proof (len_nonneg data). destruct (size =? 0); lia.
Qed.

Lemma page_Raise_nonneg (data : list byte) (pos size : Z) (e : exn) :
  0 <= pos -> page data pos size = Raise e ->
  e = error OutOfInput \/ e = error PageMagicMismatch \/ e = NameError "ck".
Proof.
  intros Hpos Hr. unfold page in Hr.
  apply bind_Raise_inv in Hr as [Hr | ([magic p1] & Hm & Hr)].
  { apply bsize_Raise_nonneg in Hr as ->; auto. }
  cbv beta iota zeta in Hr. apply bsize_Ok_inv in Hm as (_ & _ & ->).
  destruct (magic =? PAGE_MAGIC); [|injection Hr as <-; auto].
  apply bind_Raise_inv in Hr as [Hr | ([xs p2] & _ & Hr)]; [|discriminate].
  unfold phead in Hr.
  apply bind_Raise_inv in Hr as [Hr | ([n p3] & Hn & Hr)].
  { apply lsize_Raise_nonneg in Hr as ->; [auto|lia]. }
  cbv beta iota zeta in Hr. pose proof (lsize_range _ _ _ _ Hn) as Hnr.
  apply lsize_Ok_inv in Hn as (_ & _ & ->).
  apply bind_Raise_inv in Hr as [Hr | ([ys p4] & Hys & Hr)].
  { apply lsizes_Raise_nonneg in Hr as ->; [auto|lia]. }
  cbv beta iota zeta in Hr.
  apply lsizes_Ok_inv in Hys as (Hlen & _).
  destruct (index_last_Some ys) as [y Hy]; [intros ->; simpl in Hlen; lia|].
  rewrite Hy in Hr. destruct (y =? 0); [discriminate|]. injection Hr as <-. auto.
Qed.

(** ** More of the cookie layer *)

Lemma skipn_keeps_last {A : Type} (l : list A) (x : A) (n : nat) :
  (n <= length l)%nat -> In x (skipn n (l ++ [x])).
Proof.
  intros Hn. rewrite skipn_app. apply in_or_app. right.
  replace (n - length l)%nat with 0%nat by lia. left. reflexivity.
Qed.

Section CookieMore.
Context `{Platform}.

Lemma dstamp_Raise_nonneg (data : list byte) (pos : Z) (e : exn) :
  0 <= pos -> dstamp data pos = Raise e ->
  e = error OutOfInput \/ e = ValueError "timestamp out of range".
Proof.
  intros Hpos Hr. unfold dstamp in Hr.
  apply bind_Raise_inv in Hr as [Hr | ([raw p] & Hb & Hr)].
  { apply bytes_Raise_inv in Hr as [-> _]. auto. }
  cbv beta iota zeta in Hr. apply bytes_Ok_inv in Hb as (Hfit & -> & ->).
  pose proof (slice_length data pos (pos + 8) Hpos ltac:(lia) Hfit) as Hl.
  unfold struct_unpack_lt_d in Hr.
  replace (length (slice data pos (pos + 8))) with 8%nat in Hr
    by (unfold len in Hl; lia).
  cbn [Nat.eqb bind] in Hr.
  apply bind_Raise_inv in Hr as [Hr | (dt & _ & Hr)]; [|discriminate].
  destruct (fromtimestamp _); simpl in Hr; [discriminate|]. injection Hr as <-. auto.
Qed.

Lemma cookie_Raise_nonneg (data : list byte) (pos size : Z) (e : exn) :
  0 <= pos -> cookie data pos size = Raise e ->
  e = error OutOfInput \/ e = error SizeMismatch \/
  e = ValueError "timestamp out of range".
Proof.
  intros Hpos Hr. unfold cookie in Hr.
  apply bind_Raise_inv in Hr as [Hr | ([n p] & Hn & Hr)].
  { apply lsize_Raise_nonneg in Hr as ->; auto. }
  cbv beta iota zeta in Hr. apply lsize_Ok_inv in Hn as (_ & _ & ->).
  destruct (n =? _); [|injection Hr as <-; auto].
  apply bind_Raise_inv in Hr as [Hr | ([pad p] & Hb & Hr)].
  { apply bytes_Raise_inv in Hr as [-> _]. auto. }
  cbv beta iota zeta in Hr. apply bytes_Ok_inv in Hb as (_ & _ & ->).
  apply bind_Raise_inv in Hr as [Hr | ([o1 p] & Ho1 & Hr)].
  { apply lsize_Raise_nonneg in Hr as ->; [auto|lia]. }
  cbv beta iota zeta in Hr. pose proof (lsize_range _ _ _ _ Ho1).
  apply lsize_Ok_inv in Ho1 as (_ & _ & ->).
  apply bind_Raise_inv in Hr as [Hr | ([o2 p] & Ho2 & Hr)].
  { apply lsize_Raise_nonneg in Hr as ->; [auto|lia]. }
  cbv beta iota zeta in Hr. pose proof (lsize_range _ _ _ _ Ho2).
  apply lsize_Ok_inv in Ho2 as (_ & _ & ->).
  apply bind_Raise_inv in Hr as [Hr | ([o3 p] & Ho3 & Hr)].
  { apply lsize_Raise_nonneg in Hr as ->; [auto|lia]. }
  cbv beta iota zeta in Hr. pose proof (lsize_range _ _ _ _ Ho3).
  apply lsize_Ok_inv in Ho3 as (_ & _ & ->).
  apply bind_Raise_inv in Hr as [Hr | ([o4 p] & Ho4 & Hr)].
  { apply lsize_Raise_nonneg in Hr as ->; [auto|lia]. }
  cbv beta iota zeta in Hr. pose proof (lsize_range _ _ _ _ Ho4).
  apply lsize_Ok_inv in Ho4 as (_ & _ & ->).
  apply bind_Raise_inv in Hr as [Hr | ([pad2 p] & Hb & Hr)].
  { apply bytes_Raise_inv in Hr as [-> _]. auto. }
  cbv beta iota zeta in Hr. apply bytes_Ok_inv in Hb as (_ & _ & ->).
  apply bind_Raise_inv in Hr as [Hr | ([ex p] & He & Hr)].
  { apply dstamp_Raise_nonneg in Hr as [->| ->]; auto; lia. }
  cbv beta iota zeta in Hr. apply dstamp_Ok_pos in He as ->.
  apply bind_Raise_inv in Hr as [Hr | ([cr p] & Hc & Hr)].
  { apply dstamp_Raise_nonneg in Hr as [->| ->]; auto; lia. }
  cbv beta iota zeta in Hr.
  rewrite !zstr_spec in Hr by lia. cbn [bind] in Hr. discriminate.
Qed.

(** X12.  A cookie that [cookie] returns from a position that is not
    negative: the size field at [pos] holds the expected size (the length
    of the buffer when the size given is 0), the 56 bytes of the fixed part
    lie in the buffer, none of the four strings holds a zero byte, and both
    timestamps are datetimes. *)
Theorem cookie_result (data : list byte) (pos size : Z) (r : CookieRecord) :
  0 <= pos -> cookie data pos size = Ok r ->
  lsize data pos = Ok (if size =? 0 then len data else size, pos + 4) /\
  pos + 56 <= len data /\
  nozero_fields r /\
  (exists c, Created r = Datetime c) /\ (exists x, Expires r = Datetime x).
Proof.
  intros Hpos Hc. unfold cookie in Hc.
  apply bind_Ok_inv in Hc as ([n p] & Hn & Hc). cbv beta iota zeta in Hc.
  pose proof Hn as Hn'. apply lsize_Ok_inv in Hn' as (_ & _ & ->).
  destruct (Z.eqb_spec n (if size =? 0 then len data else size)) as [Heq|];
    [|discriminate].
  rewrite Heq in Hn.
  apply bind_Ok_inv in Hc as ([pad p] & Hb & Hc). cbv beta iota zeta in Hc.
  apply bytes_Ok_inv in Hb as (_ & _ & ->).
  apply bind_Ok_inv in Hc as ([o1 p] & Ho1 & Hc). cbv beta iota zeta in Hc.
  pose proof (lsize_range _ _ _ _ Ho1). apply lsize_Ok_inv in Ho1 as (_ & _ & ->).
  apply bind_Ok_inv in Hc as ([o2 p] & Ho2 & Hc). cbv beta iota zeta in Hc.
  pose proof (lsize_range _ _ _ _ Ho2). apply lsize_Ok_inv in Ho2 as (_ & _ & ->).
  apply bind_Ok_inv in Hc as ([o3 p] & Ho3 & Hc). cbv beta iota zeta in Hc.
  pose proof (lsize_range _ _ _ _ Ho3). apply lsize_Ok_inv in Ho3 as (_ & _ & ->).
  apply bind_Ok_inv in Hc as ([o4 p] & Ho4 & Hc). cbv beta iota zeta in Hc.
  pose proof (lsize_range _ _ _ _ Ho4). apply lsize_Ok_inv in Ho4 as (_ & _ & ->).
  apply bind_Ok_inv in Hc as ([pad2 p] & Hb & Hc). cbv beta iota zeta in Hc.
  apply bytes_Ok_inv in Hb as (_ & _ & ->).
  apply bind_Ok_inv in Hc as ([ex p] & He & Hc). cbv beta iota zeta in Hc.
  apply dstamp_Ok_pos in He as ->.
  apply bind_Ok_inv in Hc as ([cr p] & Hcr & Hc). cbv beta iota zeta in Hc.
  pose proof Hcr as Hcr'. apply dstamp_Ok_pos in Hcr' as ->.
  unfold dstamp in Hcr. apply bind_Ok_inv in Hcr as ([raw q] & Hraw & _).
  apply bytes_Ok_inv in Hraw as (Hfit & _ & _).
  rewrite !zstr_spec in Hc by lia. cbn [bind] in Hc. injection Hc as <-.
  split; [assumption|]. split; [lia|]. split.
  - unfold nozero_fields. cbn [Domain Name Path Value].
    repeat split; apply upto0_nozero.
  - cbn [Created Expires]. eauto.
Qed.

(** X13.  [u_cookie] ends with the ValueError of [u_zstr] exactly when one
    of the four strings of the cookie holds a zero byte. *)
Theorem u_cookie_NUL (r : CookieRecord) :
  u_cookie r = Raise (ValueError "string contains NUL") <->
  In x00 (Domain r) \/ In x00 (Name r) \/ In x00 (Path r) \/ In x00 (Value r).
Proof.
  assert (Hdec : forall s, {In x00 s} + {nozero s}).
  { intros s. destruct (in_dec Strings.Byte.byte_eq_dec x00 s); [left|right];
      assumption. }
  split.
  - intros Hr.
    destruct (Hdec (Domain r)) as [|Hd]; [auto|].
    destruct (Hdec (Name r)) as [|Hn]; [auto|].
    destruct (Hdec (Path r)) as [|Hp]; [auto|].
    destruct (Hdec (Value r)) as [|Hv]; [auto|]. exfalso.
    unfold u_cookie in Hr. rewrite !u_zstr_Ok in Hr by assumption. cbn [bind] in Hr.
    pose proof (len_nonneg (Domain r)). pose proof (len_nonneg (Name r)).
    pose proof (len_nonneg (Path r)). pose proof (len_nonneg (Value r)).
    assert (Hl : forall v e, u_lsize v = Raise e -> 0 <= v -> e = StructError).
    { intros v e. unfold u_lsize, pack_lt_I. destruct (Z.ltb_spec v 0); [lia|].
      destruct (_ && _); congruence. }
    assert (Hd' : forall t e, u_dstamp t = Raise e ->
                              e = OverflowError \/ e = AttributeError).
    { intros [n|fl|d] e; simpl.
      - destruct (_ && _); [|intros [= <-]; auto].
        destruct (float_of_int _); simpl; [discriminate|intros [= <-]; auto].
      - discriminate.
      - destruct (mktime_timetuple _); simpl; [discriminate|intros [= <-]; auto]. }
    rewrite !len_snoc in Hr.
    apply bind_Raise_inv in Hr as [Hr | (? & _ & Hr)];
      [apply Hl in Hr; [discriminate|lia]|].
    change (u_bytes [x00] 12) with (Ok (repeat x00 12)) in Hr.
    change (u_bytes [x00] 8) with (Ok (repeat x00 8)) in Hr. cbn [bind] in Hr.
    repeat (apply bind_Raise_inv in Hr as [Hr | (? & _ & Hr)];
            [ first [ apply Hl in Hr; [discriminate|lia]
                    | apply Hd' in Hr as [Hr|Hr]; discriminate ] | ]).
    discriminate.
  - intros Hin. unfold u_cookie.
    destruct (Hdec (Domain r)) as [Hd|Hd];
      [rewrite (u_zstr_NUL _ Hd); reflexivity|].
    rewrite (u_zstr_Ok _ Hd). cbn [bind].
    destruct (Hdec (Name r)) as [Hn|Hn];
      [rewrite (u_zstr_NUL _ Hn); reflexivity|].
    rewrite (u_zstr_Ok _ Hn). cbn [bind].
    destruct (Hdec (Path r)) as [Hp|Hp];
      [rewrite (u_zstr_NUL _ Hp); reflexivity|].
    rewrite (u_zstr_Ok _ Hp). cbn [bind].
    destruct (Hdec (Value r)) as [Hv|Hv];
      [rewrite (u_zstr_NUL _ Hv); reflexivity|].
    unfold nozero in *. tauto.
Qed.

(** The four offsets in the header of a packet. *)
Lemma packet_offsets (r : CookieRecord) (exp cre : list byte) :
  encoded_size r <= 4294967295 ->
  length exp = 8%nat -> length cre = 8%nat ->
  let pkt := packet r exp cre in
  lsize pkt 16 = Ok (56, 20) /\
  lsize pkt 20 = Ok (56 + (len (Domain r) + 1), 24) /\
  lsize pkt 24 = Ok (56 + (len (Domain r) + 1) + (len (Name r) + 1), 28) /\
  lsize pkt 28 = Ok (56 + (len (Domain r) + 1) + (len (Name r) + 1)
                        + (len (Path r) + 1), 32).
Proof.
  intros Hsize Hexp Hcre pkt.
  unfold encoded_size in Hsize.
  pose proof (len_nonneg (Domain r)). pose proof (len_nonneg (Name r)).
  pose proof (len_nonneg (Path r)). pose proof (len_nonneg (Value r)).
  assert (Hpkt : pkt = packet r exp cre) by reflexivity.
  unfold packet in Hpkt.
  set (f_size := le_bytes 4 (encoded_size r)) in Hpkt.
  set (pad12 := repeat x00 12) in Hpkt.
  set (f_host := le_bytes 4 56) in Hpkt.
  set (f_name := le_bytes 4 (56 + (len (Domain r) + 1))) in Hpkt.
  set (f_path := le_bytes 4 (56 + (len (Domain r) + 1) + (len (Name r) + 1))) in Hpkt.
  set (f_val := le_bytes 4 (56 + (len (Domain r) + 1) + (len (Name r) + 1)
                               + (len (Path r) + 1))) in Hpkt.
  rewrite <- !app_assoc in Hpkt.
  assert (L0 : len f_size = 4) by apply len_le_bytes.
  assert (L1 : len pad12 = 12) by apply len_repeat.
  assert (L2 : len f_host = 4) by apply len_le_bytes.
  assert (L3 : len f_name = 4) by apply len_le_bytes.
  assert (L4 : len f_path = 4) by apply len_le_bytes.
  clearbody pkt.
  repeat split.
  - eapply (lsize_in pkt (f_size ++ pad12) _ 56 16 20); field_side Hpkt.
  - eapply (lsize_in pkt (f_size ++ pad12 ++ f_host) _ _ 20 24); field_side Hpkt.
  - eapply (lsize_in pkt (f_size ++ pad12 ++ f_host ++ f_name) _ _ 24 28);
      field_side Hpkt.
  - eapply (lsize_in pkt (f_size ++ pad12 ++ f_host ++ f_name ++ f_path) _ _ 28 32);
      field_side Hpkt.
Qed.

Lemma packet_terminated (r : CookieRecord) (exp cre : list byte) :
  encoded_size r <= 4294967295 ->
  length exp = 8%nat -> length cre = 8%nat ->
  strings_terminated (packet r exp cre).
Proof.
  intros Hsize Hexp Hcre.
  destruct (packet_offsets r exp cre Hsize Hexp Hcre) as (H16 & H20 & H24 & H28).
  pose proof (len_packet r exp cre Hexp Hcre) as Hlen. unfold encoded_size in Hlen.
  pose proof (len_nonneg (Domain r)). pose proof (len_nonneg (Name r)).
  pose proof (len_nonneg (Path r)). pose proof (len_nonneg (Value r)).
  assert (Hlast : exists body, packet r exp cre = body ++ [x00]).
  { unfold packet. eexists. rewrite !app_assoc. reflexivity. }
  destruct Hlast as [body Hbody].
  assert (Hb : len (packet r exp cre) = len body + 1)
    by (rewrite Hbody, len_app; reflexivity).
  assert (Hin : forall off, 0 <= off < len (packet r exp cre) ->
                            In x00 (skipn (Z.to_nat off) (packet r exp cre))).
  { intros off Hoff. rewrite Hbody. apply skipn_keeps_last.
    unfold len in Hb, Hoff. clear - Hb Hoff.
    apply Nat2Z.inj_le. rewrite Z2Nat.id by lia. lia. }
  intros k off p Hk Hl. cbn [In] in Hk.
  destruct Hk as [<-|[<-|[<-|[<-|[]]]]].
  - apply Hin. rewrite H16 in Hl. replace off with 56 by congruence. lia.
  - apply Hin. rewrite H20 in Hl.
    replace off with (56 + (len (Domain r) + 1)) by congruence. lia.
  - apply Hin. rewrite H24 in Hl.
    replace off with (56 + (len (Domain r) + 1) + (len (Name r) + 1)) by congruence.
    lia.
  - apply Hin. rewrite H28 in Hl.
    replace off with (56 + (len (Domain r) + 1) + (len (Name r) + 1)
                         + (len (Path r) + 1)) by congruence.
    lia.
Qed.

(** A packet written by [u_cookie] has the 56 bytes of the fixed part and
    holds the terminator of each of its four strings. *)
Lemma u_cookie_record (r : CookieRecord) (pkt : list byte) :
  u_cookie r = Ok pkt -> 56 <= len pkt /\ strings_terminated pkt.
Proof.
  intros Hu. apply u_cookie_Ok_inv in Hu as (_ & Hsize & exp & cre & He & Hc & ->).
  apply u_dstamp_length in He. apply u_dstamp_length in Hc.
  split.
  - rewrite len_packet by assumption. unfold encoded_size.
    pose proof (len_nonneg (Domain r)). pose proof (len_nonneg (Name r)).
    pose proof (len_nonneg (Path r)). pose proof (len_nonneg (Value r)). lia.
  - apply packet_terminated; assumption.
Qed.

(** X14.  A packet written by [u_cookie] decodes where it lies as it does
    on its own: between any bytes before it and any bytes after it,
    [cookie] at its offset and with its length gives what [cookie] gives
    on the packet alone. *)
Theorem cookie_u_cookie_in_place (r : CookieRecord) (pkt pre post : list byte) :
  u_cookie r = Ok pkt ->
  cookie (pre ++ pkt ++ post) (len pre) (len pkt) = cookie pkt 0 0.
Proof.
  intros Hu. apply u_cookie_record in Hu as [Hlen Hterm].
  apply cookie_shift; assumption.
Qed.

End CookieMore.

(** ** Whole files *)

Lemma traverse_app {A B : Type} (f : A -> result B) (xs ys : list A) :
  traverse f (xs ++ ys)
  = (a <- traverse f xs ;; b <- traverse f ys ;; Ok (a ++ b)).
Proof.
  induction xs as [|x xs IH]; cbn [app traverse bind].
  - destruct (traverse f ys); reflexivity.
  - destruct (f x) as [y|e]; cbn [bind]; [|reflexivity].
    rewrite IH. destruct (traverse f xs) as [a|e]; cbn [bind]; [|reflexivity].
    destruct (traverse f ys); reflexivity.
Qed.

Lemma traverse_concat {A B : Type} (g : A -> result B) (xss : list (list A)) :
  (per <- traverse (traverse g) xss ;; Ok (concat per)) = traverse g (concat xss).
Proof.
  induction xss as [|xs xss IH]; [reflexivity|].
  cbn [traverse concat]. rewrite traverse_app, <- IH.
  destruct (traverse g xs) as [a|e]; cbn [bind]; [|reflexivity].
  destruct (traverse (traverse g) xss) as [per|e]; reflexivity.
Qed.

Lemma traverse_Ok {A : Type} (xs : list A) : traverse (@Ok A) xs = Ok xs.
Proof. induction xs as [|x xs IH]; cbn [traverse bind]; [|rewrite IH]; reflexivity. Qed.

Lemma traverse_Raise_inv {A B : Type} (f : A -> result B) (xs : list A) (e : exn) :
  traverse f xs = Raise e -> exists x, In x xs /\ f x = Raise e.
Proof.
  induction xs as [|x xs IH]; cbn [traverse]; [discriminate|]. intros Hr.
  apply bind_Raise_inv in Hr as [Hr | (y & _ & Hr)]; [exists x; simpl; auto|].
  apply bind_Raise_inv in Hr as [Hr | (ys & _ & Hr)]; [|discriminate].
  destruct (IH Hr) as (x' & Hin & Hx'). exists x'. simpl. auto.
Qed.

Section Parse.
Context `{Platform}.

(** X15.  Whenever [parse_cookies] returns, [parse_raw_cookies] returns
    too, with as many raw records in the same order: each cookie is what
    [cookie] decodes in place from the range of which the raw record is
    the slice. *)
Theorem parse_cookies_raw (data : list byte) (cs : list CookieRecord) :
  parse_cookies data = Ok cs ->
  exists raws,
    parse_raw_cookies data = Ok raws /\
    Forall2 (fun raw c => exists p s, raw = slice data p (p + s) /\
                                      cookie data p s = Ok c)
            raws cs.
Proof.
  unfold parse_cookies, parse_raw_cookies. intros Hp.
  apply bind_Ok_inv in Hp as ([[pages ck] pos] & Hc & Hp). rewrite Hc. cbn [bind].
  cbv beta iota zeta in Hp.
  apply bind_Ok_inv in Hp as (per & Ht & Hp). injection Hp as <-.
  clear Hc. revert per Ht. induction pages as [|[s n] pages IH]; intros per Ht.
  - cbn [traverse] in *. injection Ht as <-. exists []. split; [reflexivity|constructor].
  - cbn [traverse] in *.
    apply bind_Ok_inv in Ht as (cs1 & H1 & Ht).
    apply bind_Ok_inv in Ht as (per' & Hrest & Ht). injection Ht as <-.
    apply bind_Ok_inv in H1 as ([pg q] & Hpage & H1). cbv beta iota zeta in H1.
    rewrite Hpage. cbn [bind].
    destruct (IH per' Hrest) as (raws & Hraw & Hall).
    apply bind_Ok_inv in Hraw as (rawper & Hraw & Heq). injection Heq as <-.
    rewrite Hraw. cbn [bind concat].
    eexists. split; [reflexivity|].
    apply Forall2_app; [|exact Hall].
    clear - H1. revert cs1 H1. induction pg as [|[p s'] pg IHpg]; intros cs1 H1.
    + cbn [traverse] in H1. injection H1 as <-. constructor.
    + cbn [traverse] in H1.
      apply bind_Ok_inv in H1 as (c & Hc & H1).
      apply bind_Ok_inv in H1 as (cs' & Hcs & H1). injection H1 as <-.
      cbn [map]. constructor; [exists p, s'; auto|]. apply IHpg. exact Hcs.
Qed.

End Parse.

(** *** Files laid out page by page *)

Lemma len_concat (chunks : list (list byte)) : len (concat chunks) = total (map len chunks).
Proof.
  induction chunks as [|c cs IH]; [reflexivity|].
  cbn [concat map total fold_right]. rewrite len_app, IH. reflexivity.
Qed.

Lemma total_nonneg (chunks : list (list byte)) : 0 <= total (map len chunks).
Proof. rewrite <- len_concat. apply len_nonneg. Qed.

Lemma len_starts (lo : Z) (chunks : list (list byte)) : len (starts lo chunks) = len chunks.
Proof.
  unfold len. f_equal. revert lo.
  induction chunks as [|c cs IH]; intros lo; simpl; [|rewrite IH]; reflexivity.
Qed.

Lemma starts_bounds (lo : Z) (chunks : list (list byte)) :
  Forall (fun o => lo <= o <= lo + total (map len chunks)) (starts lo chunks).
Proof.
  revert lo. induction chunks as [|c cs IH]; intros lo; simpl; [constructor|].
  pose proof (len_nonneg c). pose proof (total_nonneg cs).
  fold (total (map len cs)).
  constructor; [lia|].
  eapply Forall_impl; [|apply IH]. cbv beta. intros; lia.
Qed.

Lemma starts_sorted (lo : Z) (chunks : list (list byte)) :
  StronglySorted Z.le (starts lo chunks ++ [lo + total (map len chunks)]).
Proof.
  revert lo. induction chunks as [|c cs IH]; intros lo; simpl.
  - repeat constructor.
  - fold (total (map len cs)). pose proof (len_nonneg c). pose proof (total_nonneg cs).
    constructor.
    + replace (lo + (len c + total (map len cs)))
        with (lo + len c + total (map len cs)) by lia.
      apply IH.
    + apply Forall_app. split.
      * eapply Forall_impl; [|apply starts_bounds]. cbv beta. intros; lia.
      * repeat constructor. lia.
Qed.

Lemma deltas_starts (base lo : Z) (chunks : list (list byte)) :
  deltas base (starts lo chunks ++ [lo + total (map len chunks)])
  = fst (spans (map len chunks) (lo + base)).
Proof.
  revert lo. induction chunks as [|c cs IH]; intros lo.
  - reflexivity.
  - cbn [starts map total fold_right app spans]. fold (total (map len cs)).
    specialize (IH (lo + len c)).
    replace (lo + (len c + total (map len cs)))
      with (lo + len c + total (map len cs)) by lia.
    destruct (starts (lo + len c) cs ++ [lo + len c + total (map len cs)])
      as [|y ys] eqn:Hy.
    { destruct (starts (lo + len c) cs); discriminate. }
    rewrite deltas_cons, IH.
    assert (y = lo + len c) as ->.
    { destruct cs; simpl in Hy; injection Hy as <- _; [simpl; lia|reflexivity]. }
    replace (lo + len c + base) with (lo + base + len c) by lia.
    destruct (spans (map len cs) (lo + base + len c)) as [rest last]. cbn [fst].
    f_equal. f_equal. lia.
Qed.

(** Slices along the ranges of consecutive chunks give the chunks back. *)
Lemma slices_of_spans (data pre post : list byte) (chunks : list (list byte)) :
  data = pre ++ concat chunks ++ post ->
  map (fun '(s, n) => slice data s (s + n)) (fst (spans (map len chunks) (len pre)))
  = chunks.
Proof.
  revert pre. induction chunks as [|c cs IH]; intros pre Hdata; [reflexivity|].
  cbn [map spans]. specialize (IH (pre ++ c)).
  rewrite len_app in IH.
  destruct (spans (map len cs) (len pre + len c)) as [rest last]. cbn [fst map] in *.
  f_equal.
  - rewrite Hdata. cbn [concat]. rewrite <- app_assoc. apply slice_app_middle.
  - apply IH. rewrite Hdata. cbn [concat]. rewrite <- !app_assoc. reflexivity.
Qed.

(** A function of the ranges of consecutive chunks that depends on the
    chunk alone, and not on where it lies, runs over the chunks. *)
Lemma traverse_chunks {I B : Type} (data : list byte) (f : Z * Z -> result B)
    (h : I -> list byte) (g : I -> result B) (items : list I) (pre post : list byte) :
  Forall (fun it => forall pre' post', data = pre' ++ h it ++ post' ->
                                       f (len pre', len (h it)) = g it) items ->
  data = pre ++ concat (map h items) ++ post ->
  traverse f (fst (spans (map len (map h items)) (len pre))) = traverse g items.
Proof.
  intros Hall. revert pre.
  induction Hall as [|it items Hit Hitems IH]; intros pre Hdata.
  - reflexivity.
  - cbn [map spans]. specialize (IH (pre ++ h it)). rewrite len_app in IH.
    destruct (spans (map len (map h items)) (len pre + len (h it))) as [rest last].
    cbn [fst traverse] in *.
    rewrite (Hit pre (concat (map h items) ++ post))
      by (rewrite Hdata; cbn [map concat]; rewrite <- app_assoc; reflexivity).
    rewrite IH; [reflexivity|].
    rewrite Hdata. cbn [map concat]. rewrite <- !app_assoc. reflexivity.
Qed.

Lemma bsizes_at (pre post : list byte) (vs : list Z) :
  Forall (fun v => 0 <= v <= 4294967295) vs ->
  bsizes (length vs)
         (pre ++ concat (map (fun v => rev (le_bytes 4 v)) vs) ++ post) (len pre)
  = Ok (vs, len pre + 4 * len vs).
Proof.
  intros Hvs. revert pre. induction Hvs as [|v vs Hv Hvs IH]; intros pre.
  - cbn [length bsizes]. f_equal. f_equal. change (len []) with 0. lia.
  - cbn [length bsizes map concat]. rewrite <- app_assoc.
    rewrite bsize_at by assumption. cbn [bind].
    specialize (IH (pre ++ rev (le_bytes 4 v))).
    assert (Hl : len (pre ++ rev (le_bytes 4 v)) = len pre + 4).
    { rewrite len_app. unfold len at 2. rewrite length_rev, length_le_bytes.
      reflexivity. }
    rewrite Hl in IH. rewrite <- !app_assoc in IH. rewrite IH. cbn [bind].
    rewrite len_cons. f_equal. f_equal. lia.
Qed.

Lemma len_rev_le_bytes_4 (z : Z) : len (rev (le_bytes 4 z)) = 4.
Proof. unfold len. rewrite length_rev, length_le_bytes. reflexivity. Qed.

Lemma len_page_header (offs : list Z) : len (page_header offs) = 12 + 4 * len offs.
Proof.
  unfold page_header. rewrite !len_app, len_table, len_le_bytes, len_rev_le_bytes_4.
  change (len (le_bytes 4 0)) with 4. lia.
Qed.

Lemma len_page_of (packets : list (list byte)) :
  len (page_of packets) = 12 + 4 * len packets + total (map len packets).
Proof.
  unfold page_of. rewrite len_app, len_page_header, len_starts, len_concat.
  reflexivity.
Qed.

Lemma len_size_table (pages : list (list byte)) :
  len (concat (map (fun p => rev (le_bytes 4 (len p))) pages)) = 4 * len pages.
Proof.
  induction pages as [|p ps IH]; [reflexivity|].
  cbn [map concat]. rewrite len_app, len_rev_le_bytes_4, IH, len_cons. lia.
Qed.

Lemma len_file_of (pages : list (list byte)) (ck : list byte) :
  len (file_of pages ck) = 8 + 4 * len pages + total (map len pages) + len ck.
Proof.
  unfold file_of. rewrite !len_app, len_rev_le_bytes_4, len_size_table, len_concat.
  change (len FILE_MAGIC) with 4. lia.
Qed.

Lemma file_of_split (pages : list (list byte)) (ck : list byte) :
  file_of pages ck
  = (FILE_MAGIC ++ rev (le_bytes 4 (len pages))
       ++ concat (map (fun p => rev (le_bytes 4 (len p))) pages))
    ++ concat pages ++ ck
  /\ len (FILE_MAGIC ++ rev (le_bytes 4 (len pages))
          ++ concat (map (fun p => rev (le_bytes 4 (len p))) pages))
     = 8 + 4 * len pages.
Proof.
  split.
  - unfold file_of. rewrite <- !app_assoc. reflexivity.
  - rewrite !len_app, len_rev_le_bytes_4, len_size_table.
    change (len FILE_MAGIC) with 4. lia.
Qed.

(** The ranges [cfile] reads from a file laid out by [file_of]. *)
Lemma cfile_file_of (pages : list (list byte)) (ck : list byte) :
  len pages <= 4294967295 ->
  Forall (fun p => len p <= 4294967295) pages ->
  len ck = 8 ->
  cfile (file_of pages ck) 0
  = Ok ((fst (spans (map len pages) (8 + 4 * len pages)), ck),
        len (file_of pages ck)).
Proof.
  intros Hcount Hsizes Hck.
  pose proof (len_nonneg pages) as Hn. pose proof (total_nonneg pages) as Ht.
  pose proof (len_file_of pages ck) as Hlen.
  unfold cfile.
  rewrite (bytes_in (file_of pages ck) [] FILE_MAGIC
             (rev (le_bytes 4 (len pages))
              ++ concat (map (fun p => rev (le_bytes 4 (len p))) pages)
              ++ concat pages ++ ck) 0 4 4); try reflexivity.
  cbn [bind].
  destruct (list_eq_dec Strings.Byte.byte_eq_dec FILE_MAGIC FILE_MAGIC) as [_|Hne];
    [|contradiction].
  assert (Hhead : head (file_of pages ck) 4 = Ok (map len pages, 8 + 4 * len pages)).
  { unfold head, file_of.
    change 4 with (len FILE_MAGIC) at 1. rewrite bsize_at by lia. cbn [bind].
    fold (file_of pages ck).
    destruct (Z.gtb_spec (len pages) (len (file_of pages ck))); [lia|].
    unfold file_of. unfold len at 1. rewrite Nat2Z.id.
    rewrite <- (length_map (@len byte) pages).
    rewrite <- (map_map (@len byte) (fun v => rev (le_bytes 4 v)) pages).
    pose proof (bsizes_at (FILE_MAGIC ++ rev (le_bytes 4 (len pages)))
                  (concat pages ++ ck) (map len pages)) as Hb.
    rewrite len_app, len_rev_le_bytes_4 in Hb. rewrite <- !app_assoc in Hb.
    rewrite Hb.
    - f_equal. f_equal. change (len FILE_MAGIC) with 4.
      unfold len. rewrite length_map. lia.
    - apply Forall_map. eapply Forall_impl; [|exact Hsizes]. cbv beta.
      intros p Hp. pose proof (len_nonneg p). lia. }
  rewrite Hhead. cbn [bind].
  pose proof (spans_end (map len pages) (8 + 4 * len pages)) as Hend.
  destruct (spans (map len pages) (8 + 4 * len pages)) as [ranges pend].
  cbn [fst snd] in *.
  rewrite (bytes_in (file_of pages ck)
             (FILE_MAGIC ++ rev (le_bytes 4 (len pages))
              ++ concat (map (fun p => rev (le_bytes 4 (len p))) pages)
              ++ concat pages)
             ck [] pend 8 (len (file_of pages ck))).
  - cbn [bind]. rewrite Z.eqb_refl. reflexivity.
  - unfold file_of. rewrite app_nil_r, <- !app_assoc. reflexivity.
  - rewrite !len_app, len_rev_le_bytes_4, len_size_table, len_concat.
    change (len FILE_MAGIC) with 4. lia.
  - assumption.
  - lia.
Qed.

(** The ranges [page] reads from a page laid out by [page_of], wherever the
    page lies. *)
Lemma page_of_in (data pre post : list byte) (packets : list (list byte)) :
  len (page_of packets) <= 4294967295 ->
  data = pre ++ page_of packets ++ post ->
  page data (len pre) (len (page_of packets))
  = Ok (fst (spans (map len packets)
               (len (pre ++ page_header (starts (12 + 4 * len packets) packets)))),
        len pre + (12 + 4 * len packets))
  /\ data = (pre ++ page_header (starts (12 + 4 * len packets) packets))
            ++ concat packets ++ post.
Proof.
  intros Hfit ->. split; [|unfold page_of; rewrite <- !app_assoc; reflexivity].
  pose proof Hfit as Hfit'. rewrite len_page_of in Hfit'.
  pose proof (len_nonneg packets). pose proof (total_nonneg packets).
  rewrite len_app, len_page_header, len_starts.
  set (hdr := 12 + 4 * len packets) in *.
  unfold page_of. fold hdr. rewrite <- app_assoc.
  pose proof (page_at pre (concat packets ++ post) (starts hdr packets)
                (len (page_header (starts hdr packets) ++ concat packets))) as Hp.
  cbv zeta in Hp. rewrite len_starts in Hp. rewrite Hp; clear Hp.
  - assert (Hsize : len (page_header (starts hdr packets) ++ concat packets)
                    = hdr + total (map len packets)).
    { rewrite len_app, len_page_header, len_starts, len_concat. reflexivity. }
    rewrite Hsize. destruct (Z.eqb_spec (hdr + total (map len packets)) 0); [lia|].
    f_equal. f_equal.
    rewrite (sorted_perm_unique _ _ (sort_sorted _) (starts_sorted hdr packets)
               (sort_perm _)).
    rewrite deltas_starts. f_equal. f_equal. lia.
  - lia.
  - eapply Forall_impl; [|apply starts_bounds]. cbv beta. intros; lia.
Qed.

(** X16.  Pages laid out in a file come back from [parse_raw_pages] as
    they were, in order, with the 8 bytes that end the file: for any byte
    strings as pages, as long as their count and each of their lengths fit
    the 4 bytes of their fields. *)
Theorem parse_raw_pages_file_of (pages : list (list byte)) (ck : list byte) :
  len pages <= 4294967295 ->
  Forall (fun p => len p <= 4294967295) pages ->
  len ck = 8 ->
  parse_raw_pages (file_of pages ck) = Ok (pages, ck).
Proof.
  intros Hcount Hsizes Hck. unfold parse_raw_pages.
  rewrite cfile_file_of by assumption. cbn [bind].
  destruct (file_of_split pages ck) as [Hdata Hpre].
  rewrite <- Hpre. erewrite slices_of_spans; [reflexivity|exact Hdata].
Qed.

(** X17.  Records laid out in pages, and the pages in a file, come back
    from [parse_raw_cookies] as they were, page after page, in order: for
    any byte strings as records, as long as the count of the pages and the
    length of each page fit the 4 bytes of their fields. *)
Theorem parse_raw_cookies_file_of (pktss : list (list (list byte))) (ck : list byte) :
  len pktss <= 4294967295 ->
  Forall (fun pkts => len (page_of pkts) <= 4294967295) pktss ->
  len ck = 8 ->
  parse_raw_cookies (file_of (map page_of pktss) ck) = Ok (concat pktss).
Proof.
  intros Hcount Hsizes Hck. unfold parse_raw_cookies.
  assert (Hc : len (map page_of pktss) = len pktss)
    by (unfold len; rewrite length_map; reflexivity).
  rewrite cfile_file_of; [|lia|apply Forall_map; exact Hsizes|assumption].
  cbn [bind].
  destruct (file_of_split (map page_of pktss) ck) as [Hdata Hpre].
  rewrite <- Hpre.
  rewrite (traverse_chunks (file_of (map page_of pktss) ck) _ page_of (@Ok _)
             pktss _ ck);
    [|clear Hdata Hpre|exact Hdata].
  - rewrite traverse_Ok. reflexivity.
  - eapply Forall_impl; [|exact Hsizes]. cbv beta. intros pkts Hfit pre' post' Hd.
    destruct (page_of_in _ pre' post' pkts Hfit Hd) as [Hpage Hd'].
    rewrite Hpage. cbn [bind].
    erewrite slices_of_spans; [reflexivity|exact Hd'].
Qed.

Section Files.
Context `{Platform}.

(** X18.  [parse_cookies] on records laid out in pages, and the pages in a
    file, is [cookie] on each record alone, page after page, in order: the
    same list of cookies, or the exception of the first record that fails.
    It holds for records of at least 56 bytes that hold the terminator of
    each of their four strings. *)
Theorem parse_cookies_file_of (pktss : list (list (list byte))) (ck : list byte) :
  len pktss <= 4294967295 ->
  Forall (fun pkts => len (page_of pkts) <= 4294967295) pktss ->
  len ck = 8 ->
  Forall (Forall (fun pkt => 56 <= len pkt /\ strings_terminated pkt)) pktss ->
  parse_cookies (file_of (map page_of pktss) ck)
  = traverse (fun pkt => cookie pkt 0 0) (concat pktss).
Proof.
  intros Hcount Hsizes Hck Hvalid. unfold parse_cookies.
  assert (Hc : len (map page_of pktss) = len pktss)
    by (unfold len; rewrite length_map; reflexivity).
  rewrite cfile_file_of; [|lia|apply Forall_map; exact Hsizes|assumption].
  cbn [bind].
  destruct (file_of_split (map page_of pktss) ck) as [Hdata Hpre].
  rewrite <- Hpre.
  rewrite (traverse_chunks (file_of (map page_of pktss) ck) _ page_of
             (traverse (fun pkt => cookie pkt 0 0)) pktss _ ck);
    [|clear Hdata Hpre|exact Hdata].
  - apply traverse_concat.
  - rewrite Forall_forall in *. intros pkts Hin pre' post' Hd.
    destruct (page_of_in _ pre' post' pkts (Hsizes _ Hin) Hd) as [Hpage Hd'].
    rewrite Hpage. cbn [bind].
    rewrite <- (map_id pkts) at 1.
    apply (traverse_chunks (file_of (map page_of pktss) ck)
             (fun '(p, s) => cookie _ p s)
             (fun pkt => pkt) (fun pkt => cookie pkt 0 0) pkts
             (pre' ++ page_header (starts (12 + 4 * len pkts) pkts)) post');
      [|rewrite map_id; exact Hd'].
    specialize (Hvalid _ Hin). eapply Forall_impl; [|exact Hvalid]. cbv beta.
    intros pkt [Hlen Hterm] pre'' post'' ->.
    apply cookie_shift; assumption.
Qed.

End Files.

(** *** The exceptions of the three parsers *)

(** X19.  [parse_raw_pages] fails in four ways only: the input runs out,
    the file magic is wrong, the count of pages is above the length of the
    buffer, or the file does not end with its checksum. *)
Theorem parse_raw_pages_exceptions (data : list byte) (e : exn) :
  parse_raw_pages data = Raise e ->
  e = error OutOfInput \/ e = error FileMagicMismatch \/
  e = error SanityBoundExceeded \/ e = error IncompleteParse.
Proof.
  unfold parse_raw_pages. intros Hr.
  apply bind_Raise_inv in Hr as [Hr | ([[pages ck] p] & _ & Hr)]; [|discriminate].
  apply cfile_Raise_nonneg in Hr; [assumption|lia].
Qed.

Lemma cfile_Ok_pages (data : list byte) (pages : list (Z * Z)) (ck : list byte)
    (pos' : Z) :
  cfile data 0 = Ok ((pages, ck), pos') ->
  Forall (fun '(s, n) => 0 <= s /\ 0 <= n) pages.
Proof.
  intros Hc. apply cfile_Ok_inv in Hc as (_ & _ & Hcont & _); [|lia].
  pose proof (len_nonneg pages).
  eapply Forall_impl; [|apply (contiguous_inside _ _ _ Hcont)].
  intros [s n]. lia.
Qed.

(** X20.  [parse_raw_cookies] fails with one of the four errors of the file
    layer, with the page-magic error, or with the NameError that [phead]
    raises where the sentinel of a page is not zero; with nothing else. *)
Theorem parse_raw_cookies_exceptions (data : list byte) (e : exn) :
  parse_raw_cookies data = Raise e ->
  e = error OutOfInput \/ e = error FileMagicMismatch \/
  e = error SanityBoundExceeded \/ e = error IncompleteParse \/
  e = error PageMagicMismatch \/ e = NameError "ck".
Proof.
  unfold parse_raw_cookies. intros Hr.
  apply bind_Raise_inv in Hr as [Hr | ([[pages ck] p] & Hc & Hr)].
  { apply cfile_Raise_nonneg in Hr; [tauto|lia]. }
  cbv beta iota zeta in Hr. apply cfile_Ok_pages in Hc.
  apply bind_Raise_inv in Hr as [Hr | (per & _ & Hr)]; [|discriminate].
  apply traverse_Raise_inv in Hr as ([s n] & Hin & Hr).
  rewrite Forall_forall in Hc. specialize (Hc _ Hin). cbv beta iota in Hc.
  apply bind_Raise_inv in Hr as [Hr | ([pg q] & _ & Hr)]; [|discriminate].
  apply page_Raise_nonneg in Hr; [tauto|lia].
Qed.

Section ParseExceptions.
Context `{Platform}.

(** X21.  [parse_cookies] fails with one of the six exceptions of
    [parse_raw_cookies], with the size-mismatch error of a record, or with
    the ValueError of a timestamp that is no datetime; with nothing else:
    no IndexError, no [struct.error], and never the sentinel error. *)
Theorem parse_cookies_exceptions (data : list byte) (e : exn) :
  parse_cookies data = Raise e ->
  e = error OutOfInput \/ e = error FileMagicMismatch \/
  e = error SanityBoundExceeded \/ e = error IncompleteParse \/
  e = error PageMagicMismatch \/ e = NameError "ck" \/
  e = error SizeMismatch \/ e = ValueError "timestamp out of range".
Proof.
  unfold parse_cookies. intros Hr.
  apply bind_Raise_inv in Hr as [Hr | ([[pages ck] p] & Hc & Hr)].
  { apply cfile_Raise_nonneg in Hr; [tauto|lia]. }
  cbv beta iota zeta in Hr. apply cfile_Ok_pages in Hc.
  apply bind_Raise_inv in Hr as [Hr | (per & _ & Hr)]; [|discriminate].
  apply traverse_Raise_inv in Hr as ([s n] & Hin & Hr).
  rewrite Forall_forall in Hc. specialize (Hc _ Hin). cbv beta iota in Hc.
  apply bind_Raise_inv in Hr as [Hr | ([pg q] & Hpage & Hr)].
  { apply page_Raise_nonneg in Hr; [tauto|lia]. }
  cbv beta iota zeta in Hr.
  apply page_Ok_starts in Hpage; [|lia].
  apply traverse_Raise_inv in Hr as ([p' s'] & Hin' & Hr).
  rewrite Forall_forall in Hpage. specialize (Hpage _ Hin'). cbv beta iota in Hpage.
  apply cookie_Raise_nonneg in Hr; [tauto|lia].
Qed.

End ParseExceptions.

(** * Concrete runs *)

Module Runs.
Import Samples.

Lemma sample_fields : @nozero_fields P sample_cookie.
Proof. unfold nozero_fields, nozero; simpl; intuition discriminate. Qed.

Lemma sample_u_cookie : @u_cookie P sample_cookie = Ok sample_packet.
Proof. vm_compute. reflexivity. Qed.

Lemma sample_cookie_decoded : @cookie P sample_packet 0 0 = Ok sample_cookie.
Proof. reflexivity. Qed.

(** The scenario of the specification: an empty page in a file. *)
Lemma sample_file_cookies : @parse_cookies P sample_file = Ok [].
Proof. reflexivity. Qed.

(** C1 at the sample cookie, whose timestamps are whole seconds, and at
    its packet. *)
Lemma cookie_u_cookie_witness :
  @u_cookie P sample_cookie = Ok sample_packet /\
  exists exp cre,
    @u_dstamp P (Expires sample_cookie) = Ok exp /\
    @u_dstamp P (Created sample_cookie) = Ok cre /\
    @cookie P sample_packet 0 0 =
      ('(e, _) <- @dstamp P exp 0 ;;
       '(c, _) <- @dstamp P cre 0 ;;
       Ok {| Domain := Domain sample_cookie; Name := Name sample_cookie;
             Path := Path sample_cookie; Value := Value sample_cookie;
             Created := @Datetime P c; Expires := @Datetime P e |}) /\
    (@cookie P sample_packet 0 0 = Ok sample_cookie <->
     @recode P (Expires sample_cookie) = Ok (Expires sample_cookie) /\
     @recode P (Created sample_cookie) = Ok (Created sample_cookie)).
Proof.
  split; [exact sample_u_cookie|].
  apply (proj2 (@cookie_u_cookie P sample_cookie sample_fields
                  ltac:(apply Z.leb_le; reflexivity))).
  exact sample_u_cookie.
Defined.

(** The sample cookie does come back as it went in. *)
Lemma sample_cookie_round_trip :
  (pkt <- @u_cookie P sample_cookie ;; @cookie P pkt 0 0) = Ok sample_cookie /\
  @recode P (Expires sample_cookie) = Ok (Expires sample_cookie) /\
  @recode P (Created sample_cookie) = Ok (Created sample_cookie).
Proof. repeat split. Qed.

(** A cookie that [u_cookie] packs and [cookie] cannot read back: its
    [Expires] is the double 1e300, which is no datetime. *)
Lemma huge_expires_rejected :
  (exists pkt, @u_cookie P huge_cookie = Ok pkt /\ len pkt = 77) /\
  (pkt <- @u_cookie P huge_cookie ;; @cookie P pkt 0 0)
  = Raise (ValueError "timestamp out of range").
Proof.
  split; [eexists; split; [reflexivity|reflexivity]|reflexivity].
Qed.

(** C1 fails where a timestamp has a fraction of a second: [u_dstamp]
    packs [time.mktime(dt.timetuple())], and a time tuple has no
    microseconds; the cookie decoded from the packet differs from the one
    encoded. *)
Lemma cookie_u_cookie_loses_microseconds :
  @nozero_fields P fractional_cookie /\
  (pkt <- @u_cookie P fractional_cookie ;; @cookie P pkt 0 0) = Ok sample_cookie /\
  sample_cookie <> fractional_cookie.
Proof.
  split; [|split].
  - unfold nozero_fields, nozero; simpl; intuition discriminate.
  - reflexivity.
  - discriminate.
Qed.

(** C2 at the empty page, whose marker is 256 read big-endian. *)
Lemma page_magic_mismatch_iff_witness :
  bsize empty_page 0 = Ok (256, 4) /\
  (page empty_page 0 12 = Raise (error PageMagicMismatch) <-> 256 <> 256).
Proof.
  split; [reflexivity|].
  apply (page_magic_mismatch_iff empty_page 0 12 256 4). reflexivity.
Defined.

(** C2 fails both ways: a page whose first 4 bytes are 0x00000100 read
    little-endian is rejected with the page-magic error, and a page whose
    first 4 bytes are 0x00010000 read little-endian is accepted. *)
Lemma page_magic_is_not_little_endian :
  lsize le_marker_page 0 = Ok (256, 4) /\
  page le_marker_page 0 0 = Raise (error PageMagicMismatch) /\
  lsize empty_page 0 = Ok (65536, 4) /\
  page empty_page 0 0 = Ok ([], 12).
Proof. repeat split. Qed.

(** C3.  On an empty page whose sentinel entry is 1, [page] ends with
    NameError, raised while the message of the sentinel error is built,
    and not with the sentinel error. *)
Theorem page_bad_sentinel_raises_NameError :
  page bad_sentinel_page 0 0 = Raise (NameError "ck").
Proof. reflexivity. Qed.

(** C4 fails at the finite double 1e300: its 8 bytes decode to no datetime,
    [fromtimestamp] raises ValueError. *)
Lemma huge_timestamp_rejected :
  PrimFloat.is_finite (Reference.double_of_Z (10 ^ 300)) = true /\
  (b <- @u_dstamp P (@Float P (Reference.double_of_Z (10 ^ 300))) ;;
   @dstamp P b 0)
  = Raise (ValueError "timestamp out of range").
Proof. split; reflexivity. Qed.

(** A timestamp in range: 10^9 + 0.5 seconds. *)
Lemma half_second_timestamp :
  (b <- @u_dstamp P (@Float P (PrimFloat.add (Reference.double_of_Z 1000000000)
                                          Reference.half)) ;;
   @dstamp P b 0)
  = Ok ({| Reference.seconds := 1000000000; Reference.microsecond := 500000 |}, 8).
Proof. reflexivity. Qed.

(** C4 fails in three ways.  The finite double 1e300 is packed and then
    rejected.  The double 5e-7 decodes to a datetime with no microseconds
    where [fromtimestamp] of 5e-7 itself has one: below the constant the
    subtraction rounds.  And for 0.1 the sum [(t - 978336000) + 978336000]
    is another double than [t]. *)
Lemma timestamp_round_trip_fails :
  PrimFloat.is_finite (Reference.double_of_Z (10 ^ 300)) = true /\
  (b <- @u_dstamp P (@Float P (Reference.double_of_Z (10 ^ 300))) ;;
   @dstamp P b 0)
  = Raise (ValueError "timestamp out of range") /\
  PrimFloat.is_finite five_e_minus_7 = true /\
  (b <- @u_dstamp P (@Float P five_e_minus_7) ;; @dstamp P b 0)
  = Ok ({| Reference.seconds := 0; Reference.microsecond := 0 |}, 8) /\
  Reference.utc_fromtimestamp five_e_minus_7
  = Some {| Reference.seconds := 0; Reference.microsecond := 1 |} /\
  PrimFloat.is_finite tenth = true /\
  PrimFloat.eqb
    (PrimFloat.add (PrimFloat.sub tenth (Reference.double_of_Z mac_abs_epoch))
                   (Reference.double_of_Z mac_abs_epoch))
    tenth = false.
Proof. repeat split. Qed.

(** C4 at 10^9 + 0.5 seconds, and at the second 0, before the constant. *)
Lemma dstamp_u_dstamp_witness :
  PrimFloat.add (PrimFloat.sub half_past (Reference.double_of_Z mac_abs_epoch))
                (Reference.double_of_Z mac_abs_epoch) = half_past /\
  (b <- @u_dstamp P (@Float P half_past) ;; @dstamp P b 0)
  = Ok ({| Reference.seconds := 1000000000; Reference.microsecond := 500000 |}, 8) /\
  (b <- @u_dstamp P (@Float P (Reference.double_of_Z 0)) ;; @dstamp P b 0)
  = Ok ({| Reference.seconds := 0; Reference.microsecond := 0 |}, 8).
Proof.
  split; [|split].
  - exact (proj1 (proj1 ReferenceFacts.dstamp_u_dstamp half_past eq_refl eq_refl)).
  - exact (proj2 (proj1 ReferenceFacts.dstamp_u_dstamp half_past eq_refl eq_refl)).
  - exact (proj2 ReferenceFacts.dstamp_u_dstamp 0 ltac:(lia)).
Defined.

(** C5 at a page of 60 bytes with two records, listed out of order. *)
Lemma page_ranges_partition_witness :
  well_formed_page [40; 20] 60 /\
  exists cs xs,
    page (page_header [40; 20]) 0 60 = Ok (cs, 20) /\
    len cs = 2 /\
    Permutation xs [40; 20] /\ StronglySorted Z.lt xs /\
    (forall i, (i < 2)%nat ->
       nth i cs (0, 0) = (0 + nth i xs 0, nth (S i) (xs ++ [60]) 0 - nth i xs 0)) /\
    tiles 20 60 cs /\
    forall offs', Permutation [40; 20] offs' ->
      page ([] ++ page_header offs' ++ []) 0 60 = Ok (cs, 20).
Proof.
  assert (Hwf : well_formed_page [40; 20] 60).
  { constructor.
    - vm_compute. discriminate.
    - lia.
    - repeat constructor; simpl; intuition discriminate.
    - repeat constructor; vm_compute; discriminate.
    - intros _. simpl. auto.
    - discriminate. }
  split; [exact Hwf|].
  exact (page_ranges_partition [] [] [40; 20] 60 Hwf).
Defined.

Lemma two_record_page_ranges :
  page two_record_page 0 60 = Ok ([(20, 20); (40, 20)], 20).
Proof. reflexivity. Qed.

(** C6 fails at offset 1: with size 0 [cookie] expects the size field to
    be the length of the whole buffer, 78, not the 77 bytes that remain,
    and [page] ends the last range at offset 1 + 61, past the buffer. *)
Lemma size_zero_is_not_remaining_length :
  len (x2a :: sample_packet) - 1 = 77 /\
  @cookie P (x2a :: sample_packet) 1 77 = Ok sample_cookie /\
  @cookie P (x2a :: sample_packet) 1 0 = Raise (error SizeMismatch) /\
  len (x2a :: two_record_page) - 1 = 60 /\
  page (x2a :: two_record_page) 1 60 = Ok ([(21, 20); (41, 20)], 21) /\
  page (x2a :: two_record_page) 1 0 = Ok ([(21, 20); (41, 21)], 21).
Proof.
  repeat split.
Qed.

(** C7 at the sample packet, with the right size and with a wrong one. *)
Lemma cookie_size_mismatch_iff_witness :
  (@cookie P sample_packet 0 77 = Raise (error SizeMismatch) <-> 77 <> 77) /\
  (@cookie P sample_packet 0 80 = Raise (error SizeMismatch) <-> 77 <> 80).
Proof.
  split.
  - apply (@cookie_size_mismatch_iff P sample_packet 0 77 77 4);
      [discriminate|reflexivity].
  - apply (@cookie_size_mismatch_iff P sample_packet 0 80 77 4);
      [discriminate|reflexivity].
Defined.

(** C8 at the sample file, which ends with its checksum. *)
Lemma cfile_incomplete_parse_iff_witness :
  (cfile sample_file 0 = Raise (error IncompleteParse) <-> 32 <> len sample_file) /\
  (32 < len sample_file -> cfile sample_file 0 = Raise (error IncompleteParse)) /\
  (32 = len sample_file ->
   cfile sample_file 0 =
   Ok ((fst (spans [12] 12), slice sample_file 24 32), 32)).
Proof.
  apply (cfile_incomplete_parse_iff sample_file [12] 12).
  - reflexivity.
  - reflexivity.
  - vm_compute. discriminate.
Defined.

Lemma trailing_byte_rejected :
  cfile (sample_file ++ [x00]) 0 = Raise (error IncompleteParse).
Proof. reflexivity. Qed.

Lemma sample_terminated : strings_terminated (slice (x2a :: sample_packet ++ [x2a]) 1 78).
Proof.
  intros k off p Hk Hl.
  destruct Hk as [<-|[<-|[<-|[<-|[]]]]];
    vm_compute in Hl; injection Hl as <- <-; vm_compute;
    repeat (first [left; reflexivity | right]).
Qed.

(** C9 at the sample packet, set between two other bytes. *)
Lemma cookie_in_place_eq_slice_witness :
  @cookie P (x2a :: sample_packet ++ [x2a]) 1 77 =
  @cookie P (slice (x2a :: sample_packet ++ [x2a]) 1 (1 + 77)) 0 0.
Proof.
  apply (@cookie_in_place_eq_slice P (x2a :: sample_packet ++ [x2a]) 1 77).
  - lia.
  - lia.
  - apply Z.leb_le. reflexivity.
  - exact sample_terminated.
Defined.

(** C9 fails on a record whose last string has no terminator: decoded in
    place, ["d"] runs on into the next byte of the buffer; decoded from its
    slice, it stops where the record ends. *)
Lemma cookie_in_place_reads_past_record :
  0 + 63 <= len open_buffer /\
  @cookie P open_buffer 0 63 =
    Ok {| Domain := ascii "a"; Name := ascii "b"; Path := ascii "c";
          Value := ascii "dX";
          Created := at_second 1000000000; Expires := at_second 1000003600 |} /\
  @cookie P (slice open_buffer 0 (0 + 63)) 0 0 =
    Ok {| Domain := ascii "a"; Name := ascii "b"; Path := ascii "c";
          Value := ascii "d";
          Created := at_second 1000000000; Expires := at_second 1000003600 |}.
Proof. split; [apply Z.leb_le; reflexivity|]. split; reflexivity. Qed.

(** C10 at the sample cookie. *)
Lemma u_cookie_size_field_witness :
  (forall pkt, @u_cookie P sample_cookie = Ok pkt ->
     len pkt = 77 /\ lsize pkt 0 = Ok (77, 4)) /\
  (77 <= 4294967295 ->
   (exists exp, @u_dstamp P (Expires sample_cookie) = Ok exp) ->
   (exists cre, @u_dstamp P (Created sample_cookie) = Ok cre) ->
   exists pkt, @u_cookie P sample_cookie = Ok pkt).
Proof.
  apply (@u_cookie_size_field P sample_cookie).
  unfold nozero_fields, nozero; simpl; intuition discriminate.
Defined.

End Runs.

(** * Concrete runs of the further properties *)

Module Checks.
Import Samples.

Lemma sample_packet_terminated : strings_terminated sample_packet.
Proof.
  intros k off p Hk Hl.
  destruct Hk as [<-|[<-|[<-|[<-|[]]]]];
    vm_compute in Hl; injection Hl as <- <-; vm_compute;
    repeat (first [left; reflexivity | right]).
Qed.

(** X1 inside the sample packet, and 7 bytes before its end. *)
Lemma bytes_exact_witness :
  (exists v, bytes sample_packet 4 12 = Ok (v, 16) /\ len v = 12 /\
             v = firstn 12 (skipn 4 sample_packet)) /\
  bytes sample_packet 70 12 = Raise (error OutOfInput).
Proof.
  split.
  - apply (proj1 (bytes_exact sample_packet 4 12 ltac:(lia) ltac:(lia))).
    apply Z.leb_le. reflexivity.
  - apply (proj2 (bytes_exact sample_packet 70 12 ltac:(lia) ltac:(lia))).
    apply Z.ltb_lt. reflexivity.
Defined.

(** X2 at the value 77, between two other bytes. *)
Lemma lsize_u_lsize_witness :
  exists b, u_lsize 77 = Ok b /\ len b = 4 /\
            lsize ([x2a] ++ b ++ [x2b]) 1 = Ok (77, 5).
Proof. apply (lsize_u_lsize [x2a] [x2b] 77). lia. Defined.

(** X3 at the page marker, 256. *)
Lemma bsize_u_bsize_witness :
  exists b, u_bsize 256 = Ok b /\ len b = 4 /\
            bsize ([x2a] ++ b ++ [x2b]) 1 = Ok (256, 5).
Proof. apply (bsize_u_bsize [x2a] [x2b] 256). lia. Defined.

(** X5 at the first string of the sample packet. *)
Lemma zstr_result_witness :
  exists s rest,
    zstr sample_packet 56 = Ok s /\ nozero s /\
    skipn 56 sample_packet = s ++ rest /\
    (rest = [] \/ exists rest', rest = x00 :: rest') /\
    (len sample_packet <= 56 -> s = []).
Proof. apply (zstr_result sample_packet 56). lia. Defined.

(** X6 at the name of the sample cookie. *)
Lemma zstr_u_zstr_witness :
  exists b, u_zstr (ascii "id") = Ok b /\
            zstr ([x2a] ++ b ++ [x2b]) 1 = Ok (ascii "id").
Proof.
  apply (zstr_u_zstr [x2a] [x2b] (ascii "id")).
  unfold nozero; simpl; intuition discriminate.
Defined.

(** X7 with a pattern of two bytes and a count that is odd. *)
Lemma u_bytes_cycle_witness :
  exists b, u_bytes [x61; x62] 5 = Ok b /\ len b = 5 /\
    forall i, 0 <= i < 5 ->
      nth_error b (Z.to_nat i) = nth_error [x61; x62] (Z.to_nat (i mod 2)).
Proof.
  apply (proj2 (u_bytes_cycle [x61; x62] 5)); [discriminate|lia].
Defined.

(** X8 at the header of the sample file: one page, of 12 bytes. *)
Lemma head_result_witness :
  bsize sample_file 4 = Ok (1, 8) /\
  head sample_file 4 = Ok ([12], 12) /\
  1 <= len sample_file /\ len [12] = 1 /\ 12 = 4 + 4 + 4 * 1 /\
  12 <= len sample_file /\ Forall (fun v => 0 <= v <= 4294967295) [12].
Proof.
  split; [reflexivity|]. split; [reflexivity|].
  exact (proj2 (head_result sample_file 4 1 8 eq_refl) [12] 12 eq_refl).
Defined.

(** X9 at the sample file. *)
Lemma cfile_result_witness :
  cfile sample_file 0 = Ok (([(12, 12)], trailer), 32) /\
  slice sample_file 0 4 = FILE_MAGIC /\
  bsize sample_file 4 = Ok (1, 8) /\
  contiguous 12 24 [(12, 12)] /\
  Forall (fun '(s, n) => 12 <= s /\ 0 <= n /\ s + n <= 24) [(12, 12)] /\
  trailer = slice sample_file 24 32 /\ len trailer = 8 /\
  32 = len sample_file.
Proof.
  split; [reflexivity|].
  exact (cfile_result sample_file 0 [(12, 12)] trailer 32 ltac:(lia) eq_refl).
Defined.

(** X10 at the sample file. *)
Lemma parse_raw_pages_reassemble_witness :
  parse_raw_pages sample_file = Ok ([empty_page], trailer) /\
  sample_file = FILE_MAGIC ++ slice sample_file 4 12 ++ concat [empty_page] ++ trailer /\
  bsize sample_file 4 = Ok (1, 8) /\ len trailer = 8.
Proof.
  split; [reflexivity|].
  exact (parse_raw_pages_reassemble sample_file [empty_page] trailer eq_refl).
Defined.

(** X11 at the page of two records, listed out of order. *)
Lemma page_result_witness :
  page two_record_page 0 60 = Ok ([(20, 20); (40, 20)], 20) /\
  exists n lo hi,
    bsize two_record_page 0 = Ok (PAGE_MAGIC, 4) /\
    lsize two_record_page 4 = Ok (n, 8) /\
    len [(20, 20); (40, 20)] = n /\ 20 = 12 + 4 * n /\ 20 <= len two_record_page /\
    contiguous lo hi [(20, 20); (40, 20)].
Proof.
  split; [reflexivity|].
  exact (page_result two_record_page 0 60 [(20, 20); (40, 20)] 20 eq_refl).
Defined.

(** X12 at the sample packet. *)
Lemma cookie_result_witness :
  @cookie P sample_packet 0 0 = Ok sample_cookie /\
  lsize sample_packet 0 = Ok (77, 4) /\
  56 <= len sample_packet /\
  @nozero_fields P sample_cookie /\
  (exists c, Created sample_cookie = @Datetime P c) /\
  (exists x, Expires sample_cookie = @Datetime P x).
Proof.
  split; [reflexivity|].
  exact (@cookie_result P sample_packet 0 0 sample_cookie ltac:(lia) eq_refl).
Defined.

(** X14 at the sample packet, between two other bytes. *)
Lemma cookie_u_cookie_in_place_witness :
  @u_cookie P sample_cookie = Ok sample_packet /\
  @cookie P ([x2a] ++ sample_packet ++ [x2b]) 1 77 = @cookie P sample_packet 0 0.
Proof.
  split; [exact Runs.sample_u_cookie|].
  exact (@cookie_u_cookie_in_place P sample_cookie sample_packet [x2a] [x2b]
           Runs.sample_u_cookie).
Defined.

Lemma cookie_file_cookies : @parse_cookies P cookie_file = Ok [sample_cookie].
Proof. reflexivity. Qed.

(** X15 at the file of one page that holds the sample packet. *)
Lemma parse_cookies_raw_witness :
  @parse_cookies P cookie_file = Ok [sample_cookie] /\
  exists raws,
    parse_raw_cookies cookie_file = Ok raws /\
    Forall2 (fun raw c => exists p s, raw = slice cookie_file p (p + s) /\
                                      @cookie P cookie_file p s = Ok c)
            raws [sample_cookie].
Proof.
  split; [exact cookie_file_cookies|].
  exact (@parse_cookies_raw P cookie_file [sample_cookie] cookie_file_cookies).
Defined.

(** X16 with the empty page and the page of two records. *)
Lemma parse_raw_pages_file_of_witness :
  parse_raw_pages (file_of [empty_page; two_record_page] trailer)
  = Ok ([empty_page; two_record_page], trailer).
Proof.
  apply (parse_raw_pages_file_of [empty_page; two_record_page] trailer).
  - apply Z.leb_le. reflexivity.
  - repeat constructor; apply Z.leb_le; reflexivity.
  - reflexivity.
Defined.

(** X17 at the file of two pages. *)
Lemma parse_raw_cookies_file_of_witness :
  parse_raw_cookies two_page_file = Ok [sample_packet; sample_packet].
Proof.
  apply (parse_raw_cookies_file_of [[sample_packet; sample_packet]; []] trailer).
  - apply Z.leb_le. reflexivity.
  - repeat constructor; apply Z.leb_le; reflexivity.
  - reflexivity.
Defined.

(** X18 at the file of two pages. *)
Lemma parse_cookies_file_of_witness :
  @parse_cookies P two_page_file
  = traverse (fun pkt => @cookie P pkt 0 0) [sample_packet; sample_packet].
Proof.
  apply (@parse_cookies_file_of P [[sample_packet; sample_packet]; []] trailer).
  - apply Z.leb_le. reflexivity.
  - repeat constructor; apply Z.leb_le; reflexivity.
  - reflexivity.
  - repeat constructor; first [apply Z.leb_le; reflexivity
                              | exact sample_packet_terminated].
Defined.

Lemma two_page_file_cookies :
  @parse_cookies P two_page_file = Ok [sample_cookie; sample_cookie].
Proof. reflexivity. Qed.

(** X19 at the sample file with one more byte after its checksum. *)
Lemma parse_raw_pages_exceptions_witness :
  parse_raw_pages (sample_file ++ [x00]) = Raise (error IncompleteParse) /\
  (error IncompleteParse = error OutOfInput \/
   error IncompleteParse = error FileMagicMismatch \/
   error IncompleteParse = error SanityBoundExceeded \/
   error IncompleteParse = error IncompleteParse).
Proof.
  split; [reflexivity|].
  exact (parse_raw_pages_exceptions (sample_file ++ [x00]) (error IncompleteParse)
           eq_refl).
Defined.

(** X20 at a file whose one page has the sentinel 1. *)
Lemma parse_raw_cookies_exceptions_witness :
  parse_raw_cookies (file_of [bad_sentinel_page] trailer) = Raise (NameError "ck") /\
  (NameError "ck" = error OutOfInput \/
   NameError "ck" = error FileMagicMismatch \/
   NameError "ck" = error SanityBoundExceeded \/
   NameError "ck" = error IncompleteParse \/
   NameError "ck" = error PageMagicMismatch \/
   NameError "ck" = NameError "ck").
Proof.
  split; [reflexivity|].
  exact (parse_raw_cookies_exceptions (file_of [bad_sentinel_page] trailer)
           (NameError "ck") eq_refl).
Defined.

Lemma long_record_rejected :
  @parse_cookies P (file_of [page_of [sample_packet ++ [x00]]] trailer)
  = Raise (error SizeMismatch).
Proof. reflexivity. Qed.

(** X21 at a file whose one record is a byte longer than its size field
    says. *)
Lemma parse_cookies_exceptions_witness :
  @parse_cookies P (file_of [page_of [sample_packet ++ [x00]]] trailer)
  = Raise (error SizeMismatch) /\
  (error SizeMismatch = error OutOfInput \/
   error SizeMismatch = error FileMagicMismatch \/
   error SizeMismatch = error SanityBoundExceeded \/
   error SizeMismatch = error IncompleteParse \/
   error SizeMismatch = error PageMagicMismatch \/
   error SizeMismatch = NameError "ck" \/
   error SizeMismatch = error SizeMismatch \/
   error SizeMismatch = ValueError "timestamp out of range").
Proof.
  split; [exact long_record_rejected|].
  exact (@parse_cookies_exceptions P _ (error SizeMismatch) long_record_rejected).
Defined.


End Checks.
